(** * Super Bowl squares: pasted-board extraction and expected-value analysis

    A shallow embedding of [src/lib/squares-analysis.ts] and
    [src/lib/squares-parse.ts].

    - JavaScript strings are sequences of UTF-16 code units ([list N]).
    - JavaScript numbers are IEEE-754 binary64 values ([PrimFloat]); the
      operations the program uses are gathered in the class [JsNumber], so
      that what does not depend on the arithmetic is stated once for every
      instance.
    - [throw new Error(...)] becomes the [Err] branch of [result]. *)

From Stdlib Require Import Ascii String.
From Stdlib Require Import ZArith List Bool Lia Permutation.
From Stdlib Require Import Floats Uint63 Setoid Morphisms.
Import ListNotations.

#[local] Abbreviation length := Datatypes.length.

(* Decimal literals such as 0.8 denote the nearest binary64 value, as they
   do in the source. *)
Set Warnings "-inexact-float".

Set Implicit Arguments.

(* ================================================================== *)
(** ** Errors *)

(** One constructor per [throw] of the two modules, named after the error
    kinds of the specification; the thrown message is quoted beside it. *)
Inductive axis : Type := HomeAxis | AwayAxis.

Inductive error : Type :=
| InvalidOdds                          (* "American odds cannot be 0" *)
| MalformedDigitAxis (which : axis)    (* "Home|Away digits must contain each digit 0-9 exactly once." *)
| MalformedBoardShape                  (* "Board ownership grid must be 10x10." *)
| IncompleteOddsCoverage (away home : Z) (* "Missing odds for away=<away>, home=<home>" *)
| DegenerateProbabilityMass            (* "Unable to compute probabilities from odds." *)
| UnderfilledPastedInput               (* "Expected at least 10 rows from pasted Excel data." *)
| IncompleteOwnershipGrid.             (* "Could not parse a full 10x10 owner grid from pasted text." *)

Inductive result (A : Type) : Type :=
| Ok (a : A)
| Err (e : error).

Arguments Ok {A} a.
Arguments Err {A} e.

Definition bind {A B : Type} (m : result A) (k : A -> result B) : result B :=
  match m with
  | Ok a => k a
  | Err e => Err e
  end.

Notation "x <- m ;; k" := (bind m (fun x => k))
  (at level 61, m at next level, right associativity).

(** A [for] loop whose body may throw: the first failure, in iteration
    order, is the one that escapes. *)
Fixpoint mapM {A B : Type} (f : A -> result B) (l : list A) : result (list B) :=
  match l with
  | [] => Ok []
  | x :: xs => y <- f x ;; ys <- mapM f xs ;; Ok (y :: ys)
  end.

(* ================================================================== *)
(** ** JavaScript strings *)

Definition jschar : Type := N.
Definition jsstring : Type := list jschar.

(** ASCII literals. *)
Definition js (s : string) : jsstring :=
  List.map N_of_ascii (list_ascii_of_string s).

Definition jseqb (a b : jsstring) : bool :=
  if list_eq_dec N.eq_dec a b then true else false.

(** The code units matched by the regular-expression class [\s] and removed
    by [String.prototype.trim] (WhiteSpace and LineTerminator). *)
Definition isSpace (c : jschar) : bool :=
  ((9 <=? c) && (c <=? 13) || (c =? 32) || (c =? 160) || (c =? 5760)
   || (8192 <=? c) && (c <=? 8202) || (c =? 8232) || (c =? 8233)
   || (c =? 8239) || (c =? 8287) || (c =? 12288) || (c =? 65279))%N.

Fixpoint dropWhile {A : Type} (p : A -> bool) (l : list A) : list A :=
  match l with
  | [] => []
  | x :: xs => if p x then dropWhile p xs else l
  end.

Definition dropWhileEnd {A : Type} (p : A -> bool) (l : list A) : list A :=
  rev (dropWhile p (rev l)).

(** [s.trim()] *)
Definition trim (s : jsstring) : jsstring :=
  dropWhileEnd isSpace (dropWhile isSpace s).

(* ================================================================== *)
(** ** JavaScript numbers *)

(** The operations of the Number type the two modules use. *)
Class JsNumber (num : Type) : Type := {
  ofZ : Z -> num;                 (* an integer literal *)
  nadd : num -> num -> num;       (* a + b *)
  nsub : num -> num -> num;       (* a - b *)
  nmul : num -> num -> num;       (* a * b *)
  ndiv : num -> num -> num;       (* a / b *)
  nabs : num -> num;              (* Math.abs(a) *)
  nmax : num -> num -> num;       (* Math.max(a, b) *)
  nltb : num -> num -> bool;      (* a < b *)
  nleb : num -> num -> bool;      (* a <= b *)
  isFinite : num -> bool          (* Number.isFinite(a) *)
}.

(** [xs.reduce((sum, value) => sum + value, 0)] *)
Definition sumList {num : Type} `{JsNumber num} (xs : list num) : num :=
  fold_left nadd xs (ofZ 0).

(** Binary64, the arithmetic of the running program.  An integer literal
    denotes the nearest double, ties to even, whatever its size. *)
Definition float_ofZ (z : Z) : float :=
  SF2Prim (binary_normalize prec emax z 0 false).

Definition float_isFinite (x : float) : bool :=
  negb (PrimFloat.is_nan x || PrimFloat.is_infinity x).

(** [Math.max(a, b)]: NaN when either argument is NaN, and +0 is larger
    than -0 (the sum of two zeros is -0 only when both are). *)
Definition float_max (a b : float) : float :=
  if PrimFloat.is_nan a || PrimFloat.is_nan b then PrimFloat.nan
  else if PrimFloat.ltb a b then b
  else if PrimFloat.ltb b a then a
  else if PrimFloat.is_zero a then PrimFloat.add a b
  else a.

#[export] Instance Float_JsNumber : JsNumber float := {
  ofZ := float_ofZ;
  nadd := PrimFloat.add;
  nsub := PrimFloat.sub;
  nmul := PrimFloat.mul;
  ndiv := PrimFloat.div;
  nabs := PrimFloat.abs;
  nmax := float_max;
  nltb := PrimFloat.ltb;
  nleb := PrimFloat.leb;
  isFinite := float_isFinite
}.

(* ================================================================== *)
(** ** squares-analysis.ts *)

Record SquaresBoard : Type := {
  homeTeam : jsstring;
  awayTeam : jsstring;
  homeDigits : list Z;
  awayDigits : list Z;
  owners : list (list jsstring)   (* [row=awayDigitOrder][col=homeDigitOrder] *)
}.

(** const DIGITS = [0, 1, 2, 3, 4, 5, 6, 7, 8, 9]; *)
Definition DIGITS : list Z := [0; 1; 2; 3; 4; 5; 6; 7; 8; 9]%Z.

Definition defaultDigits : list Z := DIGITS.

(** [isValidDigitArray]: ten entries, ten distinct values, each an integer
    between 0 and 9.  The array elements are integers here; [new Set(digits).size]
    is the number of distinct values. *)
Definition isValidDigitArray (digits : list Z) : bool :=
  if negb (length digits =? 10)%nat then false
  else (length (nodup Z.eq_dec digits) =? 10)%nat
       && forallb (fun n => (0 <=? n)%Z && (n <=? 9)%Z) digits.

Section Analysis.
Context {num : Type} `{JsNumber num}.

(** A [SquaresGrid] of odds, indexed [awayDigit][homeDigit].  An entry is
    [None] where the array holds NaN (the filler of [createEmptyGrid]) or
    nothing at all. *)
Definition SquaresGrid : Type := list (list num).
Definition OddsGrid : Type := list (list (option num)).

Record DraftKingsSquaresOdds : Type := {
  anyQuarterOdds : OddsGrid;
  finalResultOdds : OddsGrid
}.

Record OwnerStat : Type := {
  owner : jsstring;
  numSquares : Z;
  totalEv : num;
  evPerSquare : num;
  bestSquareEv : num
}.

Record TopSquare : Type := {
  ts_owner : jsstring;
  ts_homeDigit : Z;
  ts_awayDigit : Z;
  ts_ev : num;
  ts_probability : num
}.

Record SquaresAnalysis : Type := {
  totalPot : num;
  sumEv : num;
  evByDigit : SquaresGrid;            (* [awayDigit][homeDigit] *)
  combinedProbability : SquaresGrid;  (* [awayDigit][homeDigit] *)
  boardEv : SquaresGrid;              (* [row order][column order] *)
  ownerStats : list OwnerStat;
  topSquares : list TopSquare
}.

(** [americanToRawProbability] *)
Definition americanToRawProbability (american : num) : result num :=
  if nltb (ofZ 0) american then
    Ok (ndiv (ofZ 100) (nadd american (ofZ 100)))
  else if nltb american (ofZ 0) then
    let abs := nabs american in
    Ok (ndiv abs (nadd abs (ofZ 100)))
  else Err InvalidOdds.

(** [createEmptyGrid(fill)] *)
Definition createEmptyGrid (fill : num) : SquaresGrid :=
  List.map (fun _ => List.map (fun _ => fill) DIGITS) DIGITS.

(** [grid[awayDigit]?.[homeDigit]] followed by [Number.isFinite]: the entry
    when it is there and finite. *)
Definition finiteOdds (grid : OddsGrid) (awayDigit homeDigit : Z) : option num :=
  match nth_error grid (Z.to_nat awayDigit) with
  | Some row =>
      match nth_error row (Z.to_nat homeDigit) with
      | Some (Some v) => if isFinite v then Some v else None
      | _ => None
      end
  | None => None
  end.

(** [grid[awayDigit][homeDigit]] in a grid built over DIGITS x DIGITS; the
    digits are validated before any such read. *)
Definition gridAt (grid : SquaresGrid) (awayDigit homeDigit : Z) : num :=
  nth (Z.to_nat homeDigit) (nth (Z.to_nat awayDigit) grid []) (ofZ 0).

(** The body of the first double loop, for one digit pair: the blended raw
    probability of the pair. *)
Definition combinedRawCell (odds : DraftKingsSquaresOdds)
    (finalResultWeight anyQuarterWeight : num) (awayDigit homeDigit : Z)
    : result num :=
  match finiteOdds (finalResultOdds odds) awayDigit homeDigit,
        finiteOdds (anyQuarterOdds odds) awayDigit homeDigit with
  | Some finalOdds, Some anyQuarterOdds' =>
      rawFinal <- americanToRawProbability finalOdds ;;
      rawAnyQuarter <- americanToRawProbability anyQuarterOdds' ;;
      Ok (nadd (nmul finalResultWeight rawFinal)
               (nmul anyQuarterWeight rawAnyQuarter))
  | _, _ => Err (IncompleteOddsCoverage awayDigit homeDigit)
  end.

Definition combinedRawGrid (odds : DraftKingsSquaresOdds)
    (finalResultWeight anyQuarterWeight : num) : result SquaresGrid :=
  mapM (fun awayDigit =>
          mapM (combinedRawCell odds finalResultWeight anyQuarterWeight awayDigit)
               DIGITS)
       DIGITS.

(** The ownership walk: one step per board cell, in row-major order. *)
Record OwnerTotal : Type := {
  ot_totalEv : num;
  ot_numSquares : Z;
  ot_bestSquareEv : num
}.

(** [ownerTotals]: a Map, kept in insertion order. *)
Fixpoint ownerTotalsSet (m : list (jsstring * OwnerTotal)) (k : jsstring)
    (v : OwnerTotal) : list (jsstring * OwnerTotal) :=
  match m with
  | [] => [(k, v)]
  | (k', v') :: rest =>
      if jseqb k' k then (k', v) :: rest
      else (k', v') :: ownerTotalsSet rest k v
  end.

Fixpoint ownerTotalsGet (m : list (jsstring * OwnerTotal)) (k : jsstring)
    : option OwnerTotal :=
  match m with
  | [] => None
  | (k', v') :: rest => if jseqb k' k then Some v' else ownerTotalsGet rest k
  end.

(** [Math.max(Number.NEGATIVE_INFINITY, ev)] is [ev], so an owner's first
    square starts the running maximum. *)
Definition accumulate (m : list (jsstring * OwnerTotal)) (k : jsstring)
    (ev : num) : list (jsstring * OwnerTotal) :=
  match ownerTotalsGet m k with
  | None =>
      ownerTotalsSet m k
        {| ot_totalEv := nadd (ofZ 0) ev; ot_numSquares := 1;
           ot_bestSquareEv := ev |}
  | Some current =>
      ownerTotalsSet m k
        {| ot_totalEv := nadd (ot_totalEv current) ev;
           ot_numSquares := ot_numSquares current + 1;
           ot_bestSquareEv := nmax (ot_bestSquareEv current) ev |}
  end.

(** [xs.sort((a, b) => key(b) - key(a))]: a stable sort.  [x] comes from
    before every element of [l]; it moves behind [y] only when the
    comparator [key(y) - key(x)] is positive.  A comparator value that is
    zero or NaN (which the sort reads as +0) leaves the two in their
    original order. *)
Fixpoint insertDesc {A : Type} (key : A -> num) (x : A) (l : list A) : list A :=
  match l with
  | [] => [x]
  | y :: ys =>
      if nltb (ofZ 0) (nsub (key y) (key x)) then y :: insertDesc key x ys
      else x :: l
  end.

Definition sortDesc {A : Type} (key : A -> num) (l : list A) : list A :=
  fold_right (insertDesc key) [] l.

Definition boardCells : list (nat * nat) :=
  list_prod (seq 0 10) (seq 0 10).

Definition walkCell (board : SquaresBoard) (ev prob : SquaresGrid)
    (st : list (jsstring * OwnerTotal) * list TopSquare) (rc : nat * nat)
    : list (jsstring * OwnerTotal) * list TopSquare :=
  let '(ownerTotals, topSquares) := st in
  let '(row, col) := rc in
  let awayDigit := nth row (awayDigits board) 0%Z in
  let homeDigit := nth col (homeDigits board) 0%Z in
  let owner := trim (nth col (nth row (owners board) []) []) in
  let ev := gridAt ev awayDigit homeDigit in
  let probability := gridAt prob awayDigit homeDigit in
  match owner with
  | [] => st
  | _ =>
      (accumulate ownerTotals owner ev,
       topSquares ++ [{| ts_owner := owner; ts_homeDigit := homeDigit;
                         ts_awayDigit := awayDigit; ts_ev := ev;
                         ts_probability := probability |}])
  end.

(** The second loop nest, apart from the writes to [boardEv]: owner totals
    in insertion order and the squares in visiting order. *)
Definition walkOwnership (board : SquaresBoard) (ev prob : SquaresGrid)
    : list (jsstring * OwnerTotal) * list TopSquare :=
  fold_left (walkCell board ev prob) boardCells ([], []).

(** [[...ownerTotals.entries()].map(...)] *)
Definition ownerStatsOf (totals : list (jsstring * OwnerTotal)) : list OwnerStat :=
  List.map (fun kv =>
         {| owner := fst kv;
            numSquares := ot_numSquares (snd kv);
            totalEv := ot_totalEv (snd kv);
            evPerSquare := ndiv (ot_totalEv (snd kv))
                                (ofZ (ot_numSquares (snd kv)));
            bestSquareEv := ot_bestSquareEv (snd kv) |})
      totals.

(** [boardEv[row][col] = evByDigit[awayDigits[row]][homeDigits[col]]] for
    the ten rows and ten columns. *)
Definition boardEvOf (board : SquaresBoard) (ev : SquaresGrid) : SquaresGrid :=
  List.map (fun row =>
         List.map (fun col =>
                gridAt ev (nth row (awayDigits board) 0%Z)
                          (nth col (homeDigits board) 0%Z))
             (seq 0 10))
      (seq 0 10).

(** [computeSquaresAnalysis] *)
Definition computeSquaresAnalysis (board : SquaresBoard)
    (odds : DraftKingsSquaresOdds)
    (squarePrice finalResultWeight anyQuarterWeight : num)
    : result SquaresAnalysis :=
  if negb (isValidDigitArray (homeDigits board)) then
    Err (MalformedDigitAxis HomeAxis)
  else if negb (isValidDigitArray (awayDigits board)) then
    Err (MalformedDigitAxis AwayAxis)
  else if negb (length (owners board) =? 10)%nat
          || existsb (fun row => negb (length row =? 10)%nat) (owners board) then
    Err MalformedBoardShape
  else
    combinedRaw <- combinedRawGrid odds finalResultWeight anyQuarterWeight ;;
    let totalCombinedRaw := sumList (concat combinedRaw) in
    if nleb totalCombinedRaw (ofZ 0) then Err DegenerateProbabilityMass
    else
      let totalPot := nmul squarePrice (ofZ 100) in
      let combinedProbability :=
        List.map (List.map (fun c => ndiv c totalCombinedRaw)) combinedRaw in
      let evByDigit :=
        List.map (List.map (fun probability => nmul probability totalPot))
                 combinedProbability in
      let boardEv := boardEvOf board evByDigit in
      let walked := walkOwnership board evByDigit combinedProbability in
      let ownerStats := sortDesc totalEv (ownerStatsOf (fst walked)) in
      Ok {| totalPot := totalPot;
            sumEv := sumList (concat boardEv);
            evByDigit := evByDigit;
            combinedProbability := combinedProbability;
            boardEv := boardEv;
            ownerStats := ownerStats;
            topSquares := sortDesc ts_ev (snd walked) |}.

End Analysis.

Arguments combinedRawGrid : simpl never.
Arguments walkOwnership : simpl never.
Arguments boardEvOf : simpl never.
Arguments SquaresGrid num : clear implicits.
Arguments OddsGrid num : clear implicits.
Arguments DraftKingsSquaresOdds num : clear implicits.
Arguments OwnerStat num : clear implicits.
Arguments TopSquare num : clear implicits.
Arguments SquaresAnalysis num : clear implicits.


(* ================================================================== *)
(** ** squares-parse.ts *)

(** *** Regular expressions and string methods used by the parser *)

(** [s.replace(/\s+/g, " ")]: every maximal run of white space becomes one
    space.  [inRun] tells that the previous code unit was white space. *)
Fixpoint collapseSpaces (inRun : bool) (s : jsstring) : jsstring :=
  match s with
  | [] => []
  | c :: rest =>
      if isSpace c then
        if inRun then collapseSpaces true rest
        else 32%N :: collapseSpaces true rest
      else c :: collapseSpaces false rest
  end.

(** [normalizeCell], on a string. *)
Definition normalizeCell (value : jsstring) : jsstring :=
  trim (collapseSpaces false value).

Fixpoint startsWith (s prefix : jsstring) : bool :=
  match prefix, s with
  | [], _ => true
  | p :: prefix', c :: s' => (c =? p)%N && startsWith s' prefix'
  | _ :: _, [] => false
  end.

Definition endsWith (s suffix : jsstring) : bool :=
  startsWith (rev s) (rev suffix).

(** [s.slice(from, to)] for [0 <= from] and [0 <= to]. *)
Definition slice {A : Type} (from to : nat) (s : list A) : list A :=
  firstn (to - from) (skipn from s).

(** [s.split(sep)] for a separator of one code unit. *)
Fixpoint splitOn (sep : jschar) (s : jsstring) : list jsstring :=
  match s with
  | [] => [[]]
  | c :: rest =>
      if (c =? sep)%N then [] :: splitOn sep rest
      else match splitOn sep rest with
           | cur :: more => (c :: cur) :: more
           | [] => [[c]]
           end
  end.

(** [s.includes(c)] for one code unit. *)
Definition includes (c : jschar) (s : jsstring) : bool :=
  existsb (fun x => (x =? c)%N) s.

(** Scanning the leading white space of [s]: the position just after its
    last line feed, if it has one. *)
Fixpoint afterLastLeadingLf (s : jsstring) (pos : nat) (best : option nat)
    : option nat :=
  match s with
  | [] => best
  | c :: rest =>
      if isSpace c then
        afterLastLeadingLf rest (S pos)
                           (if (c =? 10)%N then Some (S pos) else best)
      else best
  end.

(** [text.replace(/^\s*\n+/, "")]: the greedy [\s*] backs off to the last
    line feed of the leading white space; what precedes it goes with it. *)
Definition stripLeadingBlankLines (text : jsstring) : jsstring :=
  match afterLastLeadingLf text 0 None with
  | Some n => skipn n text
  | None => text
  end.

(** [text.replace(/\n+\s*$/, "")]: the leftmost match starts at the first
    line feed of the trailing white space. *)
Definition stripTrailingBlankLines (text : jsstring) : jsstring :=
  rev (stripLeadingBlankLines (rev text)).

(** [s.replace(/```/g, "")] *)
Fixpoint removeFences (s : jsstring) : jsstring :=
  match s with
  | [] => []
  | c1 :: rest1 =>
      match rest1 with
      | c2 :: c3 :: rest3 =>
          if ((c1 =? 96) && (c2 =? 96) && (c3 =? 96))%N then removeFences rest3
          else c1 :: removeFences rest1
      | _ => c1 :: removeFences rest1
      end
  end.

(** *** [parseCsvLine] *)

Fixpoint parseCsvLoop (delimiter : jschar) (line : jsstring)
    (cells : list jsstring) (current : jsstring) (inQuotes : bool)
    : list jsstring :=
  match line with
  | [] => cells ++ [current]
  | char :: rest =>
      if (char =? 34)%N then
        match rest with
        | next :: rest' =>
            if inQuotes && (next =? 34)%N then
              parseCsvLoop delimiter rest' cells (current ++ [34%N]) inQuotes
            else parseCsvLoop delimiter rest cells current (negb inQuotes)
        | [] => parseCsvLoop delimiter rest cells current (negb inQuotes)
        end
      else if (char =? delimiter)%N && negb inQuotes then
        parseCsvLoop delimiter rest (cells ++ [current]) [] inQuotes
      else parseCsvLoop delimiter rest cells (current ++ [char]) inQuotes
  end.

Definition parseCsvLine (line : jsstring) (delimiter : jschar) : list jsstring :=
  parseCsvLoop delimiter line [] [] false.

(** *** [unwrapTextBlock] *)

Definition wrappers : list (jsstring * jsstring) :=
  [ (js "```", js "```");
    ([8220%N], [8221%N]);
    ([34%N], [34%N]);
    (js "'", js "'");
    (js "`", js "`");
    (js "(", js ")") ].

Fixpoint unwrapWith (ws : list (jsstring * jsstring)) (trimmed : jsstring)
    : option jsstring :=
  match ws with
  | [] => None
  | (start, end_) :: rest =>
      if startsWith trimmed start && endsWith trimmed end_
         && (length start + length end_ <? length trimmed)%nat
      then Some (trim (slice (length start) (length trimmed - length end_)
                             trimmed))
      else unwrapWith rest trimmed
  end.

Definition unwrapTextBlock (text : jsstring) : jsstring :=
  match unwrapWith wrappers (trim text) with
  | Some inner => inner
  | None => stripTrailingBlankLines (stripLeadingBlankLines text)
  end.

(** *** [maybeDigit] *)

Definition isDecDigit (c : jschar) : bool := ((48 <=? c) && (c <=? 57))%N.

Definition digitValue (c : jschar) : Z := (Z.of_N c - 48)%Z.

Fixpoint spanDigits (s : jsstring) : jsstring * jsstring :=
  match s with
  | [] => ([], [])
  | c :: rest =>
      if isDecDigit c then
        let '(ds, tail) := spanDigits rest in (c :: ds, tail)
      else ([], s)
  end.

Definition decimalValue (ds : jsstring) : Z :=
  fold_left (fun acc c => 10 * acc + digitValue c)%Z ds 0%Z.

(** ExponentPart, optional, up to the end of the string. *)
Definition parseExponent (s : jsstring) : option Z :=
  match s with
  | [] => Some 0%Z
  | c :: rest =>
      if ((c =? 101) || (c =? 69))%N then
        let '(negative, rest1) :=
          match rest with
          | sign :: r =>
              if (sign =? 43)%N then (false, r)
              else if (sign =? 45)%N then (true, r)
              else (false, rest)
          | [] => (false, rest)
          end in
        match spanDigits rest1 with
        | ((_ :: _) as ds, []) =>
            Some (if negative then - decimalValue ds else decimalValue ds)%Z
        | _ => None
        end
      else None
  end.

(** StrUnsignedDecimalLiteral other than Infinity: its value, as
    mantissa * 10^exponent. *)
Definition parseUnsignedDecimal (s : jsstring) : option (Z * Z) :=
  let '(intDigits, rest) := spanDigits s in
  match rest with
  | c :: rest1 =>
      if (c =? 46)%N then
        let '(fracDigits, rest2) := spanDigits rest1 in
        match intDigits, fracDigits with
        | [], [] => None
        | _, _ =>
            match parseExponent rest2 with
            | Some e =>
                Some (decimalValue (intDigits ++ fracDigits),
                      (e - Z.of_nat (length fracDigits))%Z)
            | None => None
            end
        end
      else
        match intDigits with
        | [] => None
        | _ =>
            match parseExponent rest with
            | Some e => Some (decimalValue intDigits, e)
            | None => None
            end
        end
  | [] =>
      match intDigits with
      | [] => None
      | _ => Some (decimalValue intDigits, 0%Z)
      end
  end.

(** The value of a digit in base [radix], if it is one. *)
Definition radixDigit (radix : Z) (c : jschar) : option Z :=
  let v : Z :=
    if isDecDigit c then (Z.of_N c - 48)%Z
    else if ((97 <=? c) && (c <=? 102))%N then (Z.of_N c - 87)%Z
    else if ((65 <=? c) && (c <=? 70))%N then (Z.of_N c - 55)%Z
    else 16%Z in
  if (v <? radix)%Z then Some v else None.

Fixpoint radixValue (radix : Z) (s : jsstring) (acc : Z) : option Z :=
  match s with
  | [] => Some acc
  | c :: rest =>
      match radixDigit radix c with
      | Some v => radixValue radix rest (radix * acc + v)%Z
      | None => None
      end
  end.

(** NonDecimalIntegerLiteral: 0x, 0o or 0b and at least one digit.  The
    outer [Some] says the string starts as one. *)
Definition parseNonDecimal (s : jsstring) : option (option Z) :=
  match s with
  | zero :: letter :: digits =>
      if (zero =? 48)%N then
        let radix :=
          if ((letter =? 120) || (letter =? 88))%N then Some 16%Z
          else if ((letter =? 111) || (letter =? 79))%N then Some 8%Z
          else if ((letter =? 98) || (letter =? 66))%N then Some 2%Z
          else None in
        match radix, digits with
        | Some r, _ :: _ => Some (radixValue r digits 0%Z)
        | Some _, [] => Some None
        | None, _ => None
        end
      else None
  | _ => None
  end.

(** Half the distance from the double [k] to its neighbours below and above,
    in units of 2^-54: the reals in the closed interval round to [k] (ties go
    to the even significand, which is [k]'s). *)
Definition halfBelow (k : Z) : Z :=
  (if k =? 1 then 1 else if k =? 2 then 2 else if k <=? 4 then 4
   else if k <=? 8 then 8 else 16)%Z.

Definition halfAbove (k : Z) : Z :=
  (if k =? 1 then 2 else if k <=? 3 then 4 else if k <=? 7 then 8 else 16)%Z.

(** Does [m * 10^e], [m >= 0], round to the double [k], [1 <= k <= 9]? *)
Definition roundsToDigit (m e k : Z) : bool :=
  let lo := (k * 2 ^ 54 - halfBelow k)%Z in
  let hi := (k * 2 ^ 54 + halfAbove k)%Z in
  if (0 <=? e)%Z then
    let v := (m * 10 ^ e * 2 ^ 54)%Z in (lo <=? v)%Z && (v <=? hi)%Z
  else
    let d := (10 ^ (- e))%Z in
    (lo * d <=? m * 2 ^ 54)%Z && (m * 2 ^ 54 <=? hi * d)%Z.

(** Does [m * 10^e] round to zero?  Exactly when it is at most 2^-1075. *)
Definition roundsToZero (m e : Z) : bool :=
  if (0 <=? e)%Z then (m =? 0)%Z
  else (m * 2 ^ 1075 <=? 10 ^ (- e))%Z.

Definition digitOfDecimal (m e : Z) : option Z :=
  if roundsToZero m e then Some 0%Z
  else find (roundsToDigit m e) [1; 2; 3; 4; 5; 6; 7; 8; 9]%Z.

(** [Number(value)] when it is an integer between 0 and 9 (the number -0,
    which the source lets through, is the integer 0 here).  StringToNumber
    trims white space, reads the empty string as 0, and rounds a decimal
    literal to the nearest double. *)
Definition numberAsDigit (value : jsstring) : option Z :=
  match trim value with
  | [] => Some 0%Z
  | (first :: body) as literal =>
      match parseNonDecimal literal with
      | Some (Some n) => if (n <=? 9)%Z then Some n else None
      | Some None => None
      | None =>
          let '(negative, unsigned) :=
            if (first =? 43)%N then (false, body)
            else if (first =? 45)%N then (true, body)
            else (false, literal) in
          match parseUnsignedDecimal unsigned with
          | Some (m, e) =>
              match digitOfDecimal m e with
              | Some k => if negative && negb (k =? 0)%Z then None else Some k
              | None => None
              end
          | None => None
          end
      end
  end.

Definition maybeDigit (value : jsstring) : option Z :=
  match value with
  | [] => None
  | _ => numberAsDigit value
  end.

(** *** [extractDigitsFromRow] *)

Fixpoint allSome {A : Type} (l : list (option A)) : option (list A) :=
  match l with
  | [] => Some []
  | Some x :: rest =>
      match allSome rest with
      | Some xs => Some (x :: xs)
      | None => None
      end
  | None :: _ => None
  end.

(** The loop from [start], [cells] being the row from that column on. *)
Fixpoint extractDigitsFrom (start : nat) (cells : list jsstring)
    : option (nat * list Z) :=
  match cells with
  | [] => None
  | _ :: rest =>
      if (length cells <? 10)%nat then None
      else
        match allSome (List.map maybeDigit (firstn 10 cells)) with
        | Some digits =>
            if isValidDigitArray digits then Some (start, digits)
            else extractDigitsFrom (S start) rest
        | None => extractDigitsFrom (S start) rest
        end
  end.

Definition extractDigitsFromRow (cells : list jsstring) : option (nat * list Z) :=
  extractDigitsFrom 0 cells.

(** *** [parseRows] *)

(** [row.some((cell) => cell.length > 0)] *)
Definition someCellFilled (row : list jsstring) : bool :=
  existsb (fun cell => negb (length cell =? 0)%nat) row.

(** One turn of the loop that reassembles ragged rows. *)
Definition mergeStep (targetColumns : nat)
    (st : list (list jsstring) * option (list jsstring))
    (row : list jsstring)
    : list (list jsstring) * option (list jsstring) :=
  let '(mergedRows, pending) := st in
  if (length row =? targetColumns)%nat then
    match pending with
    | Some p => ((mergedRows ++ [p]) ++ [row], None)
    | None => (mergedRows ++ [row], None)
    end
  else
    let '(mergedRows1, pending1) :=
      match pending with
      | None => (mergedRows, row)
      | Some p =>
          if (length p <? targetColumns)%nat && (length row <? targetColumns)%nat
          then (mergedRows, p ++ row)
          else (mergedRows ++ [p], row)
      end in
    if (targetColumns <=? length pending1)%nat then
      (mergedRows1 ++ [firstn targetColumns pending1],
       if (targetColumns <? length pending1)%nat
       then Some (skipn targetColumns pending1) else None)
    else (mergedRows1, Some pending1).

(** [Math.max(1, ...csvRows.map((row) => row.length))] *)
Definition targetColumnsOf (csvRows : list (list jsstring)) : nat :=
  fold_left Nat.max (List.map (@length jsstring) csvRows) 1%nat.

Definition mergeRaggedRows (csvRows : list (list jsstring))
    : list (list jsstring) :=
  let targetColumns := targetColumnsOf csvRows in
  let '(mergedRows, pending) :=
    fold_left (mergeStep targetColumns) csvRows ([], None) in
  let mergedRows' :=
    match pending with
    | Some p => if someCellFilled p then mergedRows ++ [p] else mergedRows
    | None => mergedRows
    end in
  filter someCellFilled mergedRows'.

Definition cleanText (text : jsstring) : jsstring :=
  removeFences
    (filter (fun c => negb (c =? 13)%N)
       (List.map (fun c => if (c =? 65292)%N then 44%N else c)
          (List.map (fun c => if (c =? 160)%N then 32%N else c)
             (unwrapTextBlock text)))).

Definition textLines (cleanedText : jsstring) : list jsstring :=
  filter (fun line => negb (length (trim line) =? 0)%nat)
         (List.map (dropWhileEnd isSpace) (splitOn 10%N cleanedText)).

Definition countLinesWith (c : jschar) (lines : list jsstring) : nat :=
  length (filter (includes c) lines).

Definition parseRows (text : jsstring) : list (list jsstring) :=
  let lines := textLines (cleanText text) in
  if existsb (includes 9%N) lines then
    filter someCellFilled
           (List.map (fun line => List.map normalizeCell (splitOn 9%N line)) lines)
  else
    let commaLines := countLinesWith 44%N lines in
    let semicolonLines := countLinesWith 59%N lines in
    if (commaLines =? 0)%nat && (semicolonLines =? 0)%nat then
      filter someCellFilled (List.map (fun line => [normalizeCell line]) lines)
    else
      let delimiter := if (semicolonLines <=? commaLines)%nat then 44%N else 59%N in
      let csvRows :=
        filter someCellFilled
               (List.map (fun line =>
                            List.map normalizeCell (parseCsvLine line delimiter))
                         lines) in
      mergeRaggedRows csvRows.

(** *** [editDistance] *)

(** Row [i] of the table from column 1 on: [prev] is row [i-1] from the
    column to the left, [left] is the entry to the left. *)
Fixpoint editRow (ai : jschar) (b : jsstring) (prev : list nat) (left : nat)
    : list nat :=
  match b, prev with
  | bj :: b', diag :: (up :: _) as prev' =>
      let cost := if (ai =? bj)%N then 0%nat else 1%nat in
      let v := Nat.min (Nat.min (up + 1) (left + 1)) (diag + cost) in
      v :: editRow ai b' prev' v
  | _, _ => []
  end.

(** The table, row after row; the state is the index of the last row
    and that row. *)
Definition editStep (b : jsstring) (st : nat * list nat) (ai : jschar)
    : nat * list nat :=
  let '(i, prev) := st in
  (S i, S i :: editRow ai b prev (S i)).

Definition editDistance (a b : jsstring) : nat :=
  last (snd (fold_left (editStep b) a (0%nat, seq 0 (S (length b))))) 0%nat.

(** *** [normalizeOwnerName] *)

(** [s.toLowerCase().replace(/[^a-z]/g, "")].  Besides the ASCII letters,
    the only code units whose lower case holds an ASCII letter are U+0130
    (i followed by a combining dot) and U+212A, the Kelvin sign (k). *)
Definition lowerLetter (c : jschar) : option jschar :=
  if ((97 <=? c) && (c <=? 122))%N then Some c
  else if ((65 <=? c) && (c <=? 90))%N then Some (c + 32)%N
  else if (c =? 304)%N then Some 105%N
  else if (c =? 8490)%N then Some 107%N
  else None.

Fixpoint lettersOnlyOf (s : jsstring) : jsstring :=
  match s with
  | [] => []
  | c :: rest =>
      match lowerLetter c with
      | Some l => l :: lettersOnlyOf rest
      | None => lettersOnlyOf rest
      end
  end.

Definition stevenVariants : list jsstring :=
  [js "steven"; js "steve"; js "stevie"; js "stevo"; js "seven"; js "tseven"].

Definition Steven : jsstring := js "Steven".

Definition normalizeOwnerName (value : jsstring) : jsstring :=
  let cleaned := normalizeCell value in
  match cleaned with
  | [] => cleaned
  | _ =>
      let lettersOnly := lettersOnlyOf cleaned in
      match lettersOnly with
      | [] => cleaned
      | _ =>
          if existsb (jseqb lettersOnly) stevenVariants then Steven
          else if (startsWith lettersOnly (js "stev")
                   || endsWith lettersOnly (js "seven"))
                  && (length lettersOnly <=? 8)%nat then Steven
          else if (5 <=? length lettersOnly)%nat
                  && (length lettersOnly <=? 8)%nat
                  && (editDistance lettersOnly (js "steven") <=? 2)%nat
          then Steven
          else cleaned
      end
  end.

(** *** [parseSquaresFromPastedText] *)

(** The search for the header row: its index, [startCol] and the digits. *)
Fixpoint findHeader (rowIndex : nat) (rows : list (list jsstring))
    : option (nat * nat * list Z) :=
  match rows with
  | [] => None
  | row :: rest =>
      match extractDigitsFromRow row with
      | Some (startCol, digits) => Some (rowIndex, startCol, digits)
      | None => findHeader (S rowIndex) rest
      end
  end.

(** The loop that collects owner rows, from the rows still to visit. *)
Fixpoint collectOwners (startCol : nat) (rows : list (list jsstring))
    (ownerRows : list (list jsstring)) (awayDigitsRaw : list (option Z))
    : list (list jsstring) * list (option Z) :=
  match rows with
  | [] => (ownerRows, awayDigitsRaw)
  | row :: rest =>
      if (length row <? startCol + 10)%nat then
        collectOwners startCol rest ownerRows awayDigitsRaw
      else
        let ownerSlice := slice startCol (startCol + 10) row in
        if forallb (fun cell => (length cell =? 0)%nat) ownerSlice then
          collectOwners startCol rest ownerRows awayDigitsRaw
        else
          let ownerRows' := ownerRows ++ [List.map normalizeOwnerName ownerSlice] in
          let awayDigitFromLeft :=
            if (0 <? startCol)%nat then maybeDigit (nth (startCol - 1) row [])
            else None in
          let awayDigitsRaw' := awayDigitsRaw ++ [awayDigitFromLeft] in
          if (length ownerRows' =? 10)%nat then (ownerRows', awayDigitsRaw')
          else collectOwners startCol rest ownerRows' awayDigitsRaw'
  end.

(** [awayDigitsRaw.map((digit, index) => (digit == null ? index : digit))] *)
Fixpoint fillAwayDigits (index : nat) (raw : list (option Z)) : list Z :=
  match raw with
  | [] => []
  | Some digit :: rest => digit :: fillAwayDigits (S index) rest
  | None :: rest => Z.of_nat index :: fillAwayDigits (S index) rest
  end.

(** A label candidate is used when it is not empty and not a digit. *)
Definition labelOr (fallback candidate : jsstring) : jsstring :=
  match candidate with
  | [] => fallback
  | _ => match maybeDigit candidate with
         | None => candidate
         | Some _ => fallback
         end
  end.

Definition parseSquaresFromPastedText (text : jsstring) : result SquaresBoard :=
  let rows := parseRows text in
  if (length rows <? 10)%nat then Err UnderfilledPastedInput
  else
    let header := findHeader 0 rows in
    let startCol := match header with Some (_, c, _) => c | None => 0%nat end in
    let homeDigits :=
      match header with Some (_, _, d) => d | None => defaultDigits end in
    let ownersStartRow :=
      match header with Some (i, _, _) => S i | None => 0%nat end in
    let '(ownerRows, awayDigitsRaw) :=
      collectOwners startCol (skipn ownersStartRow rows) [] [] in
    if negb (length ownerRows =? 10)%nat then Err IncompleteOwnershipGrid
    else
      let filled := fillAwayDigits 0 awayDigitsRaw in
      let awayDigits :=
        if isValidDigitArray filled then filled else defaultDigits in
      let homeTeam :=
        match header with
        | Some (S above, _, _) =>
            labelOr (js "Home Team") (nth startCol (nth above rows []) [])
        | _ => js "Home Team"
        end in
      let awayTeam :=
        if (ownersStartRow <? length rows)%nat && (1 <? startCol)%nat then
          labelOr (js "Away Team")
                  (nth (startCol - 2) (nth ownersStartRow rows []) [])
        else js "Away Team" in
      Ok {| homeTeam := homeTeam;
            awayTeam := awayTeam;
            homeDigits := homeDigits;
            awayDigits := awayDigits;
            owners := ownerRows |}.

(* ================================================================== *)
(** ** draftkings-squares.ts *)

(** What the error thrown by [assertFilledGrid] says:
    "<marketLabel>: missing <count> digit combos (<sample>)", the sample
    being the first eight missing combinations, each written "away-home". *)
Record MissingCombos : Type := {
  mc_marketLabel : jsstring;
  mc_count : nat;
  mc_sample : list (Z * Z)
}.

(** [assertFilledGrid]: [None] when it returns, the content of the error
    when it throws. *)
Definition assertFilledGrid {num : Type} `{JsNumber num}
    (grid : OddsGrid num) (marketLabel : jsstring) : option MissingCombos :=
  let missing :=
    flat_map (fun away =>
                flat_map (fun home =>
                            match finiteOdds grid away home with
                            | Some _ => []
                            | None => [(away, home)]
                            end)
                         DIGITS)
             DIGITS in
  if (0 <? length missing)%nat then
    Some {| mc_marketLabel := marketLabel;
            mc_count := length missing;
            mc_sample := slice 0 8 missing |}
  else None.

(** The regular expression [(\d)\s*-\s*(\d)] tried at the start of [s]. *)
Definition matchDigitsAt (s : jsstring) : option (jschar * jschar) :=
  match s with
  | d1 :: rest =>
      if isDecDigit d1 then
        match dropWhile isSpace rest with
        | dash :: rest2 =>
            if (dash =? 45)%N then
              match dropWhile isSpace rest2 with
              | d2 :: _ => if isDecDigit d2 then Some (d1, d2) else None
              | [] => None
              end
            else None
        | [] => None
        end
      else None
  | [] => None
  end.

(** [label.match(...)]: the leftmost position where it matches. *)
Fixpoint matchDigits (label : jsstring) : option (jschar * jschar) :=
  match label with
  | [] => None
  | _ :: rest =>
      match matchDigitsAt label with
      | Some groups => Some groups
      | None => matchDigits rest
      end
  end.

(** [parseDigitsFromSelectionLabel]: [Number] of a captured digit is its
    value. *)
Definition parseDigitsFromSelectionLabel (label : jsstring) : option (Z * Z) :=
  match matchDigits label with
  | None => None
  | Some (g1, g2) =>
      let homeDigit := digitValue g1 in
      let awayDigit := digitValue g2 in
      if ((homeDigit <? 0) || (9 <? homeDigit) || (awayDigit <? 0)
          || (9 <? awayDigit))%Z
      then None
      else Some (homeDigit, awayDigit)
  end.

(* ================================================================== *)
(** ** squares-dashboard.tsx *)

(** The lower case of a code unit when it is an ASCII letter or digit (see
    [lowerLetter] for the two letters that come from outside ASCII). *)
Definition lowerAlnum (c : jschar) : option jschar :=
  if isDecDigit c then Some c else lowerLetter c.

(** [normalizeTeam]: [value.toLowerCase().replace(/[^a-z0-9]/g, "")] *)
Fixpoint normalizeTeam (value : jsstring) : jsstring :=
  match value with
  | [] => []
  | c :: rest =>
      match lowerAlnum c with
      | Some l => l :: normalizeTeam rest
      | None => normalizeTeam rest
      end
  end.

(* ================================================================== *)
(** ** Binary64 values *)

Section Binary64Values.
Local Open Scope Z_scope.

(** The value of the positive double with mantissa [m] and exponent [e],
    counted in units of 2^-1074 (the smallest positive double). *)
Definition Zval (m : positive) (e : Z) : Z := Zpos m * 2 ^ (e + 1074).


(** Where the positive rational [N / D] lies relative to the integer [m]:
    on it, or strictly between [m] and [m + 1], below, at or above the
    middle. *)
Definition inbetween (N D m : Z) (l : location) : Prop :=
  match l with
  | loc_Exact => N = m * D
  | loc_Inexact Lt => m * D < N /\ 2 * N < (2 * m + 1) * D
  | loc_Inexact Eq => 2 * N = (2 * m + 1) * D
  | loc_Inexact Gt => (2 * m + 1) * D < 2 * N /\ N < (m + 1) * D
  end.


(** What [binary_round_aux] returns for the rounded mantissa [m1] at the
    exponent [E]. *)
Definition rounded (sx : bool) (m1 E : Z) : spec_float :=
  if m1 =? 0 then S754_zero sx
  else if m1 <? 2 ^ 53 then
    (if E <=? 971 then S754_finite sx (Z.to_pos m1) E else S754_infinity sx)
  else
    (if E + 1 <=? 971 then S754_finite sx (Z.to_pos (2 ^ 52)) (E + 1)
     else S754_infinity sx).




End Binary64Values.
(* ================================================================== *)
(** ** Vocabulary of the statements *)

(** The first error of a sequence of outcomes. *)
Fixpoint firstErr {A : Type} (l : list (result A)) : option error :=
  match l with
  | [] => None
  | Ok _ :: rest => firstErr rest
  | Err e :: _ => Some e
  end.

(** A digit pair is missing when either market has no finite entry for it. *)
Definition missingOdds {num : Type} `{JsNumber num}
    (odds : DraftKingsSquaresOdds num) (p : Z * Z) : bool :=
  match finiteOdds (finalResultOdds odds) (fst p) (snd p),
        finiteOdds (anyQuarterOdds odds) (fst p) (snd p) with
  | Some _, Some _ => false
  | _, _ => true
  end.

(** The digit pairs in the order the loop nest visits them. *)
Definition digitPairs : list (Z * Z) := list_prod DIGITS DIGITS.

Definition firstMissing {num : Type} `{JsNumber num}
    (odds : DraftKingsSquaresOdds num) : option (Z * Z) :=
  find (missingOdds odds) digitPairs.

(** Ten rows of ten columns. *)
Definition tenByTen {A : Type} (grid : list (list A)) : Prop :=
  length grid = 10%nat /\ Forall (fun row => length row = 10%nat) grid.

(** A quotation the conversion accepts (it is not zero). *)
Definition quotationOk {num : Type} `{JsNumber num} (entry : option num) : bool :=
  match entry with
  | Some v =>
      match americanToRawProbability v with
      | Ok _ => true
      | Err _ => false
      end
  | None => false
  end.

(** The digit pair passes the loop body: both markets hold a finite
    quotation for it and neither quotation is zero. *)
Definition pairPasses {num : Type} `{JsNumber num}
    (odds : DraftKingsSquaresOdds num) (p : Z * Z) : bool :=
  quotationOk (finiteOdds (finalResultOdds odds) (fst p) (snd p))
  && quotationOk (finiteOdds (anyQuarterOdds odds) (fst p) (snd p)).


(** Concrete inputs used by the examples. *)
Definition uniformOdds {num : Type} `{JsNumber num} (a : Z)
    : DraftKingsSquaresOdds num :=
  {| anyQuarterOdds := repeat (repeat (Some (ofZ a)) 10) 10;
     finalResultOdds := repeat (repeat (Some (ofZ a)) 10) 10 |}.

(** [uniformOdds] with the entries (0,0) and (0,1) of the final-result
    market left as NaN. *)
Definition oddsMissingTwo {num : Type} `{JsNumber num} (a : Z)
    : DraftKingsSquaresOdds num :=
  {| anyQuarterOdds := repeat (repeat (Some (ofZ a)) 10) 10;
     finalResultOdds :=
       (None :: None :: repeat (Some (ofZ a)) 8)
       :: repeat (repeat (Some (ofZ a)) 10) 9 |}.

(** [uniformOdds] with the final-result entry (0,0) quoted at zero and the
    entry (0,1) left as NaN. *)
Definition oddsZeroThenMissing {num : Type} `{JsNumber num} (a : Z)
    : DraftKingsSquaresOdds num :=
  {| anyQuarterOdds := repeat (repeat (Some (ofZ a)) 10) 10;
     finalResultOdds :=
       (Some (ofZ 0) :: None :: repeat (Some (ofZ a)) 8)
       :: repeat (repeat (Some (ofZ a)) 10) 9 |}.

(** [uniformOdds] with the entry (3,7) of the any-quarter market missing. *)
Definition oddsMissingOne {num : Type} `{JsNumber num} (a : Z)
    : DraftKingsSquaresOdds num :=
  {| anyQuarterOdds :=
       repeat (repeat (Some (ofZ a)) 10) 3
       ++ (repeat (Some (ofZ a)) 7 ++ None :: repeat (Some (ofZ a)) 2)
       :: repeat (repeat (Some (ofZ a)) 10) 6;
     finalResultOdds := repeat (repeat (Some (ofZ a)) 10) 10 |}.

Definition sampleBoard : SquaresBoard :=
  {| homeTeam := js "Home Team";
     awayTeam := js "Away Team";
     homeDigits := [3; 1; 4; 0; 5; 9; 2; 6; 8; 7]%Z;
     awayDigits := DIGITS;
     owners := repeat (repeat (js "Ann") 5 ++ repeat (js "Bob") 5) 10 |}.

(** A board whose home axis is empty and whose grid has no rows. *)
Definition emptyBoard : SquaresBoard :=
  {| homeTeam := js "Home Team";
     awayTeam := js "Away Team";
     homeDigits := [];
     awayDigits := DIGITS;
     owners := [] |}.

(** The digits of a window of cells that reads as a header: every cell a
    digit, the ten digits once each. *)
Definition headerWindow (window : list jsstring) : option (list Z) :=
  match allSome (List.map maybeDigit window) with
  | Some digits => if isValidDigitArray digits then Some digits else None
  | None => None
  end.

(** The window of ten cells that starts at column [start]. *)
Definition windowAt (start : nat) (cells : list jsstring) : list jsstring :=
  slice start (start + 10) cells.

(** A row counts for the ownership grid when it reaches column
    [startCol + 10] and its slice is not entirely empty. *)
Definition rowQualifies (startCol : nat) (row : list jsstring) : bool :=
  negb (length row <? startCol + 10)%nat
  && negb (forallb (fun cell => (length cell =? 0)%nat) (windowAt startCol row)).

Definition ownerSliceOf (startCol : nat) (row : list jsstring) : list jsstring :=
  List.map normalizeOwnerName (windowAt startCol row).

Definition awayDigitLeftOf (startCol : nat) (row : list jsstring) : option Z :=
  if (0 <? startCol)%nat then maybeDigit (nth (startCol - 1) row []) else None.

(** Where the header search leaves the scan: [startCol] and the rows below
    the header (all the rows when there is none). *)
Definition startColOf (rows : list (list jsstring)) : nat :=
  match findHeader 0 rows with Some (_, c, _) => c | None => 0%nat end.

Definition rowsBelowHeader (rows : list (list jsstring)) : list (list jsstring) :=
  match findHeader 0 rows with
  | Some (i, _, _) => skipn (S i) rows
  | None => rows
  end.

Definition qualifyingRows (rows : list (list jsstring)) : list (list jsstring) :=
  filter (rowQualifies (startColOf rows)) (rowsBelowHeader rows).

(** The home digits the header search settles on. *)
Definition headerDigitsOf (rows : list (list jsstring)) : list Z :=
  match findHeader 0 rows with Some (_, _, d) => d | None => defaultDigits end.

(** The away digits read to the left of the first ten qualifying rows, a
    row's own index standing in where there is no digit. *)
Definition awayDigitsRead (rows : list (list jsstring)) : list Z :=
  fillAwayDigits 0
    (firstn 10 (List.map (awayDigitLeftOf (startColOf rows))
                         (qualifyingRows rows))).

(** Text laid out as a grid: cells joined by [sep], rows by line feeds. *)
Fixpoint joinWith (sep : jschar) (parts : list jsstring) : jsstring :=
  match parts with
  | [] => []
  | [p] => p
  | p :: rest => p ++ sep :: joinWith sep rest
  end.

Definition gridText (sep : jschar) (rows : list (list jsstring)) : jsstring :=
  joinWith 10%N (List.map (joinWith sep) rows).

(** Scenario C of the specification: a label row, the header 0..9 and ten
    owner rows, tab separated. *)
Definition scenarioC : jsstring :=
  gridText 9%N
    (List.map (List.map js)
       (List.app
          [ ["A"; "B"; "C"; "D"; "E"; "F"; "G"; "H"; "I"; "J"];
            ["0"; "1"; "2"; "3"; "4"; "5"; "6"; "7"; "8"; "9"] ]
          (repeat ["Ann"; "Bob"; "Cy"; "Di"; "Ed"; "Flo"; "Gus"; "Hal"; "Ivy";
                   "Steve"] 10))%string).

(** What Scenario C parses to: the label above the first header digit names
    the home team, and "Steve" is spelled out. *)
Definition scenarioCBoard : SquaresBoard :=
  {| homeTeam := js "A";
     awayTeam := js "Away Team";
     homeDigits := DIGITS;
     awayDigits := DIGITS;
     owners :=
       repeat (List.map js ["Ann"; "Bob"; "Cy"; "Di"; "Ed"; "Flo"; "Gus";
                            "Hal"; "Ivy"; "Steven"]%string) 10 |}.

(** White space within [s] is collapsed: every white-space code unit is a
    space, and none follows another ([prevSpace] tells what precedes [s]). *)
Fixpoint collapsedFrom (prevSpace : bool) (s : jsstring) : bool :=
  match s with
  | [] => true
  | c :: rest =>
      if isSpace c then (c =? 32)%N && negb prevSpace && collapsedFrom true rest
      else collapsedFrom false rest
  end.

(** The usual CSV quoting of a field: wrapped in double quotes, every double
    quote inside doubled. *)
Definition quoteField (field : jsstring) : jsstring :=
  34%N :: flat_map (fun c => if (c =? 34)%N then [34%N; 34%N] else [c]) field
  ++ [34%N].

(** [cell.length > 0] *)
Definition cellFilled (cell : jsstring) : bool := negb (length cell =? 0)%nat.

(** The cells still held in the pending buffer. *)
Definition pendingCells (pending : option (list jsstring)) : list jsstring :=
  match pending with Some p => p | None => [] end.

(** The cells of [l] laid out [n] to a row; [cur] holds the cells of the
    row being filled.  The last row is shorter when the cells run out. *)
Fixpoint chunksFrom {A : Type} (n : nat) (cur l : list A) : list (list A) :=
  match l with
  | [] => match cur with [] => [] | _ => [cur] end
  | x :: xs =>
      if (length (cur ++ [x]) =? n)%nat then (cur ++ [x]) :: chunksFrom n [] xs
      else chunksFrom n (cur ++ [x]) xs
  end.

Definition chunks {A : Type} (n : nat) (l : list A) : list (list A) :=
  chunksFrom n [] l.

(** Split rows seen as runs of short rows, each run closed by a row of
    full width, and a last run that no full row closes. *)
Definition runsRows (blocks : list (list (list jsstring) * list jsstring))
    (lastRun : list (list jsstring)) : list (list jsstring) :=
  flat_map (fun b => fst b ++ [snd b]) blocks ++ lastRun.

Definition raggedSplit (target : nat) (csvRows : list (list jsstring))
    (blocks : list (list (list jsstring) * list jsstring))
    (lastRun : list (list jsstring)) : Prop :=
  csvRows = runsRows blocks lastRun /\
  Forall (fun b => Forall (fun row => (length row < target)%nat) (fst b) /\
                   length (snd b) = target) blocks /\
  Forall (fun row => (length row < target)%nat) lastRun.

(** The rows rebuilt from the runs: the cells of each run laid out [target]
    to a row, each full row kept as it is. *)
Definition reassembled (target : nat)
    (blocks : list (list (list jsstring) * list jsstring))
    (lastRun : list (list jsstring)) : list (list jsstring) :=
  flat_map (fun b => chunks target (concat (fst b)) ++ [snd b]) blocks
  ++ chunks target (concat lastRun).

(** How many rows have [width] cells. *)
Definition widthCount (width : nat) (rows : list (list jsstring)) : nat :=
  length (filter (fun row => (length row =? width)%nat) rows).

(** A digit pair has no finite entry in the grid. *)
Definition gridMissing {num : Type} `{JsNumber num}
    (grid : OddsGrid num) (p : Z * Z) : bool :=
  match finiteOdds grid (fst p) (snd p) with
  | Some _ => false
  | None => true
  end.

(** The Levenshtein recurrence, on the first characters of its arguments:
    the least number of insertions, deletions and substitutions. *)
Fixpoint levenshtein (a : jsstring) : jsstring -> nat :=
  match a with
  | [] => fun b => length b
  | x :: a' =>
      fix inner (b : jsstring) : nat :=
        match b with
        | [] => S (length a')
        | y :: b' =>
            Nat.min (Nat.min (levenshtein a' b + 1) (inner b' + 1))
                    (levenshtein a' b' + (if (x =? y)%N then 0 else 1))
        end
  end.

(** A code unit that the tokenizer of a tab-separated paste leaves alone
    inside a cell: no tab, line feed or carriage return, and none of the
    characters [parseRows] rewrites (backtick, no-break space, full-width
    comma). *)
Definition plainChar (c : jschar) : bool :=
  negb ((c =? 9) || (c =? 10) || (c =? 13) || (c =? 96) || (c =? 160)
        || (c =? 65292))%N.

(** The string ends with a character that is not white space. *)
Definition endsVisible (s : jsstring) : bool :=
  match rev s with
  | c :: _ => negb (isSpace c)
  | [] => false
  end.

(** A row as a spreadsheet pastes it: at least one cell, plain characters
    only, and a last cell that ends with a visible character. *)
Definition plainRow (row : list jsstring) : Prop :=
  row <> [] /\
  Forall (Forall (fun c => plainChar c = true)) row /\
  endsVisible (last row []) = true.

(** The cell that spells the digit [d]. *)
Definition digitCell (d : Z) : jsstring := [Z.to_N (d + 48)].

(** An owner row of a pasted board: ten cells of plain characters, the
    last one ending with a visible character. *)
Definition ownerRowOk (row : list jsstring) : Prop :=
  length row = 10%nat /\
  Forall (Forall (fun c => plainChar c = true)) row /\
  endsVisible (last row []) = true.

(** A board as a spreadsheet copies it: an empty top-left cell followed by
    the home digits, then one line per away digit with its ten owner cells;
    cells separated by tabs, lines by line feeds. *)
Definition boardText (hd : list Z) (rows : list (Z * list jsstring)) : jsstring :=
  gridText 9%N
    (([] :: List.map digitCell hd)
     :: List.map (fun r => digitCell (fst r) :: snd r) rows).

Section Ownership.
Context {num : Type} `{JsNumber num}.

(** The square of board cell [(row, col)], when somebody owns it: the
    trimmed owner, the two digits of the cell, and the entries of the two
    grids for that digit pair. *)
Definition squareAt (board : SquaresBoard) (ev prob : SquaresGrid num)
    (rc : nat * nat) : option (TopSquare num) :=
  let awayDigit := nth (fst rc) (awayDigits board) 0%Z in
  let homeDigit := nth (snd rc) (homeDigits board) 0%Z in
  match trim (nth (snd rc) (nth (fst rc) (owners board) []) []) with
  | [] => None
  | c :: name =>
      Some {| ts_owner := c :: name; ts_homeDigit := homeDigit;
              ts_awayDigit := awayDigit;
              ts_ev := gridAt ev awayDigit homeDigit;
              ts_probability := gridAt prob awayDigit homeDigit |}
  end.

(** The owned squares among [cells], in the order of [cells]. *)
Definition squaresAmong (board : SquaresBoard) (ev prob : SquaresGrid num)
    (cells : list (nat * nat)) : list (TopSquare num) :=
  flat_map (fun rc => match squareAt board ev prob rc with
                      | Some t => [t]
                      | None => []
                      end) cells.

(** The owned squares of the board, row by row. *)
Definition occupiedSquares (board : SquaresBoard) (ev prob : SquaresGrid num)
    : list (TopSquare num) :=
  squaresAmong board ev prob boardCells.

(** The squares of one owner. *)
Definition squaresOf (name : jsstring) (squares : list (TopSquare num))
    : list (TopSquare num) :=
  filter (fun t => jseqb (ts_owner t) name) squares.

(** What one more square does to an owner's running totals. *)
Definition bump (current : option (@OwnerTotal num)) (ev : num)
    : option (@OwnerTotal num) :=
  match current with
  | None =>
      Some {| ot_totalEv := nadd (ofZ 0) ev; ot_numSquares := 1;
              ot_bestSquareEv := ev |}
  | Some current =>
      Some {| ot_totalEv := nadd (ot_totalEv current) ev;
              ot_numSquares := ot_numSquares current + 1;
              ot_bestSquareEv := nmax (ot_bestSquareEv current) ev |}
  end.

(** The running totals after one more owned square. *)
Definition record (m : list (jsstring * @OwnerTotal num)) (t : TopSquare num)
    : list (jsstring * @OwnerTotal num) :=
  accumulate m (ts_owner t) (ts_ev t).

End Ownership.

(** The text [s] starts with a decimal digit [g1], then white space (maybe
    none), a hyphen, white space (maybe none) and a decimal digit [g2]. *)
Definition digitPairAt (s : jsstring) (g1 g2 : jschar) : Prop :=
  exists ws1 ws2 post,
    s = g1 :: ws1 ++ 45%N :: ws2 ++ g2 :: post /\
    isDecDigit g1 = true /\ isDecDigit g2 = true /\
    Forall (fun c => isSpace c = true) ws1 /\
    Forall (fun c => isSpace c = true) ws2.
(* ================================================================== *)
(** * Properties *)

Unset Implicit Arguments.

(** ** The error monad *)

Lemma Ok_inj {A : Type} (a b : A) : Ok a = Ok b -> a = b.
Proof. now injection 1. Qed.

Lemma bind_Ok_inv {A B : Type} (m : result A) (k : A -> result B) (b : B) :
  bind m k = Ok b -> exists a, m = Ok a /\ k a = Ok b.
Proof. destruct m as [a|e]; simpl; [eauto | discriminate]. Qed.

Lemma mapM_Ok_length {A B : Type} (f : A -> result B) (l : list A) (ys : list B) :
  mapM f l = Ok ys -> length ys = length l.
Proof.
  revert ys; induction l as [|x xs IH]; simpl; intros ys Hm.
  - now inversion Hm.
  - apply bind_Ok_inv in Hm as (y & _ & Hm).
    apply bind_Ok_inv in Hm as (ys' & Hxs & Hm).
    inversion Hm; subst; simpl; f_equal; auto.
Qed.

Lemma mapM_Ok_Forall {A B : Type} (P : B -> Prop) (f : A -> result B) (l : list A) :
  (forall x y, In x l -> f x = Ok y -> P y) ->
  forall ys, mapM f l = Ok ys -> Forall P ys.
Proof.
  induction l as [|x xs IH]; simpl; intros Hf ys Hm.
  - inversion Hm; constructor.
  - apply bind_Ok_inv in Hm as (y & Hy & Hm).
    apply bind_Ok_inv in Hm as (ys' & Hxs & Hm).
    inversion Hm; subst; constructor; eauto.
Qed.


Lemma firstErr_app {A : Type} (l1 l2 : list (result A)) :
  firstErr (l1 ++ l2) =
  match firstErr l1 with Some e => Some e | None => firstErr l2 end.
Proof.
  induction l1 as [|[a|e] l1 IH]; simpl; auto.
Qed.

Lemma mapM_firstErr {A B : Type} (f : A -> result B) (l : list A) :
  match firstErr (List.map f l) with
  | Some e => mapM f l = Err e
  | None => exists ys, mapM f l = Ok ys
  end.
Proof.
  induction l as [|x xs IH]; simpl; [eauto|].
  destruct (f x) as [y|e]; simpl; [|reflexivity].
  destruct (firstErr (List.map f xs)) as [e|].
  - now rewrite IH.
  - destruct IH as [ys ->]; simpl; eauto.
Qed.

(** A loop nest fails with the first failure in row-major order. *)
Lemma mapM_nested_firstErr {A B C : Type} (f : A -> B -> result C)
    (l1 : list A) (l2 : list B) :
  match firstErr (List.map (fun p => f (fst p) (snd p)) (list_prod l1 l2)) with
  | Some e => mapM (fun a => mapM (f a) l2) l1 = Err e
  | None => exists g, mapM (fun a => mapM (f a) l2) l1 = Ok g
  end.
Proof.
  induction l1 as [|a l1 IH]; simpl; [eauto|].
  rewrite map_app, firstErr_app, map_map; simpl.
  pose proof (mapM_firstErr (f a) l2) as Hrow.
  destruct (firstErr (List.map (f a) l2)) as [e|].
  - now rewrite Hrow.
  - destruct Hrow as [row ->]; simpl.
    destruct (firstErr _) as [e|].
    + now rewrite IH.
    + destruct IH as [g ->]; simpl; eauto.
Qed.

(** ** Digit axes *)

Lemma isValidDigitArray_spec (digits : list Z) :
  isValidDigitArray digits = true <->
  length digits = 10%nat /\ NoDup digits /\
  Forall (fun n => (0 <= n <= 9)%Z) digits.
Proof.
  unfold isValidDigitArray.
  destruct (length digits =? 10)%nat eqn:Hlen; simpl.
  - apply Nat.eqb_eq in Hlen.
    rewrite andb_true_iff, Nat.eqb_eq, forallb_forall, Forall_forall.
    split.
    + intros [Hnd Hall]; repeat split; auto.
      * apply (NoDup_incl_NoDup (l := nodup Z.eq_dec digits)).
        -- apply NoDup_nodup.
        -- rewrite Hlen, Hnd. apply PeanoNat.Nat.le_refl.
        -- intros x; apply nodup_In.
      * apply Hall in H. lia.
      * apply Hall in H. lia.
    + intros (_ & Hnd & Hall); split.
      * rewrite nodup_fixed_point by assumption. assumption.
      * intros x Hx; apply Hall in Hx. lia.
  - apply Nat.eqb_neq in Hlen. split; [discriminate | intros (? & _); contradiction].
Qed.

(** ** Implied probability *)

(** Whatever the arithmetic, the three branches are selected by the two
    comparisons with zero. *)
Lemma americanToRawProbability_cases {num : Type} `{JsNumber num} (american : num) :
  americanToRawProbability american =
  if nltb (ofZ 0) american then
    Ok (ndiv (ofZ 100) (nadd american (ofZ 100)))
  else if nltb american (ofZ 0) then
    Ok (ndiv (nabs american) (nadd (nabs american) (ofZ 100)))
  else Err InvalidOdds.
Proof. reflexivity. Qed.

(* ================================================================== *)
(** * Binary64 arithmetic

    What the primitive operations compute is fixed by their specification
    ([SpecFloat]): the exact result, rounded to the nearest double, ties to
    even.  The lemmas below read the two facts the implied probability
    depends on off that specification. *)

Section Binary64.
Local Open Scope Z_scope.

Lemma digits2_pos_bounds (m : positive) :
  2 ^ (Zpos (digits2_pos m) - 1) <= Zpos m < 2 ^ Zpos (digits2_pos m).
Proof.
  induction m as [m IH | m IH |]; cbn [digits2_pos].
  - rewrite Pos2Z.inj_succ, (Pos2Z.inj_xI m).
    replace (Z.succ (Zpos (digits2_pos m)) - 1) with (Z.succ (Zpos (digits2_pos m) - 1)) by lia.
    rewrite !Z.pow_succ_r by lia.
    destruct IH as [Hlo Hhi]. revert Hlo Hhi.
    generalize (2 ^ (Zpos (digits2_pos m) - 1)) (2 ^ Zpos (digits2_pos m)).
    intros; lia.
  - rewrite Pos2Z.inj_succ, (Pos2Z.inj_xO m).
    replace (Z.succ (Zpos (digits2_pos m)) - 1) with (Z.succ (Zpos (digits2_pos m) - 1)) by lia.
    rewrite !Z.pow_succ_r by lia.
    destruct IH as [Hlo Hhi]. revert Hlo Hhi.
    generalize (2 ^ (Zpos (digits2_pos m) - 1)) (2 ^ Zpos (digits2_pos m)).
    intros; lia.
  - cbn. lia.
Qed.

Lemma Zdigits2_bounds (m : Z) :
  0 < m -> 2 ^ (Zdigits2 m - 1) <= m < 2 ^ Zdigits2 m.
Proof.
  destruct m as [|p|p]; try lia. intros _. apply digits2_pos_bounds.
Qed.

Lemma Zdigits2_pos (m : Z) : 0 < m -> 0 < Zdigits2 m.
Proof. destruct m; cbn; lia. Qed.

Lemma Zdigits2_unique (m d : Z) :
  2 ^ (d - 1) <= m < 2 ^ d -> 0 < d -> Zdigits2 m = d.
Proof.
  intros [Hlo Hhi] Hd.
  assert (Hm : 0 < m) by (pose proof (Z.pow_pos_nonneg 2 (d - 1)); lia).
  pose proof (Zdigits2_bounds m Hm) as [Hlo' Hhi'].
  pose proof (Zdigits2_pos m Hm) as Hpos.
  destruct (Z.lt_trichotomy (Zdigits2 m) d) as [Hlt | [Heq | Hgt]]; [|exact Heq|].
  - assert (2 ^ Zdigits2 m <= 2 ^ (d - 1)) by (apply Z.pow_le_mono_r; lia). lia.
  - assert (2 ^ d <= 2 ^ (Zdigits2 m - 1)) by (apply Z.pow_le_mono_r; lia). lia.
Qed.

Lemma Zdigits2_le (m d : Z) : 0 <= d -> 0 <= m < 2 ^ d -> Zdigits2 m <= d.
Proof.
  intros Hd [Hlo Hhi]. destruct (Z.eq_dec m 0) as [->|Hne]; [cbn; lia|].
  pose proof (Zdigits2_bounds m ltac:(lia)) as [Hlo' _].
  destruct (Z.le_gt_cases (Zdigits2 m) d) as [Hle|Hgt]; [exact Hle|].
  assert (2 ^ d <= 2 ^ (Zdigits2 m - 1)) by (apply Z.pow_le_mono_r; lia). lia.
Qed.

Lemma Zdigits2_ge (m d : Z) : 0 < d -> 2 ^ (d - 1) <= m -> d <= Zdigits2 m.
Proof.
  intros Hd Hlo.
  assert (Hm : 0 < m) by (pose proof (Z.pow_pos_nonneg 2 (d - 1)); lia).
  pose proof (Zdigits2_bounds m Hm) as [_ Hhi].
  destruct (Z.le_gt_cases d (Zdigits2 m)) as [Hle|Hgt]; [exact Hle|].
  assert (2 ^ Zdigits2 m <= 2 ^ (d - 1)) by (apply Z.pow_le_mono_r; [lia|]; pose proof (Zdigits2_pos m Hm); lia). lia.
Qed.

(** Digits of a product by a power of two and of a quotient. *)
Lemma Zdigits2_mul_pow2 (m k : Z) :
  0 < m -> 0 <= k -> Zdigits2 (m * 2 ^ k) = Zdigits2 m + k.
Proof.
  intros Hm Hk. pose proof (Zdigits2_bounds m Hm) as [Hlo Hhi].
  pose proof (Zdigits2_pos m Hm) as Hd.
  pose proof (Z.pow_pos_nonneg 2 k ltac:(lia) Hk) as Hp.
  apply Zdigits2_unique; [|lia].
  replace (Zdigits2 m + k - 1) with (Zdigits2 m - 1 + k) by lia.
  rewrite !Z.pow_add_r by lia. nia.
Qed.

Lemma Zdigits2_div_pow2 (m k : Z) :
  0 < m -> 0 <= k -> k < Zdigits2 m -> Zdigits2 (m / 2 ^ k) = Zdigits2 m - k.
Proof.
  intros Hm Hk Hlt. pose proof (Zdigits2_bounds m Hm) as [Hlo Hhi].
  pose proof (Z.pow_pos_nonneg 2 k ltac:(lia) Hk) as Hp.
  apply Zdigits2_unique; [|lia]. split.
  - apply Z.div_le_lower_bound; [lia|].
    rewrite Z.mul_comm, <- Z.pow_add_r by lia.
    now replace (Zdigits2 m - k - 1 + k) with (Zdigits2 m - 1) by lia.
  - apply Z.div_lt_upper_bound; [lia|].
    rewrite <- Z.pow_add_r by lia.
    now replace (k + (Zdigits2 m - k)) with (Zdigits2 m) by lia.
Qed.

Lemma Zdiv_pow2_small (m k : Z) :
  0 <= m -> 0 <= k -> Zdigits2 m <= k -> m / 2 ^ k = 0.
Proof.
  intros Hm Hk Hle. apply Z.div_small. split; [lia|].
  destruct (Z.eq_dec m 0) as [->|Hne]; [apply Z.pow_pos_nonneg; lia|].
  pose proof (Zdigits2_bounds m ltac:(lia)) as [_ Hhi].
  assert (2 ^ Zdigits2 m <= 2 ^ k) by (apply Z.pow_le_mono_r; lia). lia.
Qed.

Lemma bounded_spec (m : positive) (e : Z) :
  bounded prec emax m e = true <->
  -1074 <= e <= 971 /\ Zpos (digits2_pos m) <= 53 /\
  (Zpos (digits2_pos m) = 53 \/ e = -1074).
Proof.
  unfold bounded, canonical_mantissa, fexp, SpecFloat.emin.
  change prec with 53. change emax with 1024.
  rewrite andb_true_iff, Z.eqb_eq, Z.leb_le. lia.
Qed.

Lemma pow2_pos (k : Z) : 0 <= k -> 0 < 2 ^ k.
Proof. intros Hk. apply Z.pow_pos_nonneg; lia. Qed.

Lemma pow2_split (a b : Z) : 0 <= a <= b -> 2 ^ b = 2 ^ (b - a) * 2 ^ a.
Proof.
  intros Hab. rewrite <- Z.pow_add_r by lia. f_equal. lia.
Qed.


(** A bounded mantissa is below 2^53, and reaches 2^52 above the lowest
    exponent. *)
Lemma bounded_mantissa (m : positive) (e : Z) :
  bounded prec emax m e = true ->
  Zpos m < 2 ^ 53 /\ (-1074 < e -> 2 ^ 52 <= Zpos m).
Proof.
  intros Hb. apply bounded_spec in Hb as (He & Hd & Hc).
  pose proof (digits2_pos_bounds m) as [Hlo Hhi]. split.
  - assert (2 ^ Zpos (digits2_pos m) <= 2 ^ 53) by (apply Z.pow_le_mono_r; lia).
    lia.
  - intros Hgt. destruct Hc as [Hc | Hc]; [|lia].
    rewrite Hc in Hlo. exact Hlo.
Qed.

Lemma Zval_lt_exponent (m1 m2 : positive) (e1 e2 : Z) :
  bounded prec emax m1 e1 = true -> bounded prec emax m2 e2 = true ->
  e1 < e2 -> Zval m1 e1 < Zval m2 e2.
Proof.
  intros H1 H2 Hlt.
  pose proof (proj1 (bounded_spec _ _) H1) as (He1 & _).
  apply bounded_mantissa in H1 as [Hm1 _].
  apply bounded_mantissa in H2 as [_ Hm2]. specialize (Hm2 ltac:(lia)).
  unfold Zval.
  rewrite (pow2_split (e1 + 1074) (e2 + 1074)) by lia.
  pose proof (pow2_pos (e1 + 1074) ltac:(lia)) as Hp.
  assert (Hq : 2 <= 2 ^ (e2 + 1074 - (e1 + 1074))).
  { change 2 with (2 ^ 1) at 1. apply Z.pow_le_mono_r; lia. }
  revert Hp Hq. generalize (2 ^ (e1 + 1074)) (2 ^ (e2 + 1074 - (e1 + 1074))).
  intros a b Hp Hq. change (2 ^ 53) with 9007199254740992 in Hm1.
  change (2 ^ 52) with 4503599627370496 in Hm2.
  assert (Zpos m1 * a < 9007199254740992 * a)
    by (apply Z.mul_lt_mono_pos_r; lia).
  assert (9007199254740992 * a <= 4503599627370496 * (b * a)) by nia.
  assert (4503599627370496 * (b * a) <= Zpos m2 * (b * a))
    by (apply Z.mul_le_mono_nonneg_r; nia).
  lia.
Qed.

Lemma SFcompare_finite_pos (m1 m2 : positive) (e1 e2 : Z) :
  bounded prec emax m1 e1 = true -> bounded prec emax m2 e2 = true ->
  SFcompare (S754_finite false m1 e1) (S754_finite false m2 e2)
  = Some (Zval m1 e1 ?= Zval m2 e2).
Proof.
  intros H1 H2. cbn [SFcompare]. f_equal.
  destruct (Z.compare_spec e1 e2) as [Heq | Hlt | Hgt].
  - subst e2. unfold Zval.
    pose proof (proj1 (bounded_spec _ _) H1) as (He1 & _).
    pose proof (pow2_pos (e1 + 1074) ltac:(lia)) as Hp.
    rewrite Pos.compare_cont_spec. cbn [Pos.switch_Eq].
    change (m1 ?= m2)%positive with (Zpos m1 ?= Zpos m2).
    destruct (Z.compare_spec (Zpos m1) (Zpos m2)) as [Heq | Hlt | Hgt];
      symmetry.
    + apply Z.compare_eq_iff. now rewrite Heq.
    + apply Z.compare_lt_iff. now apply Z.mul_lt_mono_pos_r.
    + apply Z.compare_gt_iff. now apply Z.mul_lt_mono_pos_r.
  - symmetry. apply Z.compare_lt_iff. now apply Zval_lt_exponent.
  - symmetry. apply Z.compare_gt_iff. now apply Zval_lt_exponent.
Qed.

Lemma inbetween_floor (N D m : Z) (l : location) :
  0 < D -> inbetween N D m l -> m * D <= N < (m + 1) * D.
Proof.
  intros HD. pose proof (Z.mul_add_distr_r m 1 D) as E1.
  assert (E2 : (2 * m + 1) * D = 2 * (m * D) + D) by ring.
  rewrite Z.mul_1_l in E1.
  destruct l as [|[| |]]; cbn [inbetween]; rewrite ?E1, ?E2; lia.
Qed.

Lemma loc_of_record_of_loc (m : Z) (l : location) :
  loc_of_shr_record (shr_record_of_loc m l) = l /\
  shr_m (shr_record_of_loc m l) = m.
Proof. destruct l as [|[| |]]; split; reflexivity. Qed.

Lemma shr_1_inbetween (N D : Z) (mrs : shr_record) :
  0 < D -> 0 <= shr_m mrs ->
  inbetween N D (shr_m mrs) (loc_of_shr_record mrs) ->
  inbetween N (2 * D) (shr_m (shr_1 mrs)) (loc_of_shr_record (shr_1 mrs)) /\
  shr_m (shr_1 mrs) = shr_m mrs / 2.
Proof.
  destruct mrs as [m r s]. cbn [shr_m]. intros HD Hm.
  destruct m as [|[p|p|]|]; try lia;
    destruct r, s; cbn [shr_1 orb loc_of_shr_record inbetween shr_m];
    rewrite ?(Pos2Z.inj_xI p), ?(Pos2Z.inj_xO p);
    intros Hin; (split; [nia | Z.div_mod_to_equations; lia]).
Qed.

Lemma iter_pos_iter {A : Type} (f : A -> A) (n : positive) :
  forall x, iter_pos f n x = Pos.iter f x n.
Proof.
  induction n as [n IH | n IH |]; intros x; cbn [iter_pos Pos.iter].
  - now rewrite !IH, <- !Pos.iter_swap.
  - now rewrite !IH.
  - reflexivity.
Qed.

(** Shifting right by [n] bits keeps track of where the value lies. *)
Lemma iter_shr_1_inbetween (N D : Z) (n : positive) :
  forall mrs,
  0 < D -> 0 <= shr_m mrs ->
  inbetween N D (shr_m mrs) (loc_of_shr_record mrs) ->
  let mrs' := iter_pos shr_1 n mrs in
  inbetween N (2 ^ Zpos n * D) (shr_m mrs') (loc_of_shr_record mrs') /\
  shr_m mrs' = shr_m mrs / 2 ^ Zpos n.
Proof.
  intros mrs HD Hm Hin. cbv zeta. rewrite iter_pos_iter.
  induction n as [|n IH] using Pos.peano_ind.
  - cbn [Pos.iter]. change (2 ^ 1) with 2.
    now apply shr_1_inbetween.
  - rewrite Pos.iter_succ, Pos2Z.inj_succ, Z.pow_succ_r by lia.
    destruct IH as [IHin IHm].
    assert (Hpow : 0 < 2 ^ Zpos n) by (apply pow2_pos; lia).
    assert (Hm' : 0 <= shr_m (Pos.iter shr_1 mrs n))
      by (rewrite IHm; apply Z.div_pos; lia).
    destruct (shr_1_inbetween N (2 ^ Zpos n * D) _ ltac:(nia) Hm' IHin)
      as [Hin' Hm''].
    split.
    + now replace (2 * 2 ^ Zpos n * D) with (2 * (2 ^ Zpos n * D)) by ring.
    + rewrite Hm'', IHm, Z.div_div by lia. f_equal. ring.
Qed.

Lemma shr_inbetween (N D m e k : Z) (l : location) :
  0 < D -> 0 <= m -> 0 <= k -> inbetween N D m l ->
  exists mrs,
    shr (shr_record_of_loc m l) e k = (mrs, e + k) /\
    shr_m mrs = m / 2 ^ k /\
    inbetween N (2 ^ k * D) (m / 2 ^ k) (loc_of_shr_record mrs).
Proof.
  intros HD Hm Hk Hin.
  destruct (loc_of_record_of_loc m l) as [Hl Hrm].
  destruct k as [|k|k]; [| |lia].
  - exists (shr_record_of_loc m l). cbn [shr]. rewrite Z.add_0_r, Z.div_1_r.
    change (2 ^ 0) with 1. rewrite Z.mul_1_l, Hl. auto.
  - destruct (iter_shr_1_inbetween N D k (shr_record_of_loc m l) HD)
      as [Hin' Hm']; [rewrite Hrm; lia | now rewrite Hl, Hrm |].
    rewrite Hrm in Hm'.
    exists (iter_pos shr_1 k (shr_record_of_loc m l)). cbn [shr].
    rewrite Hm' in Hin'. auto.
Qed.

Lemma fexp_eq (e : Z) : fexp prec emax e = Z.max (e - 53) (-1074).
Proof. reflexivity. Qed.

Lemma shr_fexp_spec (N D m e : Z) (l : location) :
  0 < D -> 0 <= m -> inbetween N D m l ->
  let E := Z.max e (fexp prec emax (Zdigits2 m + e)) in
  exists mrs,
    shr_fexp prec emax m e l = (mrs, E) /\
    shr_m mrs = m / 2 ^ (E - e) /\
    inbetween N (2 ^ (E - e) * D) (m / 2 ^ (E - e)) (loc_of_shr_record mrs).
Proof.
  intros HD Hm Hin E. unfold shr_fexp.
  set (k := fexp prec emax (Zdigits2 m + e) - e).
  assert (HE : E - e = Z.max 0 k) by (unfold E, k; lia).
  destruct (shr_inbetween N D m e (Z.max 0 k) l HD Hm ltac:(lia) Hin)
    as (mrs & Hshr & Hmrs & Hin').
  exists mrs. rewrite HE. repeat split; [|exact Hmrs | exact Hin'].
  replace E with (e + Z.max 0 k) by lia. rewrite <- Hshr.
  destruct k as [|k|k]; cbn [shr Z.max Z.compare]; reflexivity.
Qed.

Lemma rne_bounds (N D m : Z) (l : location) :
  inbetween N D m l ->
  m <= round_nearest_even m l <= m + 1.
Proof.
  destruct l as [|[| |]]; cbn [round_nearest_even]; try lia.
  destruct (Z.even m); lia.
Qed.

(** A value on the grid is left where it is. *)
Lemma rne_exact (N D m G : Z) (l : location) :
  0 < D -> inbetween N D m l -> N = G * D ->
  m = G /\ round_nearest_even m l = G.
Proof.
  intros HD Hin HN. pose proof (inbetween_floor N D m l HD Hin) as Hfloor.
  assert (Hm : m = G) by nia. subst G.
  split; [reflexivity|].
  destruct l as [|[| |]]; cbn [round_nearest_even inbetween] in *; try reflexivity; nia.
Qed.

(** Below the middle the value is rounded down, above it up. *)
Lemma rne_down (N D m : Z) (l : location) :
  0 < D -> inbetween N D m l -> 2 * N < (2 * m + 1) * D ->
  round_nearest_even m l = m.
Proof.
  intros HD Hin Hlt.
  destruct l as [|[| |]]; cbn [round_nearest_even inbetween] in *; try reflexivity; nia.
Qed.


(** An upper bound on the grid is respected. *)
Lemma rne_le_grid (N D m G : Z) (l : location) :
  0 < D -> inbetween N D m l -> N <= G * D ->
  round_nearest_even m l <= G.
Proof.
  intros HD Hin HN.
  destruct (Z.eq_dec N (G * D)) as [Heq | Hne].
  - destruct (rne_exact N D m G l HD Hin Heq) as [_ ->]. lia.
  - pose proof (inbetween_floor N D m l HD Hin) as Hfloor.
    pose proof (rne_bounds N D m l Hin) as Hb.
    assert (m < G) by nia. lia.
Qed.

Lemma rne_ge_grid (N D m G : Z) (l : location) :
  0 < D -> inbetween N D m l -> G * D <= N ->
  G <= round_nearest_even m l.
Proof.
  intros HD Hin HN.
  pose proof (inbetween_floor N D m l HD Hin) as Hfloor.
  pose proof (rne_bounds N D m l Hin) as Hb.
  assert (G <= m) by nia. lia.
Qed.

(** The two steps of [binary_round_aux]: shift to the exponent of the
    format, round to nearest even, and renormalise when the mantissa
    reaches 2^53. *)
Lemma binary_round_aux_spec (sx : bool) (N D mx ex : Z) (lx : location) :
  0 < D -> 0 <= mx -> inbetween N D mx lx ->
  let E := Z.max ex (fexp prec emax (Zdigits2 mx + ex)) in
  exists l',
    inbetween N (2 ^ (E - ex) * D) (mx / 2 ^ (E - ex)) l' /\
    let m1 := round_nearest_even (mx / 2 ^ (E - ex)) l' in
    0 <= m1 <= 2 ^ 53 /\
    binary_round_aux prec emax sx mx ex lx =
      if m1 =? 0 then S754_zero sx
      else if m1 <? 2 ^ 53 then
        (if E <=? 971 then S754_finite sx (Z.to_pos m1) E
         else S754_infinity sx)
      else
        (if E + 1 <=? 971 then S754_finite sx (Z.to_pos (2 ^ 52)) (E + 1)
         else S754_infinity sx).
Proof.
  intros HD Hmx Hin E. unfold binary_round_aux.
  destruct (shr_fexp_spec N D mx ex lx HD Hmx Hin) as (mrs' & -> & Hm' & Hin').
  fold E in Hm', Hin' |- *.
  exists (loc_of_shr_record mrs'). split; [exact Hin'|]. cbv zeta.
  rewrite Hm'. set (m' := mx / 2 ^ (E - ex)) in *.
  set (m1 := round_nearest_even m' (loc_of_shr_record mrs')).
  assert (HEge : -1074 <= E /\ Zdigits2 mx + ex - 53 <= E /\ ex <= E)
    by (unfold E; rewrite fexp_eq; lia).
  assert (Hpow : 0 < 2 ^ (E - ex)) by (apply pow2_pos; lia).
  assert (Hm'0 : 0 <= m') by (apply Z.div_pos; lia).
  assert (Hm'lt : m' < 2 ^ 53).
  { destruct (Z.eq_dec mx 0) as [->|Hne]; [unfold m'; now rewrite Z.div_0_l by lia|].
    destruct (Z.le_gt_cases (Zdigits2 mx) (E - ex)) as [Hle | Hgt].
    - unfold m'. rewrite Zdiv_pow2_small by lia. reflexivity.
    - assert (Hd : Zdigits2 m' = Zdigits2 mx - (E - ex))
        by (apply Zdigits2_div_pow2; lia).
      destruct (Z.eq_dec m' 0) as [->|Hne']; [reflexivity|].
      pose proof (Zdigits2_bounds m' ltac:(lia)) as [_ Hhi].
      assert (2 ^ Zdigits2 m' <= 2 ^ 53) by (apply Z.pow_le_mono_r; lia).
      lia. }
  pose proof (rne_bounds _ _ _ _ Hin') as Hb. fold m1 in Hb.
  split; [lia|].
  assert (Hexact : inbetween m1 1 m1 loc_Exact) by (cbn; lia).
  destruct (shr_fexp_spec m1 1 m1 E loc_Exact ltac:(lia) ltac:(lia) Hexact)
    as (mrs'' & -> & Hm'' & _).
  rewrite Hm''. clear Hm'' mrs''.
  destruct (Z.eqb_spec m1 0) as [Hz | Hnz].
  - rewrite Hz. cbn [Zdigits2]. rewrite fexp_eq.
    replace (Z.max E (Z.max (0 + E - 53) (-1074)) - E) with 0 by lia.
    reflexivity.
  - destruct (Z.ltb_spec m1 (2 ^ 53)) as [Hlt | Hge].
    + assert (Hd : Zdigits2 m1 <= 53) by (apply Zdigits2_le; lia).
      rewrite fexp_eq.
      replace (Z.max E (Z.max (Zdigits2 m1 + E - 53) (-1074))) with E by lia.
      rewrite Z.sub_diag, Z.div_1_r.
      destruct m1 as [|p|p]; try lia. reflexivity.
    + assert (Hm1 : m1 = 2 ^ 53) by lia. rewrite Hm1.
      change (Zdigits2 (2 ^ 53)) with 54. rewrite fexp_eq.
      replace (Z.max E (Z.max (54 + E - 53) (-1074))) with (E + 1) by lia.
      replace (E + 1 - E) with 1 by lia. reflexivity.
Qed.

Lemma binary_round_aux_rounded (sx : bool) (N D mx ex : Z) (lx : location) :
  0 < D -> 0 <= mx -> inbetween N D mx lx ->
  let E := Z.max ex (fexp prec emax (Zdigits2 mx + ex)) in
  exists l',
    inbetween N (2 ^ (E - ex) * D) (mx / 2 ^ (E - ex)) l' /\
    let m1 := round_nearest_even (mx / 2 ^ (E - ex)) l' in
    0 <= m1 <= 2 ^ 53 /\
    binary_round_aux prec emax sx mx ex lx = rounded sx m1 E.
Proof. exact (binary_round_aux_spec sx N D mx ex lx). Qed.

(** The value of a rounded result, in units of 2^-1074. *)
Lemma rounded_value (m1 E : Z) :
  0 < m1 <= 2 ^ 53 -> -1074 <= E ->
  rounded false m1 E = S754_infinity false \/
  exists m e, rounded false m1 E = S754_finite false m e /\
              Zval m e = m1 * 2 ^ (E + 1074).
Proof.
  intros Hm HE. unfold rounded.
  destruct (Z.eqb_spec m1 0) as [|_]; [lia|].
  destruct (Z.ltb_spec m1 (2 ^ 53)) as [Hlt | Hge].
  - destruct (E <=? 971); [right | now left].
    exists (Z.to_pos m1), E. split; [reflexivity|].
    unfold Zval. now rewrite Z2Pos.id by lia.
  - destruct (E + 1 <=? 971); [right | now left].
    exists (Z.to_pos (2 ^ 52)), (E + 1). split; [reflexivity|].
    unfold Zval. assert (Hm1 : m1 = 2 ^ 53) by lia. rewrite Hm1.
    replace (E + 1 + 1074) with (Z.succ (E + 1074)) by lia.
    rewrite Z.pow_succ_r by lia. change (Zpos (Z.to_pos (2 ^ 52))) with (2 ^ 52).
    change (2 ^ 53) with (2 ^ 52 * 2). ring.
Qed.

Lemma rounded_finite (m1 E : Z) :
  0 < m1 <= 2 ^ 53 -> E < 971 \/ (E = 971 /\ m1 < 2 ^ 53) ->
  exists m e, rounded false m1 E = S754_finite false m e.
Proof.
  intros Hm HE. unfold rounded.
  destruct (Z.eqb_spec m1 0) as [|_]; [lia|].
  destruct (Z.ltb_spec m1 (2 ^ 53)) as [Hlt | Hge].
  - destruct (Z.leb_spec E 971); [eauto | lia].
  - destruct (Z.leb_spec (E + 1) 971); [eauto | lia].
Qed.

Lemma inbetween_scale (N D m c : Z) (l : location) :
  0 < c -> inbetween N D m l -> inbetween (N * c) (D * c) m l.
Proof.
  intros Hc. destruct l as [|[| |]]; cbn [inbetween]; nia.
Qed.

(** ** Alignment *)

Lemma iter_xO (m d : positive) :
  Zpos (Pos.iter xO m d) = Zpos m * 2 ^ Zpos d.
Proof.
  induction d as [|d IH] using Pos.peano_ind.
  - cbn [Pos.iter]. rewrite (Pos2Z.inj_xO m). change (2 ^ 1) with 2. ring.
  - rewrite Pos.iter_succ, (Pos2Z.inj_xO (Pos.iter xO m d)), IH.
    rewrite Pos2Z.inj_succ, Z.pow_succ_r by lia. ring.
Qed.

Lemma shl_align_spec (mx : positive) (ex ex' : Z) :
  snd (shl_align mx ex ex') = Z.min ex ex' /\
  Zpos (fst (shl_align mx ex ex'))
  = Zpos mx * 2 ^ (ex - Z.min ex ex').
Proof.
  unfold shl_align. destruct (ex' - ex) as [|d|d] eqn:Hd; cbn [fst snd].
  - replace (Z.min ex ex') with ex by lia. rewrite Z.sub_diag. cbn. lia.
  - replace (Z.min ex ex') with ex by lia. rewrite Z.sub_diag. cbn. lia.
  - replace (Z.min ex ex') with ex' by lia. split; [reflexivity|].
    rewrite iter_xO. f_equal. f_equal. lia.
Qed.

(** ** Rounding an integer multiple of a power of two *)

Lemma binary_round_units (sx : bool) (mx : positive) (ex : Z) :
  -1074 <= ex ->
  let V := Zpos mx * 2 ^ (ex + 1074) in
  let E := fexp prec emax (Zdigits2 V - 1074) in
  let U := 2 ^ (E + 1074) in
  exists l',
    inbetween V U (V / U) l' /\
    let m1 := round_nearest_even (V / U) l' in
    0 <= m1 <= 2 ^ 53 /\
    binary_round prec emax sx mx ex = rounded sx m1 E.
Proof.
  intros Hex V E U. unfold binary_round.
  set (F := fexp prec emax (Zpos (digits2_pos mx) + ex)).
  destruct (shl_align_spec mx ex F) as [Hez Hmz].
  destruct (shl_align mx ex F) as [mz ez]. cbn [fst snd] in Hez, Hmz.
  assert (HF : -1074 <= F) by (unfold F; rewrite fexp_eq; lia).
  assert (Hp1 : 0 < 2 ^ (ex + 1074)) by (apply pow2_pos; lia).
  assert (HdV : Zdigits2 V = Zpos (digits2_pos mx) + (ex + 1074)).
  { unfold V. rewrite Zdigits2_mul_pow2 by lia. reflexivity. }
  assert (HE : E = F) by (unfold E, F; rewrite HdV; f_equal; lia).
  assert (Hdmz : Zdigits2 (Zpos mz) + ez = Zpos (digits2_pos mx) + ex).
  { rewrite Hmz, Zdigits2_mul_pow2 by lia. cbn [Zdigits2]. lia. }
  assert (Hexact : inbetween (Zpos mz) 1 (Zpos mz) loc_Exact) by (cbn; lia).
  destruct (binary_round_aux_rounded sx (Zpos mz) 1 (Zpos mz) ez loc_Exact
              ltac:(lia) ltac:(lia) Hexact) as (l' & Hin & Hm1 & ->).
  rewrite Hdmz in Hin, Hm1 |- *. fold F in Hin, Hm1 |- *.
  replace (Z.max ez F) with F in * by lia.
  assert (HVmz : V = Zpos mz * 2 ^ (ez + 1074)).
  { unfold V. rewrite Hmz, <- Z.mul_assoc, <- Z.pow_add_r by lia.
    f_equal. f_equal. lia. }
  assert (HU : U = 2 ^ (F - ez) * 2 ^ (ez + 1074)).
  { unfold U. rewrite HE, <- Z.pow_add_r by lia. f_equal. lia. }
  assert (Hp2 : 0 < 2 ^ (ez + 1074)) by (apply pow2_pos; lia).
  assert (Hp3 : 0 < 2 ^ (F - ez)) by (apply pow2_pos; lia).
  assert (Hdiv : V / U = Zpos mz / 2 ^ (F - ez)).
  { rewrite HVmz, HU. apply Z.div_mul_cancel_r; lia. }
  exists l'. rewrite Hdiv, HE. split.
  - rewrite HVmz, HU.
    replace (2 ^ (F - ez) * 2 ^ (ez + 1074))
      with (2 ^ (F - ez) * 1 * 2 ^ (ez + 1074)) by ring.
    now apply inbetween_scale.
  - cbv zeta. split; [exact Hm1 | reflexivity].
Qed.

(** ** Addition of two positive numbers *)

Lemma SFadd_pos_spec (mx my : positive) (ex ey : Z) :
  -1074 <= ex -> -1074 <= ey ->
  let V := Zval mx ex + Zval my ey in
  let E := fexp prec emax (Zdigits2 V - 1074) in
  let U := 2 ^ (E + 1074) in
  exists l',
    inbetween V U (V / U) l' /\
    let m1 := round_nearest_even (V / U) l' in
    0 <= m1 <= 2 ^ 53 /\
    SFadd prec emax (S754_finite false mx ex) (S754_finite false my ey)
    = rounded false m1 E.
Proof.
  intros Hex Hey V E U. cbn [SFadd cond_Zopp].
  set (ez := Z.min ex ey).
  destruct (shl_align_spec mx ex ez) as [_ Hax].
  destruct (shl_align_spec my ey ez) as [_ Hay].
  replace (Z.min ex ez) with ez in Hax by lia.
  replace (Z.min ey ez) with ez in Hay by lia.
  set (ax := fst (shl_align mx ex ez)) in *.
  set (ay := fst (shl_align my ey ez)) in *.
  change (Zpos ax + Zpos ay) with (Zpos (ax + ay)).
  cbn [binary_normalize].
  assert (Hsum : Zpos (ax + ay) * 2 ^ (ez + 1074) = Zval mx ex + Zval my ey).
  { rewrite Pos2Z.inj_add, Hax, Hay. unfold Zval.
    rewrite Z.mul_add_distr_r, <- !Z.mul_assoc, <- !Z.pow_add_r by lia.
    f_equal; f_equal; f_equal; lia. }
  pose proof (binary_round_units false (ax + ay) ez ltac:(lia)) as Hround.
  cbv zeta in Hround. rewrite Hsum in Hround. exact Hround.
Qed.

(** ** Division of two positive numbers *)

Lemma new_location_eq (D r : Z) :
  new_location D r =
  if r =? 0 then loc_Exact
  else loc_Inexact (if Z.even D then 2 * r ?= D
                    else match 2 * r + 1 ?= D with Gt => Gt | _ => Lt end).
Proof.
  unfold new_location, new_location_even, new_location_odd.
  destruct (Z.even D); cbv beta; destruct (r =? 0); reflexivity.
Qed.

Lemma new_location_spec (N D q r : Z) :
  0 < D -> 0 <= r < D -> N = q * D + r ->
  inbetween N D q (new_location D r).
Proof.
  intros HD Hr ->. rewrite new_location_eq.
  destruct (Z.eqb_spec r 0) as [-> | Hr0]; [cbn [inbetween]; lia|].
  destruct (Z.even D) eqn:Heven.
  - destruct (Z.compare_spec (2 * r) D); cbn [inbetween]; nia.
  - assert (Hodd : Z.odd D = true) by (now rewrite <- Z.negb_even, Heven).
    apply Z.odd_spec in Hodd as [j Hj].
    destruct (Z.compare_spec (2 * r + 1) D); cbn [inbetween]; nia.
Qed.

Lemma SFdiv_core_binary_spec (m1 m2 : positive) (e1 e2 : Z) :
  let e' := Z.min (fexp prec emax (Zpos (digits2_pos m1) + e1
                                   - (Zpos (digits2_pos m2) + e2)))
                  (e1 - e2) in
  let N := Zpos m1 * 2 ^ (e1 - e2 - e') in
  exists l,
    SFdiv_core_binary prec emax (Zpos m1) e1 (Zpos m2) e2
    = (N / Zpos m2, e', l) /\
    inbetween N (Zpos m2) (N / Zpos m2) l.
Proof.
  intros e' N. unfold SFdiv_core_binary. cbn [Zdigits2]. fold e'.
  set (s := e1 - e2 - e').
  assert (Hs : 0 <= s) by (unfold s, e'; lia).
  assert (Hm' : match s with
                | Z0 => Zpos m1
                | Zpos _ => Z.shiftl (Zpos m1) s
                | Zneg _ => 0
                end = N).
  { unfold N. fold s. destruct s as [|p|p]; [cbn; lia | | lia].
    now rewrite Z.shiftl_mul_pow2 by lia. }
  rewrite Hm'.
  pose proof (Z.div_eucl_eq N (Zpos m2) ltac:(lia)) as Heq.
  pose proof (Z.mod_pos_bound N (Zpos m2) ltac:(lia)) as Hmod.
  unfold Z.modulo, Z.div in *.
  destruct (Z.div_eucl N (Zpos m2)) as [q r].
  exists (new_location (Zpos m2) r). split; [reflexivity|].
  apply new_location_spec; lia.
Qed.

Lemma SFdiv_pos_spec (mx my : positive) (ex ey : Z) :
  let e' := Z.min (fexp prec emax (Zpos (digits2_pos mx) + ex
                                   - (Zpos (digits2_pos my) + ey)))
                  (ex - ey) in
  let N := Zpos mx * 2 ^ (ex - ey - e') in
  let q := N / Zpos my in
  let E := Z.max e' (fexp prec emax (Zdigits2 q + e')) in
  exists l',
    inbetween N (2 ^ (E - e') * Zpos my) (q / 2 ^ (E - e')) l' /\
    let m1 := round_nearest_even (q / 2 ^ (E - e')) l' in
    0 <= m1 <= 2 ^ 53 /\
    SFdiv prec emax (S754_finite false mx ex) (S754_finite false my ey)
    = rounded false m1 E.
Proof.
  intros e' N q E. cbn [SFdiv xorb].
  destruct (SFdiv_core_binary_spec mx my ex ey) as (l & -> & Hin).
  fold e' N q in Hin |- *.
  assert (HN : 0 <= N)
    by (unfold N; apply Z.mul_nonneg_nonneg; [lia | apply Z.pow_nonneg; lia]).
  assert (Hq : 0 <= q) by (apply Z.div_pos; lia).
  exact (binary_round_aux_rounded false N (Zpos my) q e' l ltac:(lia) Hq Hin).
Qed.

(** ** Comparing scaled integers *)

Lemma pow2_le (a b : Z) : 0 <= a <= b -> 2 ^ a <= 2 ^ b.
Proof. intros H. apply Z.pow_le_mono_r; lia. Qed.

Lemma pow2_lt (a b : Z) : 0 <= a < b -> 2 ^ a < 2 ^ b.
Proof. intros H. apply Z.pow_lt_mono_r; lia. Qed.

Lemma pow2_lt_inv (a b : Z) : 0 <= a -> 0 <= b -> 2 ^ a < 2 ^ b -> a < b.
Proof.
  intros Ha Hb Hlt. destruct (Z.lt_ge_cases a b) as [H | H]; [exact H|].
  pose proof (pow2_le b a ltac:(lia)). lia.
Qed.

(** [x * 2^p <= y * 2^q] depends on [p - q] only. *)
Lemma scale_le (x y p q r s : Z) :
  0 <= p -> 0 <= q -> 0 <= r -> 0 <= s -> p + s = q + r ->
  x * 2 ^ p <= y * 2 ^ q -> x * 2 ^ r <= y * 2 ^ s.
Proof.
  intros Hp Hq Hr Hs Heq Hle.
  destruct (Z.le_ge_cases p r) as [Hpr | Hpr].
  - (* r = p + c, s = q + c *)
    replace r with (p + (r - p)) by lia. replace s with (q + (r - p)) by lia.
    rewrite !Z.pow_add_r by lia.
    pose proof (pow2_pos (r - p) ltac:(lia)).
    rewrite !Z.mul_assoc. apply Z.mul_le_mono_nonneg_r; lia.
  - (* p = r + c, q = s + c *)
    replace p with (r + (p - r)) in Hle by lia.
    replace q with (s + (p - r)) in Hle by lia.
    rewrite !Z.pow_add_r, !Z.mul_assoc in Hle by lia.
    pose proof (pow2_pos (p - r) ltac:(lia)).
    apply Z.mul_le_mono_pos_r in Hle; lia.
Qed.

Lemma scale_lt (x y p q r s : Z) :
  0 <= p -> 0 <= q -> 0 <= r -> 0 <= s -> p + s = q + r ->
  x * 2 ^ p < y * 2 ^ q -> x * 2 ^ r < y * 2 ^ s.
Proof.
  intros Hp Hq Hr Hs Heq Hlt.
  destruct (Z.le_ge_cases p r) as [Hpr | Hpr].
  - replace r with (p + (r - p)) by lia. replace s with (q + (r - p)) by lia.
    rewrite !Z.pow_add_r by lia.
    pose proof (pow2_pos (r - p) ltac:(lia)).
    rewrite !Z.mul_assoc. apply Z.mul_lt_mono_pos_r; lia.
  - replace p with (r + (p - r)) in Hlt by lia.
    replace q with (s + (p - r)) in Hlt by lia.
    rewrite !Z.pow_add_r, !Z.mul_assoc in Hlt by lia.
    pose proof (pow2_pos (p - r) ltac:(lia)).
    apply Z.mul_lt_mono_pos_r in Hlt; lia.
Qed.

(** ** Facts about bounded numbers *)

Lemma bounded_digits (m : positive) (e : Z) :
  bounded prec emax m e = true ->
  -1074 <= e <= 971 /\ 1 <= Zpos (digits2_pos m) <= 53 /\
  2 ^ (Zpos (digits2_pos m) - 1) <= Zpos m < 2 ^ Zpos (digits2_pos m).
Proof.
  intros Hb. apply bounded_spec in Hb as (He & Hd & _).
  pose proof (digits2_pos_bounds m). lia.
Qed.

(** Two different numbers are at least one part in 2^53 apart. *)
Lemma bounded_spacing (mt md : positive) (et ed : Z) :
  bounded prec emax mt et = true -> bounded prec emax md ed = true ->
  Zval mt et < Zval md ed ->
  Zval mt et * 2 ^ 53 <= Zval md ed * (2 ^ 53 - 1).
Proof.
  intros Ht Hd Hlt.
  pose proof (proj1 (bounded_spec _ _) Ht) as (Het & _).
  pose proof (proj1 (bounded_spec _ _) Hd) as (Hed & _).
  pose proof (bounded_mantissa _ _ Ht) as [Hmt _].
  pose proof (bounded_mantissa _ _ Hd) as [Hmd Hmd'].
  destruct (Z.lt_trichotomy et ed) as [Hlt' | [Heq | Hgt]].
  - specialize (Hmd' ltac:(lia)). unfold Zval.
    rewrite (pow2_split (et + 1074) (ed + 1074)) by lia.
    pose proof (pow2_pos (et + 1074) ltac:(lia)) as Hp.
    assert (Hq : 2 <= 2 ^ (ed + 1074 - (et + 1074))).
    { change 2 with (2 ^ 1) at 1. apply pow2_le; lia. }
    revert Hp Hq.
    generalize (2 ^ (et + 1074)) (2 ^ (ed + 1074 - (et + 1074))).
    intros a b Hp Hq.
    change (2 ^ 53) with 9007199254740992 in *.
    change (2 ^ 52) with 4503599627370496 in *.
    assert (Zpos mt * a * 9007199254740992
            <= 9007199254740991 * a * 9007199254740992) by nia.
    assert (4503599627370496 * (2 * a) * (9007199254740992 - 1)
            <= Zpos md * (b * a) * (9007199254740992 - 1)).
    { apply Z.mul_le_mono_nonneg_r; [lia|].
      apply Z.mul_le_mono_nonneg; nia. }
    nia.
  - subst ed. unfold Zval in *.
    pose proof (pow2_pos (et + 1074) ltac:(lia)) as Hp.
    revert Hlt Hp. generalize (2 ^ (et + 1074)). intros a Hlt Hp.
    change (2 ^ 53) with 9007199254740992 in *.
    assert (Zpos mt < Zpos md) by nia.
    nia.
  - pose proof (Zval_lt_exponent md mt ed et Hd Ht Hgt). lia.
Qed.

(** ** The quotient of a number by a larger one *)

(** For [1 <= t < d] the computed quotient [t / d] is a positive number
    below 1: two different doubles differ by more than one part in 2^53,
    so the exact quotient is at most [1 - 2^-53], which is a double. *)
Lemma SFdiv_below_one (mt md : positive) (et ed : Z) :
  bounded prec emax mt et = true -> bounded prec emax md ed = true ->
  2 ^ 1074 <= Zval mt et -> Zval mt et < Zval md ed ->
  exists m e,
    SFdiv prec emax (S754_finite false mt et) (S754_finite false md ed)
    = S754_finite false m e /\
    Zval m e < 2 ^ 1074.
Proof.
  intros Ht Hd Hone Hlt.
  pose proof (bounded_spacing mt md et ed Ht Hd Hlt) as Hspace.
  pose proof (bounded_digits _ _ Ht) as (Het & Hdt & Hmt).
  pose proof (bounded_digits _ _ Hd) as (Hed & Hdd & Hmd).
  set (dt := Zpos (digits2_pos mt)) in *.
  set (dd := Zpos (digits2_pos md)) in *.
  (* the exponent of t *)
  assert (Het' : -52 <= et).
  { unfold Zval in Hone.
    assert (H1 : Zpos mt * 2 ^ (et + 1074) < 2 ^ 53 * 2 ^ (et + 1074)).
    { apply Z.mul_lt_mono_pos_r; [apply pow2_pos; lia|].
      assert (2 ^ dt <= 2 ^ 53) by (apply pow2_le; lia). lia. }
    rewrite <- Z.pow_add_r in H1 by lia.
    assert (H2 : 2 ^ 1074 < 2 ^ (53 + (et + 1074))) by lia.
    apply pow2_lt_inv in H2; lia. }
  (* magnitudes *)
  assert (Hmag : dt + et <= dd + ed).
  { unfold Zval in Hlt.
    assert (H1 : 2 ^ (dt - 1) * 2 ^ (et + 1074) <= Zpos mt * 2 ^ (et + 1074))
      by (apply Z.mul_le_mono_nonneg_r; [apply Z.pow_nonneg|]; lia).
    assert (H2 : Zpos md * 2 ^ (ed + 1074) < 2 ^ dd * 2 ^ (ed + 1074))
      by (apply Z.mul_lt_mono_pos_r; [apply pow2_pos|]; lia).
    rewrite <- Z.pow_add_r in H1, H2 by lia.
    assert (H3 : 2 ^ (dt - 1 + (et + 1074)) < 2 ^ (dd + (ed + 1074))) by lia.
    apply pow2_lt_inv in H3; lia. }
  destruct (SFdiv_pos_spec mt md et ed) as (l' & Hin & Hm1 & Hdiv).
  fold dt dd in Hin, Hm1, Hdiv.
  rewrite !fexp_eq in Hin, Hm1, Hdiv.
  set (e' := Z.min (Z.max (dt + et - (dd + ed) - 53) (-1074)) (et - ed)) in *.
  assert (He' : -1074 <= e' <= -53 /\ e' <= et - ed) by (unfold e'; lia).
  set (a := et - ed - e') in *.
  assert (Ha : 0 <= a) by (unfold a; lia).
  set (N := Zpos mt * 2 ^ a) in *.
  set (q := N / Zpos md) in *.
  assert (HN : 0 < N) by (unfold N; pose proof (pow2_pos a Ha); nia).
  (* the quotient is at least 1 and below 2^(-e') *)
  assert (HNge : Zpos md <= N).
  { unfold N. destruct (Z.le_gt_cases (-1074) (dt + et - (dd + ed) - 53))
      as [Hnorm | Hsub].
    - assert (Ha' : a = 53 - dt + dd) by (unfold a, e'; lia).
      assert (H1 : 2 ^ (dt - 1) * 2 ^ a <= Zpos mt * 2 ^ a)
        by (apply Z.mul_le_mono_nonneg_r; [apply Z.pow_nonneg|]; lia).
      rewrite <- Z.pow_add_r in H1 by lia.
      assert (H2 : 2 ^ dd <= 2 ^ (dt - 1 + a)) by (apply pow2_le; lia).
      lia.
    - assert (Ha' : a = et - ed + 1074) by (unfold a, e'; lia).
      assert (H1 : 1 * 2 ^ (1074 - ed) <= Zpos mt * 2 ^ a).
      { apply (scale_le 1 (Zpos mt) 1074 (et + 1074)); unfold Zval in Hone;
          lia. }
      assert (H2 : 2 ^ 53 <= 2 ^ (1074 - ed)) by (apply pow2_le; lia).
      assert (H3 : 2 ^ dd <= 2 ^ 53) by (apply pow2_le; lia).
      lia. }
  assert (Hq1 : 1 <= q) by (apply Z.div_le_lower_bound; lia).
  assert (HNlt : N < Zpos md * 2 ^ (- e')).
  { unfold N. apply (scale_lt (Zpos mt) (Zpos md) (et + 1074) (ed + 1074));
      unfold Zval in Hlt; unfold a; lia. }
  assert (Hqlt : q < 2 ^ (- e')).
  { apply Z.div_lt_upper_bound; lia. }
  assert (Hdq : Zdigits2 q <= - e') by (apply Zdigits2_le; lia).
  pose proof (Zdigits2_pos q ltac:(lia)) as Hdq0.
  pose proof (Zdigits2_bounds q ltac:(lia)) as [Hqlo _].
  set (E := Z.max e' (Z.max (Zdigits2 q + e' - 53) (-1074))) in *.
  assert (HE : e' <= E <= -53) by (unfold E; lia).
  set (k := E - e') in *.
  assert (Hk : 0 <= k) by (unfold k; lia).
  pose proof (pow2_pos k Hk) as Hpk.
  cbv zeta in Hm1, Hdiv.
  set (m1 := round_nearest_even (q / 2 ^ k) l') in *.
  (* at least one unit survives the rounding *)
  assert (Hge : 1 <= m1).
  { apply (rne_ge_grid N (2 ^ k * Zpos md) (q / 2 ^ k) 1 l'); [nia | exact Hin|].
    rewrite Z.mul_1_l.
    destruct (Z.eq_dec k 0) as [Hk0 | Hk0].
    - rewrite Hk0. change (2 ^ 0) with 1. lia.
    - assert (Hk' : k = Zdigits2 q - 53) by (unfold k, E in *; lia).
      assert (H1 : 2 ^ k <= 2 ^ (Zdigits2 q - 1)) by (apply pow2_le; lia).
      assert (H2 : q * Zpos md <= N)
        by (unfold q; rewrite Z.mul_comm; apply Z.mul_div_le; lia).
      nia. }
  (* and the result does not exceed 1 - 2^-53 *)
  set (G := (2 ^ 53 - 1) * 2 ^ (- 53 - E)).
  assert (Hle : m1 <= G).
  { apply (rne_le_grid N (2 ^ k * Zpos md) (q / 2 ^ k) G l'); [nia | exact Hin|].
    unfold G.
    replace ((2 ^ 53 - 1) * 2 ^ (-53 - E) * (2 ^ k * Zpos md))
      with ((2 ^ 53 - 1) * Zpos md * (2 ^ (-53 - E) * 2 ^ k)) by ring.
    rewrite <- Z.pow_add_r by lia.
    replace (-53 - E + k) with (-53 - e') by (unfold k; lia).
    unfold N.
    apply (scale_le (Zpos mt) ((2 ^ 53 - 1) * Zpos md)
                    (et + 1074 + 53) (ed + 1074)); try (unfold a; lia).
    rewrite Z.pow_add_r by lia. unfold Zval in Hspace.
    rewrite Z.mul_assoc. lia. }
  assert (HG : G * 2 ^ (E + 1074) < 2 ^ 1074).
  { unfold G. rewrite <- Z.mul_assoc, <- Z.pow_add_r by lia.
    replace (-53 - E + (E + 1074)) with 1021 by lia.
    change (2 ^ 1074) with (2 ^ 53 * 2 ^ 1021).
    pose proof (pow2_pos 1021 ltac:(lia)). nia. }
  destruct (rounded_finite m1 E ltac:(lia) ltac:(lia)) as (m & e & Hfin).
  destruct (rounded_value m1 E ltac:(lia) ltac:(lia)) as [Hinf | Hval].
  { rewrite Hfin in Hinf. discriminate. }
  destruct Hval as (m' & e'' & Hfin' & Hval).
  rewrite Hfin in Hfin'. inversion Hfin'; subst m' e''.
  exists m, e. split; [now rewrite Hdiv|].
  rewrite Hval.
  pose proof (pow2_pos (E + 1074) ltac:(lia)).
  assert (m1 * 2 ^ (E + 1074) <= G * 2 ^ (E + 1074))
    by (apply Z.mul_le_mono_nonneg_r; lia).
  lia.
Qed.

Lemma rne_near_low (N D m : Z) (l : location) :
  0 < D -> inbetween N D m l ->
  2 * N <= (2 * round_nearest_even m l + 1) * D.
Proof.
  intros HD Hin.
  destruct l as [|[| |]]; cbn [round_nearest_even inbetween] in *; try nia.
  destruct (Z.even m); nia.
Qed.

Lemma pow2_W (k : Z) : 0 <= k -> 2 ^ (1074 + k) = 2 ^ k * 2 ^ 1074.
Proof. intros Hk. rewrite Z.pow_add_r by lia. ring. Qed.

(** ** Adding 100 to a number that is at least 1 *)

(** The sum is finite and larger than 100; it is also larger than the
    number itself as long as that is below 2^60, where the doubles are at
    most 128 apart.  (From 2^60 on they are 256 apart and the sum rounds
    back to the number.) *)
Lemma SFadd_100 (mt : positive) (et : Z) :
  bounded prec emax mt et = true ->
  2 ^ 1074 <= Zval mt et ->
  exists m e,
    SFadd prec emax (S754_finite false mt et)
                    (S754_finite false 7036874417766400 (-46))
    = S754_finite false m e /\
    100 * 2 ^ 1074 < Zval m e /\
    (Zval mt et < 2 ^ 60 * 2 ^ 1074 -> Zval mt et < Zval m e).
Proof.
  intros Ht Hone.
  pose proof (bounded_digits _ _ Ht) as (Het & Hdt & Hmt).
  destruct (SFadd_pos_spec mt 7036874417766400 et (-46) ltac:(lia) ltac:(lia))
    as (l' & Hin & Hm1 & Hadd).
  rewrite fexp_eq in Hin, Hm1, Hadd. cbv zeta in Hm1, Hadd.
  assert (HC : Zval 7036874417766400 (-46) = 100 * 2 ^ 1074).
  { unfold Zval. change (-46 + 1074) with 1028.
    change (2 ^ 1074) with (2 ^ 46 * 2 ^ 1028).
    change (Zpos 7036874417766400) with (100 * 2 ^ 46). ring. }
  rewrite HC in Hin, Hm1, Hadd.
  set (T := Zval mt et) in *.
  set (W := 2 ^ 1074) in *.
  assert (HW : 0 < W) by (apply pow2_pos; lia).
  set (V := T + 100 * W) in *.
  (* the size of the sum *)
  assert (HVlo : 2 ^ 1080 <= V).
  { replace 1080 with (1074 + 6) by lia. rewrite pow2_W by lia. fold W.
    change (2 ^ 6) with 64. lia. }
  assert (HVpos : 0 < V) by lia.
  assert (HdVlo : 1081 <= Zdigits2 V) by (apply Zdigits2_ge; [lia | exact HVlo]).
  assert (HTlt : T < 2 ^ 53 * 2 ^ (et + 1074)).
  { unfold T, Zval. apply Z.mul_lt_mono_pos_r; [apply pow2_pos; lia|].
    assert (2 ^ Zpos (digits2_pos mt) <= 2 ^ 53) by (apply pow2_le; lia).
    lia. }
  assert (HVhi : V < 2 ^ 2098).
  { assert (H1 : 2 ^ (et + 1074) <= 2 ^ 2045) by (apply pow2_le; lia).
    assert (H2 : T <= (2 ^ 53 - 1) * 2 ^ 2045).
    { unfold T, Zval.
      apply Z.mul_le_mono_nonneg; try lia.
      assert (2 ^ Zpos (digits2_pos mt) <= 2 ^ 53) by (apply pow2_le; lia).
      lia. }
    assert (H3 : 100 * W < 2 ^ 2045).
    { unfold W. replace 2045 with (1074 + 971) by lia. rewrite pow2_W by lia.
      assert (2 ^ 7 <= 2 ^ 971) by (apply pow2_le; lia).
      change (2 ^ 7) with 128 in *. fold W. nia. }
    change (2 ^ 2098) with (2 ^ 53 * 2 ^ 2045). lia. }
  assert (HdVhi : Zdigits2 V <= 2098) by (apply Zdigits2_le; lia).
  set (dV := Zdigits2 V) in *.
  replace (Z.max (dV - 1074 - 53) (-1074)) with (dV - 1127) in * by lia.
  replace (dV - 1127 + 1074) with (dV - 53) in * by lia.
  set (U := 2 ^ (dV - 53)) in *.
  assert (HU : 0 < U) by (apply pow2_pos; lia).
  set (m' := V / U) in *.
  set (m1 := round_nearest_even m' l') in *.
  pose proof (Zdigits2_bounds V HVpos) as [HVlo' HVhi']. fold dV in HVlo', HVhi'.
  pose proof (inbetween_floor V U m' l' HU Hin) as Hfloor.
  pose proof (rne_bounds V U m' l' Hin) as Hb. fold m1 in Hb.
  assert (Hm'lo : 2 ^ 52 <= m').
  { apply Z.div_le_lower_bound; [lia|]. unfold U.
    rewrite Z.mul_comm, <- Z.pow_add_r by lia.
    now replace (52 + (dV - 53)) with (dV - 1) by lia. }
  assert (Hpos1 : 0 < m1) by (change (2 ^ 52) with 4503599627370496 in *; lia).
  (* the sum does not overflow *)
  assert (Hfinite : dV - 1127 < 971 \/ (dV - 1127 = 971 /\ m1 < 2 ^ 53)).
  { destruct (Z.eq_dec dV 2098) as [HdV | HdV]; [right | left; lia].
    split; [lia|].
    assert (Het971 : et = 971).
    { destruct (Z.eq_dec et 971) as [|Hne]; [assumption | exfalso].
      assert (H1 : 2 ^ (et + 1074) <= 2 ^ 2044) by (apply pow2_le; lia).
      assert (H2 : T <= (2 ^ 53 - 1) * 2 ^ 2044).
      { unfold T, Zval. apply Z.mul_le_mono_nonneg; try lia.
        assert (2 ^ Zpos (digits2_pos mt) <= 2 ^ 53) by (apply pow2_le; lia).
        lia. }
      assert (H3 : 100 * W < 2 ^ 2044).
      { unfold W. replace 2044 with (1074 + 970) by lia. rewrite pow2_W by lia.
        assert (2 ^ 7 <= 2 ^ 970) by (apply pow2_le; lia).
        change (2 ^ 7) with 128 in *. fold W. nia. }
      rewrite HdV in HVlo'. change (2098 - 1) with 2097 in HVlo'.
      change (2 ^ 2097) with (2 ^ 53 * 2 ^ 2044) in HVlo'. lia. }
    assert (HTU : T = Zpos mt * U).
    { unfold T, Zval, U. rewrite Het971, HdV. reflexivity. }
    assert (H3 : 200 * W < U).
    { unfold U, W. rewrite HdV. change (2098 - 53) with (1074 + 971).
      rewrite pow2_W by lia.
      assert (2 ^ 8 <= 2 ^ 971) by (apply pow2_le; lia).
      change (2 ^ 8) with 256 in *. fold W. nia. }
    assert (Hm' : m' = Zpos mt) by nia.
    assert (Hdown : m1 = m').
    { apply (rne_down V U m' l' HU Hin). rewrite Hm'. unfold V. nia. }
    assert (2 ^ Zpos (digits2_pos mt) <= 2 ^ 53) by (apply pow2_le; lia).
    lia. }
  destruct (rounded_finite m1 (dV - 1127) ltac:(lia) Hfinite) as (m & e & Hfin).
  destruct (rounded_value m1 (dV - 1127) ltac:(lia) ltac:(lia))
    as [Hinf | (m0 & e0 & Hfin' & Hval)].
  { rewrite Hfin in Hinf. discriminate. }
  rewrite Hfin in Hfin'. inversion Hfin'; subst m0 e0. clear Hfin'.
  replace (dV - 1127 + 1074) with (dV - 53) in Hval by lia. fold U in Hval.
  exists m, e. split; [now rewrite Hadd|]. rewrite Hval.
  assert (Hlow : 2 ^ 52 * U = 2 ^ (dV - 1)).
  { unfold U. rewrite <- Z.pow_add_r by lia. f_equal. lia. }
  split.
  - (* above 100 *)
    destruct (Z.eq_dec dV 1081) as [HdV | HdV].
    + assert (HWU : W = 2 ^ 46 * U).
      { unfold W, U. rewrite HdV. reflexivity. }
      assert (Hgrid : 101 * 2 ^ 46 <= m1).
      { apply (rne_ge_grid V U m' (101 * 2 ^ 46) l' HU Hin). unfold V. nia. }
      nia.
    + assert (H1 : 2 ^ 1081 <= 2 ^ (dV - 1)) by (apply pow2_le; lia).
      replace 1081 with (1074 + 7) in H1 by lia. rewrite pow2_W in H1 by lia.
      fold W in H1. change (2 ^ 7) with 128 in H1. nia.
  - (* above the number itself *)
    intros HT60. fold W in HT60.
    assert (HVlt : V < 2 ^ 1135).
    { replace 1135 with (1074 + 61) by lia. rewrite pow2_W by lia. fold W.
      change (2 ^ 61) with (2 * 2 ^ 60).
      assert (2 ^ 7 <= 2 ^ 60) by (apply pow2_le; lia).
      change (2 ^ 7) with 128 in *. unfold V. nia. }
    assert (HdV : dV <= 1135) by (apply Zdigits2_le; lia).
    destruct (Z.le_gt_cases dV 1133) as [Hsmall | Hlarge].
    + assert (H1 : U <= 2 ^ 1080) by (apply pow2_le; lia).
      replace 1080 with (1074 + 6) in H1 by lia. rewrite pow2_W in H1 by lia.
      fold W in H1. change (2 ^ 6) with 64 in H1. unfold V in Hfloor. nia.
    + destruct (Z.eq_dec dV 1134) as [H4 | H4].
      * assert (HU' : U = 128 * W).
        { unfold U, W. rewrite H4. reflexivity. }
        pose proof (rne_near_low V U m' l' HU Hin) as Hnear. fold m1 in Hnear.
        unfold V in Hnear. nia.
      * assert (H5 : dV = 1135) by lia.
        rewrite H5 in Hlow. change (1135 - 1) with (1074 + 60) in Hlow.
        rewrite pow2_W in Hlow by lia. fold W in Hlow. nia.
Qed.


(** ** From the primitives to their specification *)

Lemma Zval_one : Zval 4503599627370496 (-52) = 2 ^ 1074.
Proof.
  unfold Zval. change (-52 + 1074) with 1022.
  change (2 ^ 1074) with (2 ^ 52 * 2 ^ 1022). reflexivity.
Qed.

Lemma Zval_100 : Zval 7036874417766400 (-46) = 100 * 2 ^ 1074.
Proof.
  unfold Zval. change (-46 + 1074) with 1028.
  change (2 ^ 1074) with (2 ^ 46 * 2 ^ 1028).
  change (Zpos 7036874417766400) with (100 * 2 ^ 46). ring.
Qed.

Lemma Zval_2p60 : Zval 4503599627370496 8 = 2 ^ 60 * 2 ^ 1074.
Proof.
  unfold Zval. change (8 + 1074) with 1082.
  change (2 ^ 1082) with (2 ^ 8 * 2 ^ 1074).
  change (Zpos 4503599627370496) with (2 ^ 52).
  change (2 ^ 60) with (2 ^ 52 * 2 ^ 8). ring.
Qed.

Lemma SFcompare_finite_neg (m1 m2 : positive) (e1 e2 : Z) :
  bounded prec emax m1 e1 = true -> bounded prec emax m2 e2 = true ->
  SFcompare (S754_finite true m1 e1) (S754_finite true m2 e2)
  = Some (Zval m2 e2 ?= Zval m1 e1).
Proof.
  intros H1 H2. rewrite <- (SFcompare_finite_pos m2 m1 e2 e1 H2 H1).
  cbn [SFcompare]. f_equal. rewrite (Z.compare_antisym e1 e2).
  destruct (e1 ?= e2); cbn [CompOpp]; try reflexivity.
  rewrite !Pos.compare_cont_spec, (Pos.compare_antisym m1 m2).
  now destruct (m1 ?= m2)%positive.
Qed.

Lemma Prim2SF_0 : Prim2SF 0%float = S754_zero false.
Proof. reflexivity. Qed.

Lemma Prim2SF_1 : Prim2SF 1%float = S754_finite false 4503599627370496 (-52).
Proof. reflexivity. Qed.

Lemma Prim2SF_100 :
  Prim2SF 100%float = S754_finite false 7036874417766400 (-46).
Proof. reflexivity. Qed.

Lemma Prim2SF_minus_1 :
  Prim2SF (-1)%float = S754_finite true 4503599627370496 (-52).
Proof. reflexivity. Qed.

Lemma Prim2SF_minus_2p60 :
  Prim2SF (-1152921504606846976)%float
  = S754_finite true 4503599627370496 8.
Proof. reflexivity. Qed.

Lemma Prim2SF_infinity : Prim2SF infinity = S754_infinity false.
Proof. reflexivity. Qed.

Lemma float_ofZ_0 : float_ofZ 0 = 0%float.
Proof. reflexivity. Qed.

Lemma float_ofZ_100 : float_ofZ 100 = 100%float.
Proof. reflexivity. Qed.

Lemma Prim2SF_bounded (x : float) (s : bool) (m : positive) (e : Z) :
  Prim2SF x = S754_finite s m e -> bounded prec emax m e = true.
Proof.
  intros Hx. pose proof (Prim2SF_valid x) as Hv. now rewrite Hx in Hv.
Qed.

(** [t + 100] for a double [t >= 1]. *)
Lemma add_100_ok (t : float) (mt : positive) (et : Z) :
  Prim2SF t = S754_finite false mt et ->
  2 ^ 1074 <= Zval mt et ->
  exists md ed,
    Prim2SF (t + 100)%float = S754_finite false md ed /\
    100 * 2 ^ 1074 < Zval md ed /\
    (Zval mt et < 2 ^ 60 * 2 ^ 1074 -> Zval mt et < Zval md ed).
Proof.
  intros Ht Hone. rewrite FloatAxioms.add_spec, Ht, Prim2SF_100.
  apply SFadd_100; [|exact Hone]. exact (Prim2SF_bounded t _ _ _ Ht).
Qed.

(** [t / d] for doubles [1 <= t < d]. *)
Lemma div_below_one (t d : float) (mt md : positive) (et ed : Z) :
  Prim2SF t = S754_finite false mt et ->
  Prim2SF d = S754_finite false md ed ->
  2 ^ 1074 <= Zval mt et -> Zval mt et < Zval md ed ->
  PrimFloat.ltb 0 (t / d) = true /\ PrimFloat.ltb (t / d) 1 = true.
Proof.
  intros Ht Hd Hone Hlt.
  pose proof (Prim2SF_bounded t _ _ _ Ht) as Hbt.
  pose proof (Prim2SF_bounded d _ _ _ Hd) as Hbd.
  destruct (SFdiv_below_one mt md et ed Hbt Hbd Hone Hlt) as (m & e & Hq & Hv).
  assert (Hp : Prim2SF (t / d) = S754_finite false m e)
    by (rewrite FloatAxioms.div_spec, Ht, Hd; exact Hq).
  pose proof (Prim2SF_bounded _ _ _ _ Hp) as Hbp.
  rewrite !FloatAxioms.ltb_spec, Hp, Prim2SF_0, Prim2SF_1. split; [reflexivity|].
  unfold SFltb. rewrite (SFcompare_finite_pos m 4503599627370496 e (-52) Hbp eq_refl), Zval_one.
  now rewrite (proj2 (Z.compare_lt_iff _ _) Hv).
Qed.

(** ** Signs of sums, products and quotients *)










(** ** The implied probability *)

(** C5: the three branches of [americanToRawProbability], in binary64.  On
    a quotation [a] that is a number (not NaN) the function returns
    [100 / (a + 100)] when [a] is positive and [|a| / (|a| + 100)] when [a]
    is negative, each operation being the binary64 one, and it fails with
    InvalidOdds exactly when [a] is zero. *)
Theorem americanToRawProbability_formula (a : float) :
  PrimFloat.is_nan a = false ->
  (PrimFloat.ltb 0 a = true ->
   americanToRawProbability a = Ok (100 / (a + 100))%float) /\
  (PrimFloat.ltb a 0 = true ->
   americanToRawProbability a = Ok (abs a / (abs a + 100))%float) /\
  (americanToRawProbability a = Err InvalidOdds <->
   PrimFloat.eqb a 0 = true) /\
  (PrimFloat.ltb 0 a = true \/ PrimFloat.ltb a 0 = true
   \/ PrimFloat.eqb a 0 = true).
Proof.
  unfold americanToRawProbability, PrimFloat.is_nan.
  cbn [nltb ofZ nadd ndiv nabs Float_JsNumber].
  rewrite float_ofZ_0, float_ofZ_100.
  rewrite !FloatAxioms.ltb_spec, !FloatAxioms.eqb_spec, Prim2SF_0.
  destruct (Prim2SF a) as [s | s | | s m e]; try destruct s;
    cbn [SFltb SFeqb SFcompare negb];
    try (rewrite Z.compare_refl, Pos.compare_cont_refl);
    intros Hnan; try discriminate Hnan;
    repeat split; intros; try discriminate; try reflexivity; auto.
Qed.

(** Scenario A: +150 gives 0.4 and -150 gives 0.6, as doubles. *)
Lemma americanToRawProbability_formula_witness :
  americanToRawProbability 150%float = Ok 0.4%float /\
  americanToRawProbability (-150)%float = Ok 0.6%float.
Proof.
  destruct (americanToRawProbability_formula 150%float eq_refl)
    as (Hpos & _).
  destruct (americanToRawProbability_formula (-150)%float eq_refl)
    as (_ & Hneg & _).
  split; [exact (Hpos eq_refl) | exact (Hneg eq_refl)].
Defined.

(** C9, as the program computes it.  For every double [a] that is at
    least 1 and finite, or at most -1 and above -2^60, the implied
    probability is strictly greater than 0 and strictly less than 1.
    Every non-zero integer a double can hold, other than those at or below
    -2^60, is in that range. *)
Theorem impliedProbability_strictly_between (a : float) :
  (PrimFloat.leb 1 a = true /\ PrimFloat.ltb a infinity = true) \/
  (PrimFloat.ltb (-1152921504606846976) a = true /\
   PrimFloat.leb a (-1) = true) ->
  exists p : float,
    americanToRawProbability a = Ok p /\
    PrimFloat.ltb 0 p = true /\ PrimFloat.ltb p 1 = true.
Proof.
  unfold americanToRawProbability.
  cbn [nltb ofZ nadd ndiv nabs Float_JsNumber].
  rewrite float_ofZ_0, float_ofZ_100.
  rewrite !FloatAxioms.leb_spec, !FloatAxioms.ltb_spec, Prim2SF_0, Prim2SF_1, Prim2SF_infinity,
    Prim2SF_minus_1, Prim2SF_minus_2p60.
  destruct (Prim2SF a) as [s | s | | s m e] eqn:Ha;
    try (intros [[H1 H2] | [H1 H2]]; try destruct s; discriminate).
  pose proof (Prim2SF_bounded a _ _ _ Ha) as Hb.
  destruct s; intros [[H1 H2] | [H1 H2]]; try discriminate.
  - (* a negative quotation above -2^60 *)
    cbn [SFltb SFcompare].
    assert (Ht : Prim2SF (abs a) = S754_finite false m e)
      by (now rewrite FloatAxioms.abs_spec, Ha).
    unfold SFltb in H1. unfold SFleb in H2.
    rewrite (SFcompare_finite_neg 4503599627370496 m 8 e eq_refl Hb), Zval_2p60 in H1.
    rewrite (SFcompare_finite_neg m 4503599627370496 e (-52) Hb eq_refl), Zval_one in H2.
    assert (Hlt : Zval m e < 2 ^ 60 * 2 ^ 1074).
    { destruct (Z.compare_spec (Zval m e) (2 ^ 60 * 2 ^ 1074));
        try discriminate; assumption. }
    assert (Hone : 2 ^ 1074 <= Zval m e).
    { destruct (Z.compare_spec (2 ^ 1074) (Zval m e)); try discriminate; lia. }
    destruct (add_100_ok (abs a) m e Ht Hone) as (md & ed & Hd & _ & Hgt).
    eexists. split; [reflexivity|].
    exact (div_below_one (abs a) (abs a + 100) m md e ed Ht Hd Hone (Hgt Hlt)).
  - (* a positive finite quotation *)
    cbn [SFltb SFcompare].
    unfold SFleb in H1.
    rewrite (SFcompare_finite_pos 4503599627370496 m (-52) e eq_refl Hb), Zval_one in H1.
    assert (Hone : 2 ^ 1074 <= Zval m e).
    { destruct (Z.compare_spec (2 ^ 1074) (Zval m e)); try discriminate; lia. }
    destruct (add_100_ok a m e Ha Hone) as (md & ed & Hd & Hgt & _).
    eexists. split; [reflexivity|].
    apply (div_below_one 100 (a + 100) _ md _ ed Prim2SF_100 Hd).
    + rewrite Zval_100. pose proof (pow2_pos 1074 ltac:(lia)). lia.
    + now rewrite Zval_100.
Qed.

Lemma impliedProbability_strictly_between_witness :
  exists p : float,
    americanToRawProbability (-110)%float = Ok p /\
    PrimFloat.ltb 0 p = true /\ PrimFloat.ltb p 1 = true.
Proof.
  apply (impliedProbability_strictly_between (-110)%float).
  right. split; reflexivity.
Defined.

(** The quotation -2^60 is a non-zero integer whose implied probability is
    exactly 1: 2^60 + 100 rounds back to 2^60, so the quotient is 1. *)
Lemma impliedProbability_reaches_one :
  PrimFloat.eqb (-1152921504606846976) 0 = false /\
  americanToRawProbability (-1152921504606846976)%float = Ok 1%float /\
  PrimFloat.ltb 1 1 = false.
Proof. repeat split. Qed.

End Binary64.

(** ** Validation order of [computeSquaresAnalysis] *)

Lemma shape_check_spec (grid : list (list jsstring)) :
  negb (length grid =? 10)%nat
  || existsb (fun row => negb (length row =? 10)%nat) grid = false
  <-> tenByTen grid.
Proof.
  unfold tenByTen.
  rewrite orb_false_iff, negb_false_iff, Nat.eqb_eq, Forall_forall.
  split; intros [Hlen Hrows]; split; auto.
  - intros row Hin.
    destruct (length row =? 10)%nat eqn:E; [now apply Nat.eqb_eq|].
    assert (Hex : existsb (fun row => negb (length row =? 10)%nat) grid = true)
      by (apply existsb_exists; exists row; rewrite E; auto).
    congruence.
  - apply not_true_iff_false. intros Hex.
    apply existsb_exists in Hex as (row & Hin & Hbad).
    apply Hrows in Hin. apply Nat.eqb_eq in Hin. rewrite Hin in Hbad. discriminate.
Qed.

Section ValidationOrder.
Context {num : Type} `{JsNumber num}.
Variables (board : SquaresBoard) (odds : DraftKingsSquaresOdds num).
Variables (squarePrice finalResultWeight anyQuarterWeight : num).

Let analysis : result (SquaresAnalysis num) :=
  computeSquaresAnalysis board odds squarePrice finalResultWeight anyQuarterWeight.

Lemma analysis_home_axis :
  isValidDigitArray (homeDigits board) = false ->
  analysis = Err (MalformedDigitAxis HomeAxis).
Proof.
  intros Hh. unfold analysis, computeSquaresAnalysis. now rewrite Hh.
Qed.

Lemma analysis_away_axis :
  isValidDigitArray (homeDigits board) = true ->
  isValidDigitArray (awayDigits board) = false ->
  analysis = Err (MalformedDigitAxis AwayAxis).
Proof.
  intros Hh Ha. unfold analysis, computeSquaresAnalysis. now rewrite Hh, Ha.
Qed.

Lemma analysis_shape :
  isValidDigitArray (homeDigits board) = true ->
  isValidDigitArray (awayDigits board) = true ->
  ~ tenByTen (owners board) ->
  analysis = Err MalformedBoardShape.
Proof.
  intros Hh Ha Hs. unfold analysis, computeSquaresAnalysis.
  rewrite Hh, Ha; cbn [negb].
  destruct (negb _ || existsb _ _) eqn:E; [reflexivity|].
  apply shape_check_spec in E. contradiction.
Qed.

Lemma analysis_after_validation :
  isValidDigitArray (homeDigits board) = true ->
  isValidDigitArray (awayDigits board) = true ->
  tenByTen (owners board) ->
  analysis =
  (combinedRaw <- combinedRawGrid odds finalResultWeight anyQuarterWeight ;;
   if nleb (sumList (concat combinedRaw)) (ofZ 0)
   then Err DegenerateProbabilityMass
   else
     match analysis with
     | Ok r => Ok r
     | Err e => Err e
     end).
Proof.
  intros Hh Ha Hs. apply shape_check_spec in Hs.
  unfold analysis, computeSquaresAnalysis. rewrite Hh, Ha; cbn [negb].
  rewrite Hs.
  destruct (combinedRawGrid _ _ _) as [g|e]; cbn [bind]; [|reflexivity].
  destruct (nleb _ _); reflexivity.
Qed.

(** The body of the loop nest at one digit pair: it fails with
    IncompleteOddsCoverage for that pair when the pair is missing, with
    InvalidOdds when the pair is there with a zero quotation, and passes
    otherwise. *)
Lemma combinedRawCell_missing (p : Z * Z) :
  missingOdds odds p = true ->
  combinedRawCell odds finalResultWeight anyQuarterWeight (fst p) (snd p)
  = Err (IncompleteOddsCoverage (fst p) (snd p)).
Proof.
  unfold missingOdds, combinedRawCell.
  destruct (finiteOdds (finalResultOdds odds) _ _);
    [destruct (finiteOdds (anyQuarterOdds odds) _ _)|];
    intros; try reflexivity; discriminate.
Qed.

Lemma combinedRawCell_present (p : Z * Z) :
  missingOdds odds p = false ->
  (exists c, combinedRawCell odds finalResultWeight anyQuarterWeight
               (fst p) (snd p) = Ok c)
  \/ combinedRawCell odds finalResultWeight anyQuarterWeight (fst p) (snd p)
     = Err InvalidOdds.
Proof.
  unfold missingOdds, combinedRawCell.
  destruct (finiteOdds (finalResultOdds odds) _ _) as [f|];
    [destruct (finiteOdds (anyQuarterOdds odds) _ _) as [q|]|];
    intros Hm; try discriminate.
  unfold americanToRawProbability.
  destruct (nltb (ofZ 0) f); [|destruct (nltb f (ofZ 0))];
    simpl; auto;
    (destruct (nltb (ofZ 0) q); [|destruct (nltb q (ofZ 0))]); simpl; eauto.
Qed.

Lemma combinedRawCell_passes (p : Z * Z) :
  pairPasses odds p = true ->
  exists c, combinedRawCell odds finalResultWeight anyQuarterWeight
              (fst p) (snd p) = Ok c.
Proof.
  unfold pairPasses, quotationOk, combinedRawCell. intros Hp.
  apply andb_true_iff in Hp as [Hf Hq].
  destruct (finiteOdds (finalResultOdds odds) _ _) as [f|]; [|discriminate].
  destruct (finiteOdds (anyQuarterOdds odds) _ _) as [q|]; [|discriminate].
  destruct (americanToRawProbability f); [|discriminate].
  destruct (americanToRawProbability q); [|discriminate].
  cbn [bind]. eauto.
Qed.

Lemma combinedRawCell_zero (p : Z * Z) :
  missingOdds odds p = false -> pairPasses odds p = false ->
  combinedRawCell odds finalResultWeight anyQuarterWeight (fst p) (snd p)
  = Err InvalidOdds.
Proof.
  intros Hm Hp.
  destruct (combinedRawCell_present p Hm) as [[c Hc] | Hc]; [|exact Hc].
  exfalso. revert Hm Hp Hc.
  unfold missingOdds, pairPasses, quotationOk, combinedRawCell.
  destruct (finiteOdds (finalResultOdds odds) _ _) as [f|]; [|discriminate].
  destruct (finiteOdds (anyQuarterOdds odds) _ _) as [q|]; [|discriminate].
  destruct (americanToRawProbability f); [|discriminate].
  destruct (americanToRawProbability q); discriminate.
Qed.

(** The scan stops at the first pair that does not pass. *)
Lemma firstErr_scan (before after : list (Z * Z)) (p : Z * Z) (e : error) :
  forallb (pairPasses odds) before = true ->
  combinedRawCell odds finalResultWeight anyQuarterWeight (fst p) (snd p)
  = Err e ->
  firstErr (List.map (fun q => combinedRawCell odds finalResultWeight
                                 anyQuarterWeight (fst q) (snd q))
                     (before ++ p :: after))
  = Some e.
Proof.
  intros Hbefore Hp. induction before as [|q before IH]; cbn [app List.map firstErr].
  - now rewrite Hp.
  - cbn [forallb] in Hbefore. apply andb_true_iff in Hbefore as [Hq Hbefore].
    destruct (combinedRawCell_passes q Hq) as [c ->]. now apply IH.
Qed.

Lemma firstErr_all_pass (pairs : list (Z * Z)) :
  forallb (pairPasses odds) pairs = true ->
  firstErr (List.map (fun q => combinedRawCell odds finalResultWeight
                                 anyQuarterWeight (fst q) (snd q)) pairs)
  = None.
Proof.
  induction pairs as [|q pairs IH]; cbn [forallb List.map firstErr];
    [reflexivity|].
  intros Hall. apply andb_true_iff in Hall as [Hq Hall].
  destruct (combinedRawCell_passes q Hq) as [c ->]. now apply IH.
Qed.

Lemma analysis_scan (before after : list (Z * Z)) (p : Z * Z) (e : error) :
  isValidDigitArray (homeDigits board) = true ->
  isValidDigitArray (awayDigits board) = true ->
  tenByTen (owners board) ->
  digitPairs = before ++ p :: after ->
  forallb (pairPasses odds) before = true ->
  combinedRawCell odds finalResultWeight anyQuarterWeight (fst p) (snd p)
  = Err e ->
  analysis = Err e.
Proof.
  intros Hh Ha Hs Hsplit Hbefore Hp.
  rewrite (analysis_after_validation Hh Ha Hs).
  pose proof (mapM_nested_firstErr
                (combinedRawCell odds finalResultWeight anyQuarterWeight)
                DIGITS DIGITS) as Hnest.
  fold digitPairs in Hnest. rewrite Hsplit in Hnest.
  rewrite (firstErr_scan before after p e Hbefore Hp) in Hnest.
  unfold combinedRawGrid. now rewrite Hnest.
Qed.

Lemma analysis_all_pass :
  isValidDigitArray (homeDigits board) = true ->
  isValidDigitArray (awayDigits board) = true ->
  tenByTen (owners board) ->
  forallb (pairPasses odds) digitPairs = true ->
  (exists r, analysis = Ok r) \/ analysis = Err DegenerateProbabilityMass.
Proof.
  intros Hh Ha Hs Hall.
  pose proof (mapM_nested_firstErr
                (combinedRawCell odds finalResultWeight anyQuarterWeight)
                DIGITS DIGITS) as Hnest.
  fold digitPairs in Hnest. rewrite (firstErr_all_pass _ Hall) in Hnest.
  destruct Hnest as [g Hg].
  unfold analysis, computeSquaresAnalysis. rewrite Hh, Ha; cbn [negb].
  rewrite (proj2 (shape_check_spec _) Hs).
  unfold combinedRawGrid. rewrite Hg. cbn [bind].
  destruct (nleb _ _); [now right | left; eexists; reflexivity].
Qed.

End ValidationOrder.

(** C4, in the order the code validates.  A bad home axis, then a bad away
    axis, fails with MalformedDigitAxis; with both axes valid a grid that is
    not 10x10 fails with MalformedBoardShape.  With a valid board the odds
    are scanned away digit by away digit, home digit by home digit, and the
    first pair that does not pass decides: when it is missing (absent or
    not finite in either market) the failure is IncompleteOddsCoverage and
    names that one pair; when it is there with a zero quotation the failure
    is InvalidOdds.  When all hundred pairs pass, neither failure occurs.
    Every failure is the whole outcome: no analysis is returned. *)
Theorem computeSquaresAnalysis_validation {num : Type} `{JsNumber num}
    (board : SquaresBoard) (odds : DraftKingsSquaresOdds num)
    (squarePrice finalResultWeight anyQuarterWeight : num) :
  let analysis :=
    computeSquaresAnalysis board odds squarePrice finalResultWeight
                           anyQuarterWeight in
  (isValidDigitArray (homeDigits board) = false ->
   analysis = Err (MalformedDigitAxis HomeAxis)) /\
  (isValidDigitArray (homeDigits board) = true ->
   isValidDigitArray (awayDigits board) = false ->
   analysis = Err (MalformedDigitAxis AwayAxis)) /\
  (isValidDigitArray (homeDigits board) = true ->
   isValidDigitArray (awayDigits board) = true ->
   ~ tenByTen (owners board) ->
   analysis = Err MalformedBoardShape) /\
  (isValidDigitArray (homeDigits board) = true ->
   isValidDigitArray (awayDigits board) = true ->
   tenByTen (owners board) ->
   (forall before p after,
      digitPairs = before ++ p :: after ->
      forallb (pairPasses odds) before = true ->
      pairPasses odds p = false ->
      analysis = Err (if missingOdds odds p
                      then IncompleteOddsCoverage (fst p) (snd p)
                      else InvalidOdds)) /\
   (forallb (pairPasses odds) digitPairs = true ->
    (exists r, analysis = Ok r) \/ analysis = Err DegenerateProbabilityMass)).
Proof.
  intros analysis. split; [|split; [|split]].
  - apply analysis_home_axis.
  - apply analysis_away_axis.
  - apply analysis_shape.
  - intros Hh Ha Hs. split.
    + intros before p after Hsplit Hbefore Hp.
      apply (analysis_scan board odds squarePrice finalResultWeight
               anyQuarterWeight before after p _ Hh Ha Hs Hsplit Hbefore).
      destruct (missingOdds odds p) eqn:Hm.
      * now apply combinedRawCell_missing.
      * now apply combinedRawCell_zero.
    + now apply analysis_all_pass.
Qed.

Lemma sampleBoard_tenByTen : tenByTen (owners sampleBoard).
Proof. split; [reflexivity | repeat constructor]. Qed.

(** A grid missing the single entry (3,7) fails naming exactly that pair. *)
Lemma computeSquaresAnalysis_validation_witness :
  computeSquaresAnalysis sampleBoard (oddsMissingOne (-110))
                         3%float 0.8%float
                         0.2%float
  = Err (IncompleteOddsCoverage 3 7).
Proof.
  destruct (computeSquaresAnalysis_validation sampleBoard (oddsMissingOne (-110))
              3%float 0.8%float 0.2%float)
    as (_ & _ & _ & Hscan).
  destruct (Hscan eq_refl eq_refl sampleBoard_tenByTen) as [Hfirst _].
  apply (Hfirst (firstn 37 digitPairs) (3, 7)%Z (skipn 38 digitPairs));
    reflexivity.
Defined.

(** The grid of [emptyBoard] is not 10x10, yet the failure reported is the
    one of its home axis; when the pairs (0,0) and (0,1) are both missing
    the failure names (0,0) alone; and when (0,1) is missing behind a zero
    quotation at (0,0) the failure is InvalidOdds. *)
Lemma computeSquaresAnalysis_validation_counterexample :
  ~ (~ tenByTen (owners emptyBoard) ->
     computeSquaresAnalysis emptyBoard (uniformOdds (-110))
       3%float 0.8%float 0.2%float
     = Err MalformedBoardShape)
  /\ (missingOdds (num := float) (oddsMissingTwo (-110)) (0, 0)%Z = true
      /\ missingOdds (num := float) (oddsMissingTwo (-110)) (0, 1)%Z = true
      /\ computeSquaresAnalysis sampleBoard (oddsMissingTwo (-110))
           3%float 0.8%float 0.2%float
         = Err (IncompleteOddsCoverage 0 0))
  /\ (missingOdds (num := float) (oddsZeroThenMissing (-110)) (0, 1)%Z = true
      /\ computeSquaresAnalysis sampleBoard (oddsZeroThenMissing (-110))
           3%float 0.8%float 0.2%float
         = Err InvalidOdds).
Proof.
  split.
  - intros Hclaim.
    assert (Hbad : ~ tenByTen (owners emptyBoard))
      by (intros [Hlen _]; discriminate Hlen).
    specialize (Hclaim Hbad). vm_compute in Hclaim. discriminate Hclaim.
  - repeat split.
Qed.

(** ** Structure of a successful analysis *)

Lemma valid_digits_permutation (digits : list Z) :
  isValidDigitArray digits = true -> Permutation digits DIGITS.
Proof.
  intros Hv. apply isValidDigitArray_spec in Hv as (Hlen & Hnd & Hall).
  apply NoDup_Permutation_bis; auto.
  - rewrite Hlen. apply Nat.le_refl.
  - intros x Hx. rewrite Forall_forall in Hall. apply Hall in Hx.
    unfold DIGITS; simpl.
    assert (x = 0 \/ x = 1 \/ x = 2 \/ x = 3 \/ x = 4 \/ x = 5 \/ x = 6
            \/ x = 7 \/ x = 8 \/ x = 9)%Z by lia.
    intuition auto.
Qed.

Lemma map_nth_seq {A B : Type} (f : A -> B) (d : A) (l : list A) :
  List.map (fun i => f (nth i l d)) (seq 0 (length l)) = List.map f l.
Proof.
  induction l as [|x xs IH]; [reflexivity|].
  simpl. f_equal. rewrite <- seq_shift, map_map. exact IH.
Qed.

Lemma map_nth_seq2 {A B C : Type} (F : A -> B -> C) (da : A) (db : B)
    (rows : list A) (cols : list B) (n m : nat) :
  length rows = n -> length cols = m ->
  List.map (fun i => List.map (fun j => F (nth i rows da) (nth j cols db))
                              (seq 0 m))
           (seq 0 n)
  = List.map (fun a => List.map (fun b => F a b) cols) rows.
Proof.
  intros <- <-.
  rewrite (map_nth_seq
             (fun a => List.map (fun j => F a (nth j cols db))
                                (seq 0 (length cols))) da rows).
  apply map_ext; intros a.
  apply (map_nth_seq (fun b => F a b) db cols).
Qed.

Lemma tenByTen_map {A B : Type} (f : A -> B) (g : list (list A)) :
  tenByTen g -> tenByTen (List.map (List.map f) g).
Proof.
  intros [Hlen Hrows]; split.
  - now rewrite length_map.
  - apply Forall_map. eapply Forall_impl; [|exact Hrows].
    intros row Hrow; simpl. now rewrite length_map.
Qed.

Lemma tenByTen_concat_length {A : Type} (g : list (list A)) :
  tenByTen g -> length (concat g) = 100%nat.
Proof.
  intros [Hlen Hrows].
  do 11 (destruct g as [|? g]; try discriminate Hlen).
  repeat match goal with
         | Hf : Forall _ (_ :: _) |- _ => inversion Hf; subst; clear Hf
         end.
  simpl. rewrite !length_app. simpl. lia.
Qed.

Section AnalysisShape.
Context {num : Type} `{JsNumber num}.

Lemma combinedRawGrid_tenByTen (odds : DraftKingsSquaresOdds num)
    (fw qw : num) (g : SquaresGrid num) :
  combinedRawGrid odds fw qw = Ok g -> tenByTen g.
Proof.
  intros Hg; split.
  - now apply mapM_Ok_length in Hg.
  - eapply mapM_Ok_Forall; [|exact Hg].
    intros a row _ Hrow. now apply mapM_Ok_length in Hrow.
Qed.

(** Reading a 10x10 grid at every digit pair gives the grid back. *)
Lemma gridAt_all (g : SquaresGrid num) :
  tenByTen g ->
  List.map (fun a => List.map (fun h => gridAt g a h) DIGITS) DIGITS = g.
Proof.
  intros [Hlen Hrows].
  do 11 (destruct g as [|? g]; try discriminate Hlen).
  repeat match goal with
         | Hf : Forall _ (_ :: _) |- _ => inversion Hf; subst; clear Hf
         end.
  repeat match goal with
         | Hl : length ?row = 10%nat |- _ =>
             do 11 (destruct row as [|? row]; try discriminate Hl); clear Hl
         end.
  reflexivity.
Qed.

(** What an accepted call returns, field by field. *)
Lemma analysis_Ok_inv (board : SquaresBoard) (odds : DraftKingsSquaresOdds num)
    (squarePrice fw qw : num) (r : SquaresAnalysis num) :
  computeSquaresAnalysis board odds squarePrice fw qw = Ok r ->
  exists g : SquaresGrid num,
    combinedRawGrid odds fw qw = Ok g /\
    nleb (sumList (concat g)) (ofZ 0) = false /\
    isValidDigitArray (homeDigits board) = true /\
    isValidDigitArray (awayDigits board) = true /\
    tenByTen (owners board) /\
    totalPot r = nmul squarePrice (ofZ 100) /\
    combinedProbability r
    = List.map (List.map (fun c => ndiv c (sumList (concat g)))) g /\
    evByDigit r
    = List.map (List.map (fun p => nmul p (totalPot r))) (combinedProbability r) /\
    boardEv r
    = List.map (fun a => List.map (fun h => gridAt (evByDigit r) a h)
                                  (homeDigits board))
               (awayDigits board) /\
    sumEv r = sumList (concat (boardEv r)).
Proof.
  unfold computeSquaresAnalysis.
  destruct (isValidDigitArray (homeDigits board)) eqn:Hh; [|discriminate].
  destruct (isValidDigitArray (awayDigits board)) eqn:Ha; [|discriminate].
  cbn [negb].
  destruct (negb _ || existsb _ _) eqn:Hs; [discriminate|].
  apply shape_check_spec in Hs.
  destruct (combinedRawGrid odds fw qw) as [g|e]; [|discriminate]. cbn [bind].
  destruct (nleb _ _) eqn:Hz; [discriminate|].
  intros Hr. apply Ok_inj in Hr. subst r.
  cbn [totalPot sumEv evByDigit combinedProbability boardEv].
  assert (Hboard : forall ev : SquaresGrid num,
             boardEvOf board ev
             = List.map (fun a => List.map (fun h => gridAt ev a h)
                                           (homeDigits board))
                        (awayDigits board)).
  { intros ev. unfold boardEvOf.
    apply map_nth_seq2.
    - apply (proj1 (isValidDigitArray_spec _) Ha).
    - apply (proj1 (isValidDigitArray_spec _) Hh). }
  exists g. rewrite Hboard. repeat split; auto; apply Hs.
Qed.

End AnalysisShape.

(** ** Identical quotations everywhere *)

Section UniformOdds.
Context {num : Type} `{JsNumber num}.

Lemma analysis_Ok_intro (board : SquaresBoard) (odds : DraftKingsSquaresOdds num)
    (squarePrice fw qw : num) (g : SquaresGrid num) :
  isValidDigitArray (homeDigits board) = true ->
  isValidDigitArray (awayDigits board) = true ->
  tenByTen (owners board) ->
  combinedRawGrid odds fw qw = Ok g ->
  nleb (sumList (concat g)) (ofZ 0) = false ->
  exists r, computeSquaresAnalysis board odds squarePrice fw qw = Ok r.
Proof.
  intros Hh Ha Hs Hg Hz. unfold computeSquaresAnalysis.
  rewrite Hh, Ha; cbn [negb]. rewrite (proj2 (shape_check_spec _) Hs).
  rewrite Hg; cbn [bind]. rewrite Hz. eexists; reflexivity.
Qed.



Lemma uniform_grid_entries (P : num -> Prop) (f : num -> num) (c : num) :
  P (f c) ->
  Forall (Forall P) (List.map (List.map f) (createEmptyGrid c)).
Proof.
  intros HP. unfold createEmptyGrid, DIGITS. cbn [List.map].
  repeat constructor; exact HP.
Qed.

End UniformOdds.

(** ** Digit recognition and the header row *)

Lemma valid_digits_of_permutation (digits : list Z) :
  Permutation digits DIGITS -> isValidDigitArray digits = true.
Proof.
  intros Hp. apply isValidDigitArray_spec. repeat split.
  - now rewrite (Permutation_length Hp).
  - apply (Permutation_NoDup (Permutation_sym Hp)).
    unfold DIGITS. repeat constructor; cbn [In]; intuition discriminate.
  - apply Forall_forall. intros x Hx.
    apply (Permutation_in _ Hp) in Hx. unfold DIGITS in Hx. cbn [In] in Hx.
    intuition lia.
Qed.

(** [isValidDigitArray] accepts exactly the orderings of the ten digits. *)
Theorem isValidDigitArray_iff_permutation (digits : list Z) :
  isValidDigitArray digits = true <-> Permutation digits DIGITS.
Proof.
  split; [apply valid_digits_permutation | apply valid_digits_of_permutation].
Qed.

Lemma find_digit_range (p : Z -> bool) (k : Z) :
  find p [1; 2; 3; 4; 5; 6; 7; 8; 9]%Z = Some k -> (1 <= k <= 9)%Z.
Proof.
  intros Hf. apply find_some in Hf as [Hin _]. cbn [In] in Hin.
  intuition lia.
Qed.

Lemma radixValue_nonneg (radix : Z) (s : jsstring) :
  (0 < radix)%Z ->
  forall acc n, (0 <= acc)%Z -> radixValue radix s acc = Some n -> (0 <= n)%Z.
Proof.
  intros Hr. induction s as [|c rest IH]; cbn [radixValue]; intros acc n Hacc.
  - intros Hn; inversion Hn; subst; assumption.
  - destruct (radixDigit radix c) as [v|] eqn:Hv; [|discriminate].
    apply IH.
    unfold radixDigit in Hv.
    assert (0 <= v)%Z.
    { destruct (isDecDigit c) eqn:Hd.
      - unfold isDecDigit in Hd. apply andb_true_iff in Hd as [Hd _].
        apply N.leb_le in Hd.
        destruct (_ <? radix)%Z; inversion Hv; subst; lia.
      - destruct ((97 <=? c) && (c <=? 102))%N eqn:Hl.
        + apply andb_true_iff in Hl as [Hl _]. apply N.leb_le in Hl.
          destruct (_ <? radix)%Z; inversion Hv; subst; lia.
        + destruct ((65 <=? c) && (c <=? 70))%N eqn:Hu.
          * apply andb_true_iff in Hu as [Hu _]. apply N.leb_le in Hu.
            destruct (_ <? radix)%Z; inversion Hv; subst; lia.
          * destruct (_ <? radix)%Z; inversion Hv; subst; lia. }
    nia.
Qed.

Lemma numberAsDigit_range (value : jsstring) (d : Z) :
  numberAsDigit value = Some d -> (0 <= d <= 9)%Z.
Proof.
  unfold numberAsDigit.
  destruct (trim value) as [|first body] eqn:Ht.
  - intros Hd; inversion Hd; lia.
  - destruct (parseNonDecimal (first :: body)) as [[n|]|] eqn:Hnd.
    + destruct (n <=? 9)%Z eqn:Hn9; [|discriminate].
      intros Hd; inversion Hd; subst. apply Z.leb_le in Hn9. split; [|assumption].
      unfold parseNonDecimal in Hnd.
      destruct body as [|letter digits]; [discriminate|].
      destruct (first =? 48)%N; [|discriminate].
      destruct ((letter =? 120) || (letter =? 88))%N.
      { destruct digits as [|j digits]; [discriminate|]. injection Hnd as Hv.
        exact (radixValue_nonneg 16 (j :: digits) eq_refl 0%Z _
                                 (Z.le_refl 0) Hv). }
      destruct ((letter =? 111) || (letter =? 79))%N.
      { destruct digits as [|j digits]; [discriminate|]. injection Hnd as Hv.
        exact (radixValue_nonneg 8 (j :: digits) eq_refl 0%Z _
                                 (Z.le_refl 0) Hv). }
      destruct ((letter =? 98) || (letter =? 66))%N; [|discriminate].
      destruct digits as [|j digits]; [discriminate|]. injection Hnd as Hv.
      exact (radixValue_nonneg 2 (j :: digits) eq_refl 0%Z _
                               (Z.le_refl 0) Hv).
    + discriminate.
    + destruct (if (first =? 43)%N then _ else _) as [negative unsigned].
      destruct (parseUnsignedDecimal unsigned) as [[m e]|]; [|discriminate].
      destruct (digitOfDecimal m e) as [k|] eqn:Hk; [|discriminate].
      assert (0 <= k <= 9)%Z.
      { unfold digitOfDecimal in Hk. destruct (roundsToZero m e).
        - inversion Hk; lia.
        - apply find_digit_range in Hk. lia. }
      destruct (negative && negb (k =? 0)%Z); [discriminate|].
      intros Hd; inversion Hd; subst; assumption.
Qed.

(** [maybeDigit] answers with a digit or with nothing: never with another
    number, and never for the empty string. *)
Theorem maybeDigit_range (value : jsstring) (d : Z) :
  maybeDigit value = Some d -> value <> [] /\ (0 <= d <= 9)%Z.
Proof.
  destruct value as [|c rest]; [discriminate|].
  intros Hd. split; [discriminate|].
  now apply numberAsDigit_range in Hd.
Qed.

Lemma maybeDigit_range_witness :
  js "7" <> [] /\ (0 <= 7 <= 9)%Z.
Proof. apply (maybeDigit_range (js "7") 7). reflexivity. Defined.

Lemma windowAt_skipn (start : nat) (cells : list jsstring) :
  windowAt start cells = firstn 10 (skipn start cells).
Proof.
  unfold windowAt, slice. f_equal. lia.
Qed.

Lemma extractDigitsFrom_spec (cells : list jsstring) :
  forall s,
  match extractDigitsFrom s cells with
  | Some (start, digits) =>
      exists k, start = (s + k)%nat /\ (k + 10 <= length cells)%nat /\
                headerWindow (windowAt k cells) = Some digits /\
                forall j, (j < k)%nat -> headerWindow (windowAt j cells) = None
  | None =>
      forall j, (j + 10 <= length cells)%nat ->
                headerWindow (windowAt j cells) = None
  end.
Proof.
  induction cells as [|c rest IH]; intros s.
  - cbn [extractDigitsFrom]. intros j Hj. cbn [length] in Hj. lia.
  - cbn [extractDigitsFrom].
    destruct (length (c :: rest) <? 10)%nat eqn:Hlen.
    + apply Nat.ltb_lt in Hlen. intros j Hj. lia.
    + apply Nat.ltb_ge in Hlen.
      assert (Hrec :
        headerWindow (windowAt 0 (c :: rest)) = None ->
        match extractDigitsFrom (S s) rest with
        | Some (start, digits) =>
            exists k, start = (s + k)%nat /\ (k + 10 <= length (c :: rest))%nat /\
                      headerWindow (windowAt k (c :: rest)) = Some digits /\
                      forall j, (j < k)%nat ->
                                headerWindow (windowAt j (c :: rest)) = None
        | None =>
            forall j, (j + 10 <= length (c :: rest))%nat ->
                      headerWindow (windowAt j (c :: rest)) = None
        end).
      { intros H0. specialize (IH (S s)).
        destruct (extractDigitsFrom (S s) rest) as [[start digits]|].
        - destruct IH as (k & -> & Hk & Hw & Hbefore).
          exists (S k). repeat split.
          + lia.
          + cbn [length]. lia.
          + rewrite windowAt_skipn in *. exact Hw.
          + intros [|j] Hj; [exact H0|].
            rewrite windowAt_skipn. cbn [skipn].
            rewrite <- windowAt_skipn. apply Hbefore. lia.
        - intros [|j] Hj; [exact H0|].
          rewrite windowAt_skipn. cbn [skipn].
          rewrite <- windowAt_skipn. apply IH. cbn [length] in Hj. lia. }
      assert (Hw0 : windowAt 0 (c :: rest) = firstn 10 (c :: rest))
        by (now rewrite windowAt_skipn).
      unfold headerWindow in Hrec at 1. rewrite Hw0 in Hrec.
      destruct (allSome (List.map maybeDigit (firstn 10 (c :: rest))))
        as [digits|] eqn:Hall; [|now apply Hrec].
      destruct (isValidDigitArray digits) eqn:Hv; [|now apply Hrec].
      exists 0%nat. repeat split.
      * lia.
      * lia.
      * unfold headerWindow. now rewrite Hw0, Hall, Hv.
      * intros j Hj. lia.
Qed.

Lemma extractDigitsFromRow_valid (cells : list jsstring) (start : nat)
    (digits : list Z) :
  extractDigitsFromRow cells = Some (start, digits) ->
  isValidDigitArray digits = true.
Proof.
  unfold extractDigitsFromRow. intros He.
  pose proof (extractDigitsFrom_spec cells 0) as Hspec. rewrite He in Hspec.
  destruct Hspec as (k & _ & _ & Hw & _). unfold headerWindow in Hw.
  destruct (allSome _) as [ds|]; [|discriminate].
  destruct (isValidDigitArray ds) eqn:Hv; [|discriminate].
  now inversion Hw; subst.
Qed.

(** [extractDigitsFromRow] returns the leftmost window of ten cells that
    reads as a header, with its digits; it returns nothing exactly when no
    window of the row does. *)
Theorem extractDigitsFromRow_leftmost (cells : list jsstring) :
  match extractDigitsFromRow cells with
  | Some (start, digits) =>
      (start + 10 <= length cells)%nat /\
      headerWindow (windowAt start cells) = Some digits /\
      isValidDigitArray digits = true /\
      forall j, (j < start)%nat -> headerWindow (windowAt j cells) = None
  | None =>
      forall j, (j + 10 <= length cells)%nat ->
                headerWindow (windowAt j cells) = None
  end.
Proof.
  unfold extractDigitsFromRow.
  pose proof (extractDigitsFrom_spec cells 0) as Hspec.
  destruct (extractDigitsFrom 0 cells) as [[start digits]|]; [|exact Hspec].
  destruct Hspec as (k & -> & Hk & Hw & Hbefore). cbn [Nat.add].
  repeat split; auto.
  unfold headerWindow in Hw.
  destruct (allSome _); [|discriminate].
  destruct (isValidDigitArray l) eqn:Hv; [|discriminate].
  now inversion Hw; subst.
Qed.



Lemma findHeader_valid (rows : list (list jsstring)) :
  forall i0 i c d, findHeader i0 rows = Some (i, c, d) ->
  isValidDigitArray d = true /\ (i0 <= i < i0 + length rows)%nat.
Proof.
  induction rows as [|row rest IH]; intros i0 i c d; cbn [findHeader].
  - discriminate.
  - destruct (extractDigitsFromRow row) as [[sc digits]|] eqn:Hrow.
    + intros Hh; inversion Hh; subst. cbn [length].
      split; [now apply extractDigitsFromRow_valid in Hrow | lia].
    + intros Hh. apply IH in Hh as [Hv Hi]. cbn [length]. split; [assumption|lia].
Qed.

(** ** The ownership block *)

Lemma collectOwners_closed_form (startCol : nat) (rows : list (list jsstring)) :
  forall ownerRows awayRaw,
  (length ownerRows < 10)%nat ->
  collectOwners startCol rows ownerRows awayRaw
  = (ownerRows
     ++ firstn (10 - length ownerRows)
               (List.map (ownerSliceOf startCol)
                         (filter (rowQualifies startCol) rows)),
     awayRaw
     ++ firstn (10 - length ownerRows)
               (List.map (awayDigitLeftOf startCol)
                         (filter (rowQualifies startCol) rows))).
Proof.
  induction rows as [|row rest IH]; intros ownerRows awayRaw Hlt.
  - cbn [collectOwners filter List.map]. now rewrite !firstn_nil, !app_nil_r.
  - cbn [collectOwners filter].
    change (slice startCol (startCol + 10) row) with (windowAt startCol row).
    destruct (rowQualifies startCol row) eqn:Hq; unfold rowQualifies in Hq.
    + apply andb_true_iff in Hq as [Hlen Hfill].
      apply negb_true_iff in Hlen, Hfill. rewrite Hlen, Hfill.
      fold (ownerSliceOf startCol row). fold (awayDigitLeftOf startCol row).
      cbn [List.map].
      destruct (10 - length ownerRows)%nat as [|n] eqn:Hn; [lia|].
      cbn [firstn].
      destruct (length (ownerRows ++ [ownerSliceOf startCol row]) =? 10)%nat
        eqn:Hten.
      * apply Nat.eqb_eq in Hten. rewrite length_app in Hten.
        cbn [length] in Hten.
        assert (n = 0%nat) by lia. subst n. now rewrite !firstn_O.
      * apply Nat.eqb_neq in Hten. rewrite length_app in Hten.
        cbn [length] in Hten.
        rewrite IH by (rewrite length_app; cbn [length]; lia).
        rewrite length_app. cbn [length].
        replace (10 - (length ownerRows + 1))%nat with n by lia.
        now rewrite <- !app_assoc.
    + destruct (length row <? startCol + 10)%nat; [now apply IH|].
      cbn [negb andb] in Hq. apply negb_false_iff in Hq. rewrite Hq.
      now apply IH.
Qed.

Lemma parse_cases (text : jsstring) :
  let rows := parseRows text in
  ((length rows < 10)%nat /\
   parseSquaresFromPastedText text = Err UnderfilledPastedInput)
  \/ ((10 <= length rows)%nat /\ (length (qualifyingRows rows) < 10)%nat /\
      parseSquaresFromPastedText text = Err IncompleteOwnershipGrid)
  \/ ((10 <= length rows)%nat /\ (10 <= length (qualifyingRows rows))%nat /\
      exists b, parseSquaresFromPastedText text = Ok b /\
        owners b = firstn 10 (List.map (ownerSliceOf (startColOf rows))
                                       (qualifyingRows rows)) /\
        homeDigits b = headerDigitsOf rows /\
        awayDigits b = (if isValidDigitArray (awayDigitsRead rows)
                        then awayDigitsRead rows else defaultDigits)).
Proof.
  intros rows. unfold parseSquaresFromPastedText. fold rows.
  destruct (length rows <? 10)%nat eqn:Hrows.
  { left. apply Nat.ltb_lt in Hrows. auto. }
  right. apply Nat.ltb_ge in Hrows. cbv zeta.
  match goal with
  | |- context [collectOwners ?sc ?rs [] []] =>
      assert (Hcol : collectOwners sc rs [] []
                     = (firstn 10 (List.map (ownerSliceOf (startColOf rows))
                                            (qualifyingRows rows)),
                        firstn 10 (List.map (awayDigitLeftOf (startColOf rows))
                                            (qualifyingRows rows))))
  end.
  { rewrite collectOwners_closed_form by (cbn [length]; lia).
    unfold qualifyingRows, startColOf, rowsBelowHeader.
    destruct (findHeader 0 rows) as [[[i c] d]|]; reflexivity. }
  rewrite Hcol.
  destruct (Nat.lt_ge_cases (length (qualifyingRows rows)) 10) as [Hq | Hq].
  - left. repeat split; auto.
    rewrite length_firstn, length_map.
    replace (Nat.min 10 (length (qualifyingRows rows)) =? 10)%nat with false
      by (symmetry; apply Nat.eqb_neq; lia).
    reflexivity.
  - right. repeat split; auto.
    rewrite length_firstn, length_map.
    replace (Nat.min 10 (length (qualifyingRows rows)) =? 10)%nat with true
      by (symmetry; apply Nat.eqb_eq; lia).
    cbn [negb]. eexists. split; [reflexivity|].
    cbn [owners homeDigits awayDigits]. repeat split.
Qed.

Lemma ownerSliceOf_length (startCol : nat) (row : list jsstring) :
  rowQualifies startCol row = true -> length (ownerSliceOf startCol row) = 10%nat.
Proof.
  unfold rowQualifies, ownerSliceOf. intros Hq.
  apply andb_true_iff in Hq as [Hlen _]. apply negb_true_iff, Nat.ltb_ge in Hlen.
  rewrite length_map, windowAt_skipn, length_firstn, length_skipn. lia.
Qed.

Lemma headerDigitsOf_valid (rows : list (list jsstring)) :
  isValidDigitArray (headerDigitsOf rows) = true.
Proof.
  unfold headerDigitsOf.
  destruct (findHeader 0 rows) as [[[i c] d]|] eqn:Hh; [|reflexivity].
  now apply findHeader_valid in Hh.
Qed.

Lemma qualifying_rows_tenByTen (startCol : nat) (q : list (list jsstring)) :
  Forall (fun row => rowQualifies startCol row = true) q ->
  (10 <= length q)%nat ->
  tenByTen (firstn 10 (List.map (ownerSliceOf startCol) q)).
Proof.
  intros Hq Hlen. split.
  - rewrite length_firstn, length_map. lia.
  - apply Forall_forall. intros row Hin.
    apply (In_nth _ _ []) in Hin as (n & Hn & <-).
    rewrite length_firstn, length_map in Hn.
    rewrite nth_firstn.
    replace (n <? 10)%nat with true by (symmetry; apply Nat.ltb_lt; lia).
    rewrite (nth_indep _ [] (ownerSliceOf startCol [])) by (rewrite length_map; lia).
    rewrite map_nth. apply ownerSliceOf_length.
    rewrite Forall_forall in Hq. apply Hq, nth_In. lia.
Qed.

Lemma qualifyingRows_qualify (rows : list (list jsstring)) :
  Forall (fun row => rowQualifies (startColOf rows) row = true)
         (qualifyingRows rows).
Proof.
  apply Forall_forall. intros row Hin. unfold qualifyingRows in Hin.
  now apply filter_In in Hin.
Qed.

Lemma awayDigits_choice_valid (filled : list Z) :
  isValidDigitArray (if isValidDigitArray filled then filled else defaultDigits)
  = true.
Proof.
  destruct (isValidDigitArray filled) eqn:Hv; [exact Hv | reflexivity].
Qed.

(** A board that [parseSquaresFromPastedText] returns always has two valid
    digit axes and a grid of ten rows of ten cells. *)
Theorem parsed_board_wellformed (text : jsstring) (b : SquaresBoard) :
  parseSquaresFromPastedText text = Ok b ->
  isValidDigitArray (homeDigits b) = true /\
  isValidDigitArray (awayDigits b) = true /\
  tenByTen (owners b).
Proof.
  intros Hb.
  destruct (parse_cases text)
    as [[_ He] | [(_ & _ & He) | (_ & Hq & b' & Hb' & Ho & Hh & Ha)]];
    try congruence.
  rewrite Hb in Hb'. apply Ok_inj in Hb'. subst b'.
  split; [|split].
  - rewrite Hh. apply headerDigitsOf_valid.
  - rewrite Ha. apply awayDigits_choice_valid.
  - rewrite Ho.
    apply qualifying_rows_tenByTen; [apply qualifyingRows_qualify | exact Hq].
Qed.


Example scenarioC_board :
  parseSquaresFromPastedText scenarioC = Ok scenarioCBoard.
Proof. vm_compute. reflexivity. Qed.

Lemma scenarioC_parses : exists b, parseSquaresFromPastedText scenarioC = Ok b.
Proof. exists scenarioCBoard. exact scenarioC_board. Qed.

Lemma parsed_board_wellformed_witness :
  exists b, parseSquaresFromPastedText scenarioC = Ok b /\
            isValidDigitArray (homeDigits b) = true /\
            isValidDigitArray (awayDigits b) = true /\
            tenByTen (owners b).
Proof.
  destruct scenarioC_parses as [b Hb]. exists b. split; [exact Hb|].
  exact (parsed_board_wellformed scenarioC b Hb).
Defined.

(** [parseSquaresFromPastedText] fails in two ways only: with
    UnderfilledPastedInput exactly when the text has fewer than ten rows, and
    with IncompleteOwnershipGrid exactly when it has ten rows but fewer than
    ten of the rows below the header qualify. *)
Theorem parse_failure_conditions (text : jsstring) :
  let rows := parseRows text in
  (parseSquaresFromPastedText text = Err UnderfilledPastedInput
   <-> (length rows < 10)%nat) /\
  (parseSquaresFromPastedText text = Err IncompleteOwnershipGrid
   <-> (10 <= length rows)%nat /\ (length (qualifyingRows rows) < 10)%nat) /\
  (forall e, parseSquaresFromPastedText text = Err e ->
             e = UnderfilledPastedInput \/ e = IncompleteOwnershipGrid).
Proof.
  intros rows.
  destruct (parse_cases text)
    as [[Hr He] | [(Hr & Hq & He) | (Hr & Hq & b & Hb & _)]];
    fold rows in Hr; try fold rows in Hq; rewrite ?He, ?Hb.
  - split; [split; [intros _; exact Hr | reflexivity]|].
    split; [split; [discriminate | intros [Hge _]; lia]|].
    intros e H; injection H as <-; auto.
  - split; [split; [discriminate | intros Hlt; lia]|].
    split; [split; [intros _; split; assumption | reflexivity]|].
    intros e H; injection H as <-; auto.
  - split; [split; [discriminate | intros Hlt; lia]|].
    split; [split; [discriminate | intros [_ Hlt]; lia]|].
    discriminate.
Qed.

(** The grid of a parsed board is made of the first ten qualifying rows
    below the header, in order: of each, the ten cells from [startCol] on,
    passed through [normalizeOwnerName]. *)
Theorem parsed_owner_rows (text : jsstring) (b : SquaresBoard) :
  parseSquaresFromPastedText text = Ok b ->
  let rows := parseRows text in
  owners b
  = List.map (fun row => List.map normalizeOwnerName
                                  (windowAt (startColOf rows) row))
             (firstn 10 (qualifyingRows rows)).
Proof.
  intros Hb rows.
  destruct (parse_cases text)
    as [[_ He] | [(_ & _ & He) | (_ & _ & b' & Hb' & Ho & _)]];
    try congruence.
  rewrite Hb in Hb'. apply Ok_inj in Hb'. subst b'.
  rewrite Ho. fold rows. now rewrite firstn_map.
Qed.

Lemma parsed_owner_rows_witness :
  exists b, parseSquaresFromPastedText scenarioC = Ok b /\
    owners b
    = List.map (fun row => List.map normalizeOwnerName
                             (windowAt (startColOf (parseRows scenarioC)) row))
               (firstn 10 (qualifyingRows (parseRows scenarioC))).
Proof.
  destruct scenarioC_parses as [b Hb]. exists b. split; [exact Hb|].
  exact (parsed_owner_rows scenarioC b Hb).
Defined.

Lemma findHeader_first (rows : list (list jsstring)) :
  forall i0,
  match findHeader i0 rows with
  | Some (i, c, d) =>
      exists k, i = (i0 + k)%nat /\ (k < length rows)%nat /\
                extractDigitsFromRow (nth k rows []) = Some (c, d) /\
                forall j, (j < k)%nat ->
                          extractDigitsFromRow (nth j rows []) = None
  | None => forall row, In row rows -> extractDigitsFromRow row = None
  end.
Proof.
  induction rows as [|row rest IH]; intros i0; cbn [findHeader].
  - intros row [].
  - destruct (extractDigitsFromRow row) as [[c d]|] eqn:Hrow.
    + exists 0%nat. cbn [length nth]. repeat split; auto; try lia.
    + specialize (IH (S i0)).
      destruct (findHeader (S i0) rest) as [[[i c] d]|].
      * destruct IH as (k & -> & Hk & Hat & Hbefore).
        exists (S k). cbn [length nth]. repeat split; auto; try lia.
        intros [|j] Hj; [exact Hrow | apply Hbefore; lia].
      * intros r [<- | Hin]; auto.
Qed.

(** The home digits of a parsed board are those of the topmost row that
    holds a header window (at its leftmost such window); when no row holds
    one they are 0..9 in order. *)
Theorem parsed_home_digits (text : jsstring) (b : SquaresBoard) :
  parseSquaresFromPastedText text = Ok b ->
  let rows := parseRows text in
  (exists i c, (i < length rows)%nat /\
     extractDigitsFromRow (nth i rows []) = Some (c, homeDigits b) /\
     forall j, (j < i)%nat -> extractDigitsFromRow (nth j rows []) = None)
  \/ (homeDigits b = DIGITS /\
      forall row, In row rows -> extractDigitsFromRow row = None).
Proof.
  intros Hb rows.
  destruct (parse_cases text)
    as [[_ He] | [(_ & _ & He) | (_ & _ & b' & Hb' & _ & Hh & _)]];
    try congruence.
  rewrite Hb in Hb'. apply Ok_inj in Hb'. subst b'.
  fold rows in Hh. unfold headerDigitsOf in Hh.
  pose proof (findHeader_first rows 0) as Hfirst.
  destruct (findHeader 0 rows) as [[[i c] d]|].
  - left. destruct Hfirst as (k & _ & Hk & Hat & Hbefore).
    exists k, c. rewrite Hh. auto.
  - right. auto.
Qed.

Lemma parsed_home_digits_witness :
  exists b, parseSquaresFromPastedText scenarioC = Ok b /\
   ((exists i c, (i < length (parseRows scenarioC))%nat /\
      extractDigitsFromRow (nth i (parseRows scenarioC) [])
      = Some (c, homeDigits b) /\
      forall j, (j < i)%nat ->
                extractDigitsFromRow (nth j (parseRows scenarioC) []) = None)
    \/ (homeDigits b = DIGITS /\
        forall row, In row (parseRows scenarioC) ->
                    extractDigitsFromRow row = None)).
Proof.
  destruct scenarioC_parses as [b Hb]. exists b. split; [exact Hb|].
  exact (parsed_home_digits scenarioC b Hb).
Defined.

(** ** From the parser to the analysis *)

Lemma mapM_Err_inv {A B : Type} (f : A -> result B) (l : list A) (e : error) :
  mapM f l = Err e -> exists x, In x l /\ f x = Err e.
Proof.
  induction l as [|x xs IH]; cbn [mapM]; [discriminate|].
  destruct (f x) as [y|e'] eqn:Hx; cbn [bind].
  - destruct (mapM f xs) as [ys|e'']; cbn [bind]; [discriminate|].
    intros He; inversion He; subst.
    destruct (IH eq_refl) as (x' & Hin & Hx'). exists x'. split; [now right|auto].
  - intros He; inversion He; subst. exists x. split; [now left|auto].
Qed.

Lemma combinedRawGrid_Err {num : Type} `{JsNumber num}
    (odds : DraftKingsSquaresOdds num) (fw qw : num) (e : error) :
  combinedRawGrid odds fw qw = Err e ->
  e = InvalidOdds
  \/ exists a h, In (a, h) digitPairs /\ missingOdds odds (a, h) = true /\
                 e = IncompleteOddsCoverage a h.
Proof.
  unfold combinedRawGrid. intros He.
  apply mapM_Err_inv in He as (a & Ha & He).
  apply mapM_Err_inv in He as (h & Hh & He).
  destruct (missingOdds odds (a, h)) eqn:Hm.
  - right. exists a, h. split; [now apply in_prod|]. split; [exact Hm|].
    pose proof (combinedRawCell_missing odds fw qw (a, h) Hm) as Hc.
    cbn [fst snd] in Hc. congruence.
  - left.
    destruct (combinedRawCell_present odds fw qw (a, h) Hm) as [[c Hc] | Hc];
      cbn [fst snd] in Hc; congruence.
Qed.

(** A board returned by the parser always passes the board checks of
    [computeSquaresAnalysis]: whatever the odds, the price and the weights,
    the analysis can only fail on the odds (a zero quotation, a missing digit
    pair, or no probability mass). *)
Theorem parsed_board_analysis_failures {num : Type} `{JsNumber num}
    (text : jsstring) (b : SquaresBoard) (odds : DraftKingsSquaresOdds num)
    (squarePrice finalResultWeight anyQuarterWeight : num) (e : error) :
  parseSquaresFromPastedText text = Ok b ->
  computeSquaresAnalysis b odds squarePrice finalResultWeight anyQuarterWeight
  = Err e ->
  e = InvalidOdds \/ e = DegenerateProbabilityMass
  \/ exists a h, In (a, h) digitPairs /\ missingOdds odds (a, h) = true /\
                 e = IncompleteOddsCoverage a h.
Proof.
  intros Hb.
  destruct (parse_cases text)
    as [[_ He] | [(_ & _ & He) | (_ & Hq & b' & Hb' & Ho & Hhome & Haway)]];
    try congruence.
  rewrite Hb in Hb'. apply Ok_inj in Hb'. subst b'.
  assert (Hh : isValidDigitArray (homeDigits b) = true)
    by (rewrite Hhome; apply headerDigitsOf_valid).
  assert (Ha : isValidDigitArray (awayDigits b) = true)
    by (rewrite Haway; apply awayDigits_choice_valid).
  assert (Hs : tenByTen (owners b))
    by (rewrite Ho; apply qualifying_rows_tenByTen;
        [apply qualifyingRows_qualify | exact Hq]).
  unfold computeSquaresAnalysis. rewrite Hh, Ha; cbn [negb].
  rewrite (proj2 (shape_check_spec _) Hs).
  destruct (combinedRawGrid odds finalResultWeight anyQuarterWeight)
    as [g|e'] eqn:Hg; cbn [bind].
  - destruct (nleb _ _); [|discriminate].
    intros He; inversion He; auto.
  - intros He; inversion He; subst.
    apply combinedRawGrid_Err in Hg as [-> | Hmiss]; auto.
Qed.

Lemma parsed_board_analysis_failures_witness :
  IncompleteOddsCoverage 3 7 = InvalidOdds
  \/ IncompleteOddsCoverage 3 7 = DegenerateProbabilityMass
  \/ exists a h, In (a, h) digitPairs
       /\ missingOdds (num := float) (oddsMissingOne (-110)) (a, h) = true
       /\ IncompleteOddsCoverage 3 7 = IncompleteOddsCoverage a h.
Proof.
  apply (parsed_board_analysis_failures scenarioC scenarioCBoard
           (oddsMissingOne (-110)) 3%float 0.8%float 0.2%float).
  - exact scenarioC_board.
  - vm_compute. reflexivity.
Defined.

(** ** Trimming and white-space collapsing *)

Section DropWhile.
Context {A : Type} (p : A -> bool).

Lemma dropWhile_head (l : list A) (x : A) (r : list A) :
  dropWhile p l = x :: r -> p x = false.
Proof.
  induction l as [|y l IH]; cbn [dropWhile]; [discriminate|].
  destruct (p y) eqn:Hy; [exact IH|].
  intros Heq; inversion Heq; subst; exact Hy.
Qed.

Lemma dropWhile_fixed (l : list A) :
  match l with [] => True | x :: _ => p x = false end -> dropWhile p l = l.
Proof.
  destruct l as [|x l]; [reflexivity|]. cbn [dropWhile]. now intros ->.
Qed.

Lemma dropWhile_idem (l : list A) : dropWhile p (dropWhile p l) = dropWhile p l.
Proof.
  apply dropWhile_fixed.
  destruct (dropWhile p l) as [|x r] eqn:Hd; [exact I|].
  now apply dropWhile_head in Hd.
Qed.

Lemma dropWhile_split (l : list A) :
  exists pre, l = pre ++ dropWhile p l /\ Forall (fun x => p x = true) pre.
Proof.
  induction l as [|x l (pre & Hl & Hpre)]; cbn [dropWhile].
  - exists []. split; [reflexivity | constructor].
  - destruct (p x) eqn:Hx.
    + exists (x :: pre). split; [cbn [app]; now f_equal | now constructor].
    + exists []. split; [reflexivity | constructor].
Qed.

Lemma dropWhileEnd_split (l : list A) :
  exists post, l = dropWhileEnd p l ++ post /\ Forall (fun x => p x = true) post.
Proof.
  unfold dropWhileEnd.
  destruct (dropWhile_split (rev l)) as (pre & Hl & Hpre).
  exists (rev pre). split.
  - rewrite <- rev_app_distr, <- Hl. now rewrite rev_involutive.
  - now apply Forall_rev.
Qed.

Lemma dropWhileEnd_idem (l : list A) :
  dropWhileEnd p (dropWhileEnd p l) = dropWhileEnd p l.
Proof.
  unfold dropWhileEnd. now rewrite rev_involutive, dropWhile_idem.
Qed.

(** Dropping at the end keeps the head of a list that starts with a kept
    element. *)
Lemma dropWhileEnd_keeps_head (x : A) (l : list A) :
  p x = false -> exists r, dropWhileEnd p (x :: l) = x :: r.
Proof.
  intros Hx. unfold dropWhileEnd. cbn [rev].
  destruct (dropWhile_split (rev l ++ [x])) as (pre & Hl & Hpre).
  destruct (dropWhile p (rev l ++ [x])) as [|y r] eqn:Hd.
  - rewrite app_nil_r in Hl.
    assert (Hin : In x pre) by (rewrite <- Hl; apply in_app_iff; right; now left).
    rewrite Forall_forall in Hpre. apply Hpre in Hin. congruence.
  - assert (Hrev : rev (rev l ++ [x]) = x :: l)
      by (now rewrite rev_app_distr, rev_involutive).
    rewrite Hl, rev_app_distr in Hrev.
    destruct (rev (y :: r)) as [|z t] eqn:Hz.
    + apply (f_equal (@length A)) in Hz. rewrite length_rev in Hz. discriminate.
    + cbn [app] in Hrev. inversion Hrev; subst. now exists t.
Qed.

End DropWhile.

Lemma trim_idem (s : jsstring) : trim (trim s) = trim s.
Proof.
  unfold trim at 1.
  assert (Hfix : dropWhile isSpace (trim s) = trim s).
  { unfold trim. destruct (dropWhile isSpace s) as [|x r] eqn:Hd.
    - reflexivity.
    - apply dropWhile_head in Hd.
      destruct (dropWhileEnd_keeps_head isSpace x r Hd) as [t ->].
      cbn [dropWhile]. now rewrite Hd. }
  rewrite Hfix. unfold trim. apply dropWhileEnd_idem.
Qed.

Lemma collapsedFrom_weaken (s : jsstring) :
  collapsedFrom true s = true -> collapsedFrom false s = true.
Proof.
  destruct s as [|c r]; cbn [collapsedFrom]; [auto|].
  destruct (isSpace c); [|auto].
  rewrite andb_false_r. discriminate.
Qed.

Lemma collapseSpaces_collapsed (s : jsstring) :
  forall b, collapsedFrom b (collapseSpaces b s) = true.
Proof.
  induction s as [|c r IH]; intros b; cbn [collapseSpaces]; [reflexivity|].
  destruct (isSpace c) eqn:Hc.
  - destruct b.
    + apply IH.
    + cbn [collapsedFrom]. change (isSpace 32%N) with true.
      cbn [N.eqb Pos.eqb negb andb]. apply IH.
  - cbn [collapsedFrom]. rewrite Hc. apply IH.
Qed.

Lemma collapsed_fixed (s : jsstring) :
  forall b, collapsedFrom b s = true -> collapseSpaces b s = s.
Proof.
  induction s as [|c r IH]; intros b; cbn [collapsedFrom collapseSpaces];
    [reflexivity|].
  destruct (isSpace c) eqn:Hc.
  - intros H. apply andb_true_iff in H as [H Hr].
    apply andb_true_iff in H as [H32 Hb].
    apply N.eqb_eq in H32. apply negb_true_iff in Hb. subst b c.
    now rewrite (IH true Hr).
  - intros Hr. now rewrite (IH false Hr).
Qed.

Lemma collapsedFrom_app_l (s t : jsstring) :
  forall b, collapsedFrom b (s ++ t) = true -> collapsedFrom b s = true.
Proof.
  induction s as [|c r IH]; intros b; cbn [app collapsedFrom]; [reflexivity|].
  destruct (isSpace c).
  - intros H. apply andb_true_iff in H as [H Hr]. rewrite H. cbn [andb].
    now apply IH in Hr.
  - apply IH.
Qed.

Lemma collapsedFrom_app_r (s t : jsstring) :
  forall b, collapsedFrom b (s ++ t) = true -> collapsedFrom false t = true.
Proof.
  induction s as [|c r IH]; intros b; cbn [app collapsedFrom].
  - destruct b; [apply collapsedFrom_weaken | auto].
  - destruct (isSpace c).
    + intros H. apply andb_true_iff in H as [_ Hr]. now apply IH in Hr.
    + apply IH.
Qed.

Lemma trim_collapsed (s : jsstring) :
  collapsedFrom false s = true -> collapsedFrom false (trim s) = true.
Proof.
  intros Hs. unfold trim.
  destruct (dropWhile_split isSpace s) as (pre & Hpre & _).
  destruct (dropWhileEnd_split isSpace (dropWhile isSpace s)) as (post & Hpost & _).
  rewrite Hpre in Hs. apply collapsedFrom_app_r in Hs.
  rewrite Hpost in Hs. now apply collapsedFrom_app_l in Hs.
Qed.

Lemma normalizeCell_fixed (t : jsstring) :
  trim t = t -> collapsedFrom false t = true -> normalizeCell t = t.
Proof.
  intros Ht Hc. unfold normalizeCell. now rewrite (collapsed_fixed t false Hc).
Qed.

Lemma normalizeCell_normal_form_aux (value : jsstring) :
  normalizeCell (normalizeCell value) = normalizeCell value /\
  collapsedFrom false (normalizeCell value) = true.
Proof.
  assert (Hc : collapsedFrom false (normalizeCell value) = true)
    by (unfold normalizeCell; apply trim_collapsed, collapseSpaces_collapsed).
  split; [|exact Hc].
  apply normalizeCell_fixed; [unfold normalizeCell; apply trim_idem | exact Hc].
Qed.

(** [normalizeCell] is idempotent, and what it returns is in normal form:
    trimming it or collapsing its white space changes nothing, its only
    white space being single spaces between other characters. *)
Theorem normalizeCell_normal_form (value : jsstring) :
  normalizeCell (normalizeCell value) = normalizeCell value /\
  trim (normalizeCell value) = normalizeCell value /\
  collapseSpaces false (normalizeCell value) = normalizeCell value /\
  collapsedFrom false (normalizeCell value) = true.
Proof.
  assert (Ht : trim (normalizeCell value) = normalizeCell value)
    by (unfold normalizeCell; apply trim_idem).
  assert (Hc : collapsedFrom false (normalizeCell value) = true)
    by (unfold normalizeCell; apply trim_collapsed, collapseSpaces_collapsed).
  repeat split; auto.
  - now apply normalizeCell_fixed.
  - now apply collapsed_fixed.
Qed.

(** ** Owner names *)

Lemma normalizeOwnerName_cases (value : jsstring) :
  normalizeOwnerName value = Steven
  \/ normalizeOwnerName value = normalizeCell value.
Proof.
  unfold normalizeOwnerName.
  destruct (normalizeCell value) as [|c r]; [now right|].
  destruct (lettersOnlyOf (c :: r)); [now right|].
  destruct (existsb _ _); [now left|].
  destruct (_ && (_ <=? 8)%nat); [now left|].
  destruct (_ && _ && _); [now left | now right].
Qed.

Lemma normalizeOwnerName_of_normalized (value : jsstring) :
  normalizeOwnerName (normalizeCell value) = normalizeOwnerName value.
Proof.
  unfold normalizeOwnerName.
  now rewrite (proj1 (normalizeCell_normal_form_aux value)).
Qed.

Lemma normalizeOwnerName_fixed (value : jsstring) :
  normalizeOwnerName (normalizeOwnerName value) = normalizeOwnerName value.
Proof.
  destruct (normalizeOwnerName_cases value) as [-> | Hn].
  - vm_compute. reflexivity.
  - rewrite Hn at 1. apply normalizeOwnerName_of_normalized.
Qed.

Lemma normalizeOwnerName_trimmed (value : jsstring) :
  trim (normalizeOwnerName value) = normalizeOwnerName value.
Proof.
  destruct (normalizeOwnerName_cases value) as [-> | ->].
  - vm_compute. reflexivity.
  - unfold normalizeCell. apply trim_idem.
Qed.

(** [normalizeOwnerName] is idempotent; it returns either the canonical
    name or the normalized cell, and an empty cell stays empty. *)
Theorem normalizeOwnerName_idempotent (value : jsstring) :
  normalizeOwnerName (normalizeOwnerName value) = normalizeOwnerName value /\
  (normalizeOwnerName value = Steven
   \/ normalizeOwnerName value = normalizeCell value) /\
  (normalizeCell value = [] -> normalizeOwnerName value = []).
Proof.
  split; [apply normalizeOwnerName_fixed|].
  split; [apply normalizeOwnerName_cases|].
  intros He. unfold normalizeOwnerName. now rewrite He.
Qed.

Lemma in_firstn {A : Type} (n : nat) (l : list A) (x : A) :
  In x (firstn n l) -> In x l.
Proof.
  intros Hin. rewrite <- (firstn_skipn n l). apply in_or_app. now left.
Qed.

(** Every cell of a parsed board is already in canonical form: normalizing
    it again, or trimming it as the analysis does before it counts a square
    for an owner, changes nothing. *)
Theorem parsed_cells_canonical (text : jsstring) (b : SquaresBoard) :
  parseSquaresFromPastedText text = Ok b ->
  Forall (Forall (fun cell => normalizeOwnerName cell = cell /\ trim cell = cell))
         (owners b).
Proof.
  intros Hb.
  destruct (parse_cases text)
    as [[_ He] | [(_ & _ & He) | (_ & _ & b' & Hb' & Ho & _)]];
    try congruence.
  rewrite Hb in Hb'. apply Ok_inj in Hb'. subst b'. rewrite Ho.
  apply Forall_forall. intros row Hrow.
  apply in_firstn in Hrow. apply in_map_iff in Hrow as (src & <- & _).
  unfold ownerSliceOf. apply Forall_map, Forall_forall. intros cell _.
  split; [apply normalizeOwnerName_fixed | apply normalizeOwnerName_trimmed].
Qed.

Lemma parsed_cells_canonical_witness :
  Forall (Forall (fun cell => normalizeOwnerName cell = cell /\ trim cell = cell))
         (owners scenarioCBoard).
Proof.
  exact (parsed_cells_canonical scenarioC scenarioCBoard scenarioC_board).
Defined.

(** ** Quote-aware field splitting *)

Lemma parseCsvLoop_plain (d : jschar) (cell rest : jsstring) :
  Forall (fun c => c <> d /\ c <> 34%N) cell ->
  forall cells current,
  parseCsvLoop d (cell ++ rest) cells current false
  = parseCsvLoop d rest cells (current ++ cell) false.
Proof.
  induction 1 as [|c cell [Hd Hq] _ IH]; intros cells current.
  - now rewrite app_nil_r.
  - cbn [app parseCsvLoop].
    apply N.eqb_neq in Hq, Hd. rewrite Hq, Hd. cbn [andb].
    rewrite IH. now rewrite <- app_assoc.
Qed.

Lemma parseCsvLoop_join (d : jschar) (fields : list jsstring) :
  d <> 34%N ->
  fields <> [] ->
  Forall (Forall (fun c => c <> d /\ c <> 34%N)) fields ->
  forall cells,
  parseCsvLoop d (joinWith d fields) cells [] false = cells ++ fields.
Proof.
  intros Hd. induction fields as [|p rest IH]; intros Hne Hplain cells.
  - contradiction.
  - inversion Hplain as [|? ? Hp Hrest]; subst.
    destruct rest as [|q rest].
    + cbn [joinWith]. rewrite <- (app_nil_r p) at 1.
      now rewrite parseCsvLoop_plain.
    + change (joinWith d (p :: q :: rest))
        with (p ++ d :: joinWith d (q :: rest)).
      rewrite parseCsvLoop_plain by assumption.
      cbn [parseCsvLoop app].
      apply N.eqb_neq in Hd. rewrite Hd, N.eqb_refl. cbn [andb negb].
      rewrite IH by (auto; discriminate).
      now rewrite <- app_assoc.
Qed.

(** The fields of a line that uses no quotes are what lies between the
    delimiters: joining fields that hold neither the delimiter nor a double
    quote and splitting the line again gives the fields back. *)
Theorem parseCsvLine_join (d : jschar) (fields : list jsstring) :
  d <> 34%N ->
  fields <> [] ->
  Forall (Forall (fun c => c <> d /\ c <> 34%N)) fields ->
  parseCsvLine (joinWith d fields) d = fields.
Proof.
  intros Hd Hne Hplain. unfold parseCsvLine.
  now rewrite parseCsvLoop_join.
Qed.

Lemma parseCsvLine_join_witness :
  parseCsvLine (joinWith 44%N [js "Ann"; []; js "Bob Lee"]) 44%N
  = [js "Ann"; []; js "Bob Lee"].
Proof.
  apply parseCsvLine_join; [discriminate | discriminate |].
  repeat constructor; discriminate.
Defined.

Lemma parseCsvLoop_quoted_body (d : jschar) (field tail : jsstring) :
  d <> 34%N ->
  (tail = [] \/ exists t, tail = d :: t) ->
  forall cells current,
  parseCsvLoop d
    (flat_map (fun c => if (c =? 34)%N then [34%N; 34%N] else [c]) field
     ++ 34%N :: tail) cells current true
  = parseCsvLoop d tail cells (current ++ field) false.
Proof.
  intros Hd Htail. apply N.eqb_neq in Hd.
  induction field as [|c field IH]; intros cells current.
  - cbn [flat_map app parseCsvLoop]. rewrite app_nil_r.
    change (34 =? 34)%N with true. cbv iota.
    destruct Htail as [-> | [t ->]]; [reflexivity|].
    rewrite Hd. reflexivity.
  - cbn [flat_map].
    destruct (c =? 34)%N eqn:Hc.
    + apply N.eqb_eq in Hc. subst c.
      cbn [app parseCsvLoop]. change (34 =? 34)%N with true. cbn [andb].
      cbv iota. rewrite IH. now rewrite <- app_assoc.
    + cbn [app parseCsvLoop]. rewrite Hc. cbn [negb andb].
      rewrite andb_false_r. rewrite IH. now rewrite <- app_assoc.
Qed.

Lemma parseCsvLoop_open (d : jschar) (body : jsstring) :
  body <> [] ->
  forall cells current,
  parseCsvLoop d (34%N :: body) cells current false
  = parseCsvLoop d body cells current true.
Proof.
  intros Hne cells current. destruct body as [|x r]; [contradiction|].
  cbn [parseCsvLoop]. change (34 =? 34)%N with true. reflexivity.
Qed.

Lemma quoteField_app (field tail : jsstring) :
  quoteField field ++ tail
  = 34%N :: (flat_map (fun c => if (c =? 34)%N then [34%N; 34%N] else [c]) field
             ++ 34%N :: tail).
Proof.
  unfold quoteField. cbn [app]. now rewrite <- app_assoc.
Qed.

Lemma parseCsvLoop_quoted_field (d : jschar) (field tail : jsstring) :
  d <> 34%N ->
  (tail = [] \/ exists t, tail = d :: t) ->
  forall cells current,
  parseCsvLoop d (quoteField field ++ tail) cells current false
  = parseCsvLoop d tail cells (current ++ field) false.
Proof.
  intros Hd Htail cells current.
  rewrite quoteField_app, parseCsvLoop_open.
  - now apply parseCsvLoop_quoted_body.
  - intros Hnil. symmetry in Hnil. exact (app_cons_not_nil _ _ _ Hnil).
Qed.

Lemma parseCsvLoop_quoted (d : jschar) (fields : list jsstring) :
  d <> 34%N ->
  fields <> [] ->
  forall cells,
  parseCsvLoop d (joinWith d (List.map quoteField fields)) cells [] false
  = cells ++ fields.
Proof.
  intros Hd. induction fields as [|p rest IH]; intros Hne cells.
  - contradiction.
  - destruct rest as [|q rest].
    + cbn [List.map joinWith]. rewrite <- (app_nil_r (quoteField p)).
      rewrite parseCsvLoop_quoted_field by auto. reflexivity.
    + change (joinWith d (List.map quoteField (p :: q :: rest)))
        with (quoteField p ++ d :: joinWith d (List.map quoteField (q :: rest))).
      rewrite parseCsvLoop_quoted_field by eauto.
      cbn [parseCsvLoop app].
      pose proof Hd as Hd'. apply N.eqb_neq in Hd'. rewrite Hd', N.eqb_refl.
      cbn [andb negb].
      rewrite IH by discriminate. now rewrite <- app_assoc.
Qed.

(** Quoting round trip: whatever the fields hold (delimiters, quotes, white
    space), writing each one between double quotes with its own quotes
    doubled, joining them with the delimiter and splitting the line gives
    exactly the fields back. *)
Theorem parseCsvLine_quoted (d : jschar) (fields : list jsstring) :
  d <> 34%N ->
  fields <> [] ->
  parseCsvLine (joinWith d (List.map quoteField fields)) d = fields.
Proof.
  intros Hd Hne. unfold parseCsvLine. now rewrite parseCsvLoop_quoted.
Qed.

Lemma parseCsvLine_quoted_witness :
  parseCsvLine
    (joinWith 44%N (List.map quoteField [js "Lee, Ann"; [34%N; 97%N; 34%N]; []]))
    44%N
  = [js "Lee, Ann"; [34%N; 97%N; 34%N]; []].
Proof.
  apply parseCsvLine_quoted; discriminate.
Defined.

(** ** Reassembly of ragged rows *)

Lemma mergeStep_cells (target : nat)
    (st : list (list jsstring) * option (list jsstring)) (row : list jsstring) :
  concat (fst (mergeStep target st row))
  ++ pendingCells (snd (mergeStep target st row))
  = (concat (fst st) ++ pendingCells (snd st)) ++ row.
Proof.
  destruct st as [merged pending]. unfold mergeStep. cbn [fst snd].
  destruct (length row =? target)%nat.
  - destruct pending as [p|]; cbn [fst snd pendingCells];
      rewrite !concat_app; cbn [concat]; rewrite ?app_nil_r, <- ?app_assoc;
      reflexivity.
  - assert (Hmid : forall m1 p1,
              concat m1 ++ p1 = (concat merged ++ pendingCells pending) ++ row ->
              concat (fst (if (target <=? length p1)%nat
                           then (m1 ++ [firstn target p1],
                                 if (target <? length p1)%nat
                                 then Some (skipn target p1) else None)
                           else (m1, Some p1)))
              ++ pendingCells (snd (if (target <=? length p1)%nat
                           then (m1 ++ [firstn target p1],
                                 if (target <? length p1)%nat
                                 then Some (skipn target p1) else None)
                           else (m1, Some p1)))
              = (concat merged ++ pendingCells pending) ++ row).
    { intros m1 p1 Heq.
      destruct (target <=? length p1)%nat eqn:Hle; cbn [fst snd pendingCells];
        [|exact Heq].
      rewrite concat_app. cbn [concat]. rewrite app_nil_r, <- app_assoc.
      destruct (target <? length p1)%nat eqn:Hlt; cbn [pendingCells].
      - now rewrite firstn_skipn.
      - apply Nat.leb_le in Hle. apply Nat.ltb_ge in Hlt.
        rewrite firstn_all2 by lia. now rewrite app_nil_r. }
    destruct pending as [p|]; cbn [pendingCells].
    + destruct ((length p <? target)%nat && (length row <? target)%nat).
      * apply Hmid. now rewrite !app_assoc.
      * apply Hmid. rewrite concat_app. cbn [concat].
        now rewrite app_nil_r.
    + apply Hmid. cbn [pendingCells]. now rewrite app_nil_r.
Qed.

Lemma mergeFold_cells (target : nat) (rows : list (list jsstring)) :
  forall st,
  concat (fst (fold_left (mergeStep target) rows st))
  ++ pendingCells (snd (fold_left (mergeStep target) rows st))
  = (concat (fst st) ++ pendingCells (snd st)) ++ concat rows.
Proof.
  induction rows as [|row rows IH]; intros st; cbn [fold_left concat].
  - now rewrite app_nil_r.
  - rewrite IH, mergeStep_cells. now rewrite <- !app_assoc.
Qed.

Lemma unfilled_row_cells (row : list jsstring) :
  someCellFilled row = false -> filter cellFilled row = [].
Proof.
  unfold someCellFilled, cellFilled.
  induction row as [|c r IH]; cbn [existsb filter]; [reflexivity|].
  intros H. apply orb_false_iff in H as [Hc Hr]. rewrite Hc. now apply IH.
Qed.

Lemma filled_cells_of_filled_rows (rows : list (list jsstring)) :
  filter cellFilled (concat (filter someCellFilled rows))
  = filter cellFilled (concat rows).
Proof.
  induction rows as [|row rows IH]; cbn [filter concat]; [reflexivity|].
  destruct (someCellFilled row) eqn:Hrow; cbn [concat];
    rewrite !filter_app, IH; [reflexivity|].
  now rewrite (unfilled_row_cells row Hrow).
Qed.

(** Reassembling ragged rows neither loses nor invents a cell that has
    content: the non-empty cells come out in the order they went in. *)
Theorem mergeRaggedRows_keeps_cells (csvRows : list (list jsstring)) :
  filter cellFilled (concat (mergeRaggedRows csvRows))
  = filter cellFilled (concat csvRows).
Proof.
  unfold mergeRaggedRows.
  pose proof (mergeFold_cells (targetColumnsOf csvRows) csvRows ([], None))
    as Hcells.
  destruct (fold_left _ csvRows ([], None)) as [merged pending].
  cbn [fst snd concat pendingCells app] in Hcells.
  rewrite filled_cells_of_filled_rows, <- Hcells.
  destruct pending as [p|]; cbn [pendingCells].
  - destruct (someCellFilled p) eqn:Hp.
    + rewrite concat_app. cbn [concat]. now rewrite app_nil_r.
    + now rewrite filter_app, (unfilled_row_cells p Hp), app_nil_r.
  - now rewrite app_nil_r.
Qed.

Lemma fold_max_ge (l : list nat) :
  forall a, (a <= fold_left Nat.max l a)%nat
            /\ forall n, In n l -> (n <= fold_left Nat.max l a)%nat.
Proof.
  induction l as [|x l IH]; intros a; cbn [fold_left].
  - split; [lia | intros n []].
  - destruct (IH (Nat.max a x)) as [Ha Hl]. split; [lia|].
    intros n [<- | Hn]; [lia | now apply Hl].
Qed.

Lemma targetColumnsOf_bound (csvRows : list (list jsstring)) (row : list jsstring) :
  In row csvRows -> (length row <= targetColumnsOf csvRows)%nat.
Proof.
  intros Hin. unfold targetColumnsOf.
  apply (proj2 (fold_max_ge _ 1)). now apply in_map.
Qed.

Lemma mergeStep_widths (target : nat)
    (st : list (list jsstring) * option (list jsstring)) (row : list jsstring) :
  (length row <= target)%nat ->
  Forall (fun r => (length r <= target)%nat) (fst st) ->
  (length (pendingCells (snd st)) < target \/ snd st = None)%nat ->
  Forall (fun r => (length r <= target)%nat) (fst (mergeStep target st row)) /\
  (length (pendingCells (snd (mergeStep target st row))) < target
   \/ snd (mergeStep target st row) = None)%nat.
Proof.
  destruct st as [merged pending]. cbn [fst snd]. intros Hrow Hm Hp.
  assert (Hpend : forall p, pending = Some p -> (length p < target)%nat).
  { intros p ->. destruct Hp as [Hp | Hp]; [exact Hp | discriminate]. }
  unfold mergeStep.
  destruct (length row =? target)%nat eqn:Hfull.
  - destruct pending as [p|]; cbn [fst snd]; split; auto.
    + rewrite !Forall_app. repeat split; auto; repeat constructor; auto.
      specialize (Hpend p eq_refl). lia.
    + rewrite Forall_app. split; auto.
  - apply Nat.eqb_neq in Hfull.
    assert (Hmid : forall m1 p1,
              Forall (fun r => (length r <= target)%nat) m1 ->
              (length p1 < 2 * target)%nat ->
              let st' := if (target <=? length p1)%nat
                         then (m1 ++ [firstn target p1],
                               if (target <? length p1)%nat
                               then Some (skipn target p1) else None)
                         else (m1, Some p1) in
              Forall (fun r => (length r <= target)%nat) (fst st') /\
              (length (pendingCells (snd st')) < target \/ snd st' = None)%nat).
    { intros m1 p1 Hm1 Hp1. cbv zeta.
      destruct (target <=? length p1)%nat eqn:Hle; cbn [fst snd].
      - apply Nat.leb_le in Hle. split.
        + rewrite Forall_app. split; auto. repeat constructor.
          rewrite length_firstn. lia.
        + destruct (target <? length p1)%nat; [left | now right].
          cbn [pendingCells]. rewrite length_skipn. lia.
      - apply Nat.leb_gt in Hle. split; auto. }
    destruct pending as [p|].
    + specialize (Hpend p eq_refl).
      destruct ((length p <? target)%nat && (length row <? target)%nat).
      * apply Hmid; auto. rewrite length_app. lia.
      * apply Hmid; [|lia]. rewrite Forall_app. split; auto.
        repeat constructor. lia.
    + apply Hmid; auto. lia.
Qed.

Lemma mergeFold_widths (target : nat) (rows : list (list jsstring)) :
  Forall (fun r => (length r <= target)%nat) rows ->
  forall st,
  Forall (fun r => (length r <= target)%nat) (fst st) ->
  (length (pendingCells (snd st)) < target \/ snd st = None)%nat ->
  Forall (fun r => (length r <= target)%nat)
         (fst (fold_left (mergeStep target) rows st)) /\
  (length (pendingCells (snd (fold_left (mergeStep target) rows st))) < target
   \/ snd (fold_left (mergeStep target) rows st) = None)%nat.
Proof.
  induction 1 as [|row rows Hrow _ IH]; intros st Hm Hp; cbn [fold_left].
  - auto.
  - destruct (mergeStep_widths target st row Hrow Hm Hp) as [Hm' Hp'].
    now apply IH.
Qed.

(** No reassembled row is wider than the widest row that came in, and none
    is blank. *)
Theorem mergeRaggedRows_widths (csvRows : list (list jsstring)) :
  Forall (fun row => (length row <= targetColumnsOf csvRows)%nat
                     /\ someCellFilled row = true)
         (mergeRaggedRows csvRows).
Proof.
  unfold mergeRaggedRows.
  destruct (mergeFold_widths (targetColumnsOf csvRows) csvRows) with
    (st := (@nil (list jsstring), @None (list jsstring))) as [Hm Hp].
  - apply Forall_forall. intros row. apply targetColumnsOf_bound.
  - constructor.
  - now right.
  - destruct (fold_left _ csvRows ([], None)) as [merged pending].
    cbn [fst snd] in Hm, Hp.
    apply Forall_forall. intros row Hin. apply filter_In in Hin as [Hin Hfilled].
    split; [|exact Hfilled].
    rewrite Forall_forall in Hm.
    destruct pending as [p|]; [destruct (someCellFilled p)|]; auto.
    apply in_app_iff in Hin as [Hin | [<- | []]]; auto.
    destruct Hp as [Hp | Hp]; [cbn [pendingCells] in Hp; lia | discriminate].
Qed.

Lemma mergeFold_rectangular (target : nat) (rows : list (list jsstring)) :
  Forall (fun r => length r = target) rows ->
  forall merged,
  fold_left (mergeStep target) rows (merged, None) = (merged ++ rows, None).
Proof.
  induction 1 as [|row rows Hrow _ IH]; intros merged; cbn [fold_left].
  - now rewrite app_nil_r.
  - unfold mergeStep at 2. rewrite (proj2 (Nat.eqb_eq _ _) Hrow).
    rewrite IH. now rewrite <- app_assoc.
Qed.

(** Rows that all have the same number of cells, none of them blank, pass
    through the reassembly untouched. *)
Theorem mergeRaggedRows_rectangular (csvRows : list (list jsstring)) (width : nat) :
  Forall (fun row => length row = width) csvRows ->
  Forall (fun row => someCellFilled row = true) csvRows ->
  mergeRaggedRows csvRows = csvRows.
Proof.
  intros Hw Hf.
  destruct csvRows as [|first rest]; [reflexivity|].
  assert (Htarget : targetColumnsOf (first :: rest) = width).
  { assert (H1 : (1 <= width)%nat).
    { inversion Hw as [|? ? Hlen _]; inversion Hf as [|? ? Hfill _]; subst.
      destruct first; [discriminate Hfill | cbn [length]; lia]. }
    unfold targetColumnsOf.
    assert (Hfold : forall l a, Forall (fun n => n = width) l ->
                      (a <= width)%nat -> l <> [] ->
                      fold_left Nat.max l a = width).
    { induction l as [|x l IHl]; intros a Hl Ha Hne; [contradiction|].
      inversion Hl; subst. cbn [fold_left].
      destruct l as [|y l]; [cbn [fold_left]; lia|].
      apply IHl; auto; [lia | discriminate]. }
    apply Hfold; [|exact H1 | discriminate].
    apply Forall_map. exact Hw. }
  unfold mergeRaggedRows. rewrite Htarget.
  rewrite (mergeFold_rectangular width (first :: rest) Hw []).
  cbn [app]. apply forallb_filter_id. apply forallb_forall.
  rewrite Forall_forall in Hf. exact Hf.
Qed.

Lemma mergeRaggedRows_rectangular_witness :
  mergeRaggedRows [[js "a"; js "b"]; [js "c"; []]] = [[js "a"; js "b"]; [js "c"; []]].
Proof.
  apply (mergeRaggedRows_rectangular _ 2); repeat constructor.
Defined.

(** ** The odds source: filled grids and selection labels *)

Lemma flat_map_pairs {A B : Type} (P : A -> B -> bool) (l1 : list A) (l2 : list B) :
  flat_map (fun a => flat_map (fun b => if P a b then [(a, b)] else []) l2) l1
  = filter (fun p => P (fst p) (snd p)) (list_prod l1 l2).
Proof.
  induction l1 as [|a l1 IH]; cbn [flat_map list_prod]; [reflexivity|].
  rewrite filter_app, IH. f_equal.
  clear IH. induction l2 as [|b l2 IH]; cbn [flat_map List.map filter];
    [reflexivity|].
  cbn [fst snd]. destruct (P a b); cbn [app]; now rewrite IH.
Qed.

Lemma missing_combos_filter {num : Type} `{JsNumber num} (grid : OddsGrid num) :
  flat_map (fun away =>
              flat_map (fun home =>
                          match finiteOdds grid away home with
                          | Some _ => []
                          | None => [(away, home)]
                          end)
                       DIGITS)
           DIGITS
  = filter (gridMissing grid) digitPairs.
Proof.
  unfold digitPairs.
  change (gridMissing grid)
    with (fun p : Z * Z => match finiteOdds grid (fst p) (snd p) with
                           | Some _ => false | None => true end).
  rewrite <- (flat_map_pairs
                (fun a h => match finiteOdds grid a h with
                            | Some _ => false | None => true end)).
  apply flat_map_ext; intros a. apply flat_map_ext; intros h.
  now destruct (finiteOdds grid a h).
Qed.

Lemma assertFilledGrid_None {num : Type} `{JsNumber num}
    (grid : OddsGrid num) (label : jsstring) :
  assertFilledGrid grid label = None ->
  forall p, In p digitPairs -> gridMissing grid p = false.
Proof.
  unfold assertFilledGrid. rewrite missing_combos_filter.
  destruct (filter (gridMissing grid) digitPairs) as [|q l] eqn:Hf;
    [|discriminate].
  intros _ p Hp. destruct (gridMissing grid p) eqn:Hm; [|reflexivity].
  assert (Hin : In p (filter (gridMissing grid) digitPairs))
    by (apply filter_In; auto).
  rewrite Hf in Hin. contradiction.
Qed.

(** [assertFilledGrid] returns normally exactly when all 100 digit pairs have
    a finite entry; otherwise its error carries the market label, the number
    of missing pairs (between 1 and 100) and, as a sample, the first eight of
    them in row-major order. *)
Theorem assertFilledGrid_report {num : Type} `{JsNumber num}
    (grid : OddsGrid num) (label : jsstring) :
  let missing := filter (gridMissing grid) digitPairs in
  match assertFilledGrid grid label with
  | None => missing = []
  | Some report =>
      mc_marketLabel report = label /\
      mc_count report = length missing /\
      (1 <= mc_count report <= 100)%nat /\
      mc_sample report = firstn 8 missing /\
      (length (mc_sample report) <= 8)%nat
  end.
Proof.
  intros missing. unfold assertFilledGrid. rewrite missing_combos_filter.
  fold missing.
  destruct (0 <? length missing)%nat eqn:Hpos.
  - apply Nat.ltb_lt in Hpos. cbn [mc_marketLabel mc_count mc_sample].
    assert (Hle : (length missing <= 100)%nat).
    { unfold missing.
      apply (Nat.le_trans _ (length digitPairs)); [apply filter_length_le|].
      apply Nat.eq_le_incl. reflexivity. }
    repeat split; auto.
    unfold slice. rewrite length_firstn. cbn [skipn]. lia.
  - apply Nat.ltb_ge in Hpos. destruct missing; [reflexivity|].
    cbn [length] in Hpos. lia.
Qed.

Lemma analysis_Err_inv {num : Type} `{JsNumber num}
    (board : SquaresBoard) (odds : DraftKingsSquaresOdds num)
    (squarePrice fw qw : num) (e : error) :
  computeSquaresAnalysis board odds squarePrice fw qw = Err e ->
  (exists which, e = MalformedDigitAxis which) \/ e = MalformedBoardShape
  \/ e = DegenerateProbabilityMass \/ combinedRawGrid odds fw qw = Err e.
Proof.
  unfold computeSquaresAnalysis.
  destruct (isValidDigitArray (homeDigits board)); cbn [negb].
  2: { intros He; inversion He; eauto. }
  destruct (isValidDigitArray (awayDigits board)); cbn [negb].
  2: { intros He; inversion He; eauto. }
  destruct (negb _ || existsb _ _).
  { intros He; inversion He; auto. }
  destruct (combinedRawGrid odds fw qw) as [g|e']; cbn [bind].
  - destruct (nleb _ _); [|discriminate].
    intros He; inversion He; auto.
  - intros He; inversion He; auto.
Qed.

(** Odds whose two grids both pass [assertFilledGrid] never make
    [computeSquaresAnalysis] fail for missing odds, whatever the board, the
    price and the weights. *)
Theorem filled_grids_never_missing {num : Type} `{JsNumber num}
    (odds : DraftKingsSquaresOdds num) (labelA labelF : jsstring)
    (board : SquaresBoard) (squarePrice fw qw : num) (away home : Z) :
  assertFilledGrid (anyQuarterOdds odds) labelA = None ->
  assertFilledGrid (finalResultOdds odds) labelF = None ->
  computeSquaresAnalysis board odds squarePrice fw qw
  <> Err (IncompleteOddsCoverage away home).
Proof.
  intros Ha Hf He.
  apply analysis_Err_inv in He as [[w Hw] | [Hs | [Hd | Hg]]];
    try discriminate.
  apply combinedRawGrid_Err in Hg as [Hi | (a & h & Hin & Hm & _)];
    [discriminate|].
  pose proof (assertFilledGrid_None _ _ Ha (a, h) Hin) as HmA.
  pose proof (assertFilledGrid_None _ _ Hf (a, h) Hin) as HmF.
  unfold missingOdds in Hm. unfold gridMissing in HmA, HmF.
  destruct (finiteOdds (finalResultOdds odds) _ _); [|discriminate].
  destruct (finiteOdds (anyQuarterOdds odds) _ _); discriminate.
Qed.

Lemma filled_grids_never_missing_witness :
  computeSquaresAnalysis sampleBoard (uniformOdds (-110))
                         3%float 0.2%float 0.8%float
  <> Err (IncompleteOddsCoverage 0 0).
Proof.
  apply (filled_grids_never_missing (uniformOdds (-110))
           (js "Any Quarter") (js "Final Result")); reflexivity.
Defined.

Lemma isDecDigit_value (c : jschar) :
  isDecDigit c = true -> (0 <= digitValue c <= 9)%Z.
Proof.
  unfold isDecDigit, digitValue. intros Hc.
  apply andb_true_iff in Hc as [Hlo Hhi].
  apply N.leb_le in Hlo, Hhi. lia.
Qed.

Lemma dropWhile_spaces (ws rest : jsstring) (c : jschar) :
  Forall (fun x => isSpace x = true) ws -> isSpace c = false ->
  dropWhile isSpace (ws ++ c :: rest) = c :: rest.
Proof.
  intros Hws Hc. induction Hws as [|x ws Hx _ IH]; cbn [app dropWhile].
  - now rewrite Hc.
  - now rewrite Hx.
Qed.

Lemma isDecDigit_visible (c : jschar) : isDecDigit c = true -> isSpace c = false.
Proof.
  unfold isDecDigit. intros Hc. apply andb_true_iff in Hc as [Hlo Hhi].
  apply N.leb_le in Hlo, Hhi. unfold isSpace.
  repeat (apply orb_false_iff; split);
    try (apply andb_false_iff; (left; apply N.leb_gt; lia)
                               || (right; apply N.leb_gt; lia));
    apply N.eqb_neq; lia.
Qed.

Lemma matchDigitsAt_sound (s : jsstring) (g1 g2 : jschar) :
  matchDigitsAt s = Some (g1, g2) -> digitPairAt s g1 g2.
Proof.
  unfold matchDigitsAt. destruct s as [|d1 rest]; [discriminate|].
  destruct (isDecDigit d1) eqn:Hd1; [|discriminate].
  destruct (dropWhile_split isSpace rest) as (ws1 & Hrest & Hws1).
  destruct (dropWhile isSpace rest) as [|dash rest2]; [discriminate|].
  destruct (dash =? 45)%N eqn:Hdash; [|discriminate].
  apply N.eqb_eq in Hdash. subst dash.
  destruct (dropWhile_split isSpace rest2) as (ws2 & Hrest2 & Hws2).
  destruct (dropWhile isSpace rest2) as [|d2 post]; [discriminate|].
  destruct (isDecDigit d2) eqn:Hd2; [|discriminate].
  intros Hm; inversion Hm; subst g1 g2.
  exists ws1, ws2, post. rewrite Hrest at 1. rewrite Hrest2 at 1. auto.
Qed.

Lemma matchDigitsAt_complete (s : jsstring) (g1 g2 : jschar) :
  digitPairAt s g1 g2 -> matchDigitsAt s = Some (g1, g2).
Proof.
  intros (ws1 & ws2 & post & -> & Hg1 & Hg2 & Hws1 & Hws2).
  unfold matchDigitsAt. rewrite Hg1.
  rewrite (dropWhile_spaces ws1 _ 45%N Hws1) by reflexivity.
  rewrite N.eqb_refl.
  rewrite (dropWhile_spaces ws2 _ g2 Hws2) by now apply isDecDigit_visible.
  now rewrite Hg2.
Qed.

(** [matchDigits] returns the groups of the leftmost position where the
    pattern matches, and nothing when it matches nowhere. *)
Lemma matchDigits_leftmost (label : jsstring) :
  match matchDigits label with
  | Some groups =>
      exists pre s,
        label = pre ++ s /\ matchDigitsAt s = Some groups /\
        forall pre' s', label = pre' ++ s' ->
                        (length pre' < length pre)%nat ->
                        matchDigitsAt s' = None
  | None => forall pre' s', label = pre' ++ s' -> matchDigitsAt s' = None
  end.
Proof.
  induction label as [|c rest IH]; cbn [matchDigits].
  - intros pre' s' Hsplit. symmetry in Hsplit.
    apply app_eq_nil in Hsplit as [_ ->]. reflexivity.
  - destruct (matchDigitsAt (c :: rest)) as [groups|] eqn:Hat.
    + exists [], (c :: rest). repeat split; auto.
      intros pre' s' _ Hlt. cbn [length] in Hlt. lia.
    + destruct (matchDigits rest) as [groups|].
      * destruct IH as (pre & s & Hsplit & Hs & Hleft).
        exists (c :: pre), s. repeat split; [now rewrite Hsplit | exact Hs |].
        intros [|c' pre'] s' Hsplit' Hlt.
        -- cbn [app] in Hsplit'. now subst s'.
        -- cbn [app] in Hsplit'. inversion Hsplit' as [[Hc Hrest]].
           apply (Hleft pre' s' Hrest). cbn [length] in Hlt. lia.
      * intros [|c' pre'] s' Hsplit'.
        -- cbn [app] in Hsplit'. now subst s'.
        -- cbn [app] in Hsplit'. inversion Hsplit' as [[Hc Hrest]].
           now apply (IH pre' s').
Qed.

(** [parseDigitsFromSelectionLabel] answers exactly when some place of the
    label reads digit, hyphen, digit with only white space allowed around
    the hyphen.  It then reads the leftmost such place: the first digit is
    the home digit, the second the away digit, both within 0..9, so the
    integer and range checks after the match never reject.  When no place
    of the label reads so, it answers nothing. *)
Theorem parseDigitsFromSelectionLabel_sound (label : jsstring) :
  match parseDigitsFromSelectionLabel label with
  | Some (homeDigit, awayDigit) =>
      exists pre s g1 g2,
        label = pre ++ s /\ digitPairAt s g1 g2 /\
        homeDigit = digitValue g1 /\ awayDigit = digitValue g2 /\
        (0 <= homeDigit <= 9)%Z /\ (0 <= awayDigit <= 9)%Z /\
        forall pre' s' g1' g2',
          label = pre' ++ s' -> digitPairAt s' g1' g2' ->
          (length pre <= length pre')%nat
  | None =>
      forall pre s g1 g2, label = pre ++ s -> ~ digitPairAt s g1 g2
  end.
Proof.
  unfold parseDigitsFromSelectionLabel.
  pose proof (matchDigits_leftmost label) as Hleft.
  destruct (matchDigits label) as [[g1 g2]|].
  - destruct Hleft as (pre & s & Hsplit & Hs & Hleft).
    apply matchDigitsAt_sound in Hs. pose proof Hs as Hpair.
    destruct Hs as (_ & _ & _ & _ & H1 & H2 & _).
    pose proof (isDecDigit_value g1 H1) as Hv1.
    pose proof (isDecDigit_value g2 H2) as Hv2.
    replace ((digitValue g1 <? 0) || (9 <? digitValue g1)
             || (digitValue g2 <? 0) || (9 <? digitValue g2))%Z with false
      by (symmetry; rewrite !orb_false_iff, !Z.ltb_ge; lia).
    exists pre, s, g1, g2. repeat split; try assumption; try lia.
    intros pre' s' g1' g2' Hsplit' Hpair'.
    destruct (Nat.le_gt_cases (length pre) (length pre')) as [Hle | Hlt];
      [exact Hle|].
    apply matchDigitsAt_complete in Hpair'.
    rewrite (Hleft pre' s' Hsplit' Hlt) in Hpair'. discriminate.
  - intros pre s g1 g2 Hsplit Hpair.
    apply matchDigitsAt_complete in Hpair.
    rewrite (Hleft pre s Hsplit) in Hpair. discriminate.
Qed.

Example selection_label_examples :
  parseDigitsFromSelectionLabel (js "Chiefs 3 - Eagles 7") = None /\
  parseDigitsFromSelectionLabel (js "3 - 7") = Some (3, 7)%Z /\
  parseDigitsFromSelectionLabel (js "10-3") = Some (0, 3)%Z.
Proof. repeat split. Qed.

(** ** Edit distance *)

Lemma levenshtein_cons (x y : jschar) (a b : jsstring) :
  levenshtein (x :: a) (y :: b)
  = Nat.min (Nat.min (levenshtein a (y :: b) + 1) (levenshtein (x :: a) b + 1))
            (levenshtein a b + (if (x =? y)%N then 0 else 1)).
Proof. reflexivity. Qed.

Lemma levenshtein_nil_r (a : jsstring) : levenshtein a [] = length a.
Proof. destruct a; reflexivity. Qed.

Lemma editRow_spec (ai : jschar) (ra : jsstring) (bs : jsstring) :
  forall pb prev left,
  prev = List.map (fun j => levenshtein ra (rev (pb ++ firstn j bs)))
                  (seq 0 (S (length bs))) ->
  left = levenshtein (ai :: ra) (rev pb) ->
  editRow ai bs prev left
  = List.map (fun j => levenshtein (ai :: ra) (rev (pb ++ firstn (S j) bs)))
             (seq 0 (length bs)).
Proof.
  induction bs as [|bj bs IH]; intros pb prev left Hprev Hleft.
  - reflexivity.
  - cbn [length] in Hprev. cbn [seq List.map] in Hprev.
    rewrite <- seq_shift, map_map in Hprev. cbn [seq List.map] in Hprev.
    rewrite <- seq_shift, map_map in Hprev.
    cbn [firstn] in Hprev. rewrite app_nil_r in Hprev.
    subst prev. cbn [editRow length seq List.map].
    assert (Hv : Nat.min
                   (Nat.min (levenshtein ra (rev (pb ++ [bj])) + 1) (left + 1))
                   (levenshtein ra (rev pb) + (if (ai =? bj)%N then 0 else 1))
                 = levenshtein (ai :: ra) (rev (pb ++ [bj]))).
    { rewrite rev_app_distr. cbn [rev app].
      rewrite levenshtein_cons. now subst left. }
    cbn [firstn]. rewrite Hv. f_equal.
    rewrite <- seq_shift, map_map.
    rewrite (IH (pb ++ [bj])).
    + apply map_ext; intros j. now rewrite <- app_assoc.
    + cbn [length seq List.map]. cbn [firstn]. rewrite app_nil_r. f_equal.
      rewrite <- seq_shift, !map_map.
      apply map_ext; intros j. cbn [firstn]. now rewrite <- app_assoc.
    + reflexivity.
Qed.

Lemma editFold_spec (b : jsstring) (rest : jsstring) :
  forall pa,
  fold_left (editStep b) rest
    (length pa,
     List.map (fun j => levenshtein (rev pa) (rev (firstn j b)))
              (seq 0 (S (length b))))
  = (length (pa ++ rest),
     List.map (fun j => levenshtein (rev (pa ++ rest)) (rev (firstn j b)))
              (seq 0 (S (length b)))).
Proof.
  induction rest as [|ai rest IH]; intros pa; cbn [fold_left].
  - now rewrite app_nil_r.
  - unfold editStep at 2.
    rewrite (editRow_spec ai (rev pa) b [] _ (S (length pa)));
      [| reflexivity
       | cbn [rev]; rewrite levenshtein_nil_r; cbn [length];
         now rewrite length_rev].
    replace (pa ++ ai :: rest) with ((pa ++ [ai]) ++ rest)
      by (now rewrite <- app_assoc).
    rewrite <- IH. f_equal. f_equal.
    + rewrite length_app. cbn [length]. lia.
    + cbn [seq List.map]. rewrite rev_app_distr. cbn [rev app firstn].
      rewrite levenshtein_nil_r. cbn [length]. rewrite length_rev. f_equal.
      rewrite <- seq_shift, map_map. reflexivity.
Qed.

Lemma last_map_seq {A : Type} (f : nat -> A) (n : nat) (d : A) :
  last (List.map f (seq 0 (S n))) d = f n.
Proof.
  rewrite seq_S, map_app. cbn [List.map Nat.add]. apply last_last.
Qed.

Lemma editDistance_recurrence (a b : jsstring) :
  editDistance a b = levenshtein (rev a) (rev b).
Proof.
  unfold editDistance.
  pose proof (editFold_spec b a []) as Hfold. cbn [length rev app] in Hfold.
  assert (Hrow0 : seq 0 (S (length b))
                  = List.map (fun j => levenshtein [] (rev (firstn j b)))
                             (seq 0 (S (length b)))).
  { rewrite <- (map_id (seq 0 (S (length b)))) at 1.
    apply map_ext_in. intros j Hj. apply in_seq in Hj.
    cbn [levenshtein]. rewrite length_rev, length_firstn. lia. }
  rewrite Hrow0, Hfold. cbn [snd].
  rewrite last_map_seq. now rewrite firstn_all.
Qed.

Lemma levenshtein_refl (a : jsstring) : levenshtein a a = 0%nat.
Proof.
  induction a as [|x a IH]; [reflexivity|].
  rewrite levenshtein_cons, N.eqb_refl, IH. lia.
Qed.

Lemma levenshtein_sym (a : jsstring) :
  forall b, levenshtein a b = levenshtein b a.
Proof.
  induction a as [|x a IHa]; intros b.
  - now rewrite levenshtein_nil_r.
  - induction b as [|y b IHb].
    + now rewrite levenshtein_nil_r.
    + rewrite !levenshtein_cons, IHb, (IHa (y :: b)), (IHa b), (N.eqb_sym x y).
      lia.
Qed.

Lemma levenshtein_bounds (a : jsstring) :
  forall b,
  (levenshtein a b <= Nat.max (length a) (length b))%nat /\
  (length a <= levenshtein a b + length b)%nat /\
  (length b <= levenshtein a b + length a)%nat.
Proof.
  induction a as [|x a IHa]; intros b.
  - cbn [levenshtein length]. lia.
  - induction b as [|y b IHb].
    + rewrite levenshtein_nil_r. cbn [length]. lia.
    + rewrite levenshtein_cons.
      destruct (IHa (y :: b)) as (U1 & L1 & R1).
      destruct (IHa b) as (U2 & L2 & R2).
      destruct IHb as (U3 & L3 & R3).
      cbn [length] in *.
      destruct (x =? y)%N; lia.
Qed.

(** [editDistance] fills its table with the Levenshtein recurrence, read on
    the last characters of the two words.  So it is zero between a word and
    itself, symmetric, at most the longer length and at least the difference
    of the lengths. *)
Theorem editDistance_levenshtein (a b : jsstring) :
  editDistance a b = levenshtein (rev a) (rev b) /\
  editDistance a a = 0%nat /\
  editDistance a b = editDistance b a /\
  (editDistance a b <= Nat.max (length a) (length b))%nat /\
  (length a <= editDistance a b + length b)%nat /\
  (length b <= editDistance a b + length a)%nat.
Proof.
  rewrite !editDistance_recurrence.
  destruct (levenshtein_bounds (rev a) (rev b)) as (U & L & R).
  rewrite !length_rev in *.
  repeat split; auto.
  - apply levenshtein_refl.
  - apply levenshtein_sym.
Qed.

(** ** Tab-separated text, there and back *)

Lemma splitOn_plain (sep : jschar) (s : jsstring) :
  Forall (fun c => c <> sep) s -> splitOn sep s = [s].
Proof.
  induction 1 as [|c s Hc _ IH]; [reflexivity|].
  cbn [splitOn]. apply N.eqb_neq in Hc. now rewrite Hc, IH.
Qed.

Lemma splitOn_app (sep : jschar) (s rest : jsstring) :
  Forall (fun c => c <> sep) s ->
  splitOn sep (s ++ sep :: rest) = s :: splitOn sep rest.
Proof.
  induction 1 as [|c s Hc _ IH]; cbn [app splitOn].
  - now rewrite N.eqb_refl.
  - apply N.eqb_neq in Hc. now rewrite Hc, IH.
Qed.

Lemma splitOn_joinWith (sep : jschar) (parts : list jsstring) :
  parts <> [] ->
  Forall (Forall (fun c => c <> sep)) parts ->
  splitOn sep (joinWith sep parts) = parts.
Proof.
  induction parts as [|p rest IH]; intros Hne Hplain; [contradiction|].
  inversion Hplain as [|? ? Hp Hrest]; subst.
  destruct rest as [|q rest].
  - cbn [joinWith]. now apply splitOn_plain.
  - change (joinWith sep (p :: q :: rest))
      with (p ++ sep :: joinWith sep (q :: rest)).
    rewrite splitOn_app by assumption. f_equal.
    apply IH; [discriminate | assumption].
Qed.

Lemma joinWith_last (sep : jschar) (parts : list jsstring) :
  parts <> [] -> exists pre, joinWith sep parts = pre ++ last parts [].
Proof.
  induction parts as [|p rest IH]; intros Hne; [contradiction|].
  destruct rest as [|q rest].
  - exists []. reflexivity.
  - destruct IH as [pre Hpre]; [discriminate|].
    exists (p ++ sep :: pre).
    change (joinWith sep (p :: q :: rest))
      with (p ++ sep :: joinWith sep (q :: rest)).
    rewrite Hpre. change (last (p :: q :: rest) []) with (last (q :: rest) []).
    now rewrite <- app_assoc.
Qed.

Lemma joinWith_chars (P : jschar -> Prop) (sep : jschar) (parts : list jsstring) :
  P sep -> Forall (Forall P) parts -> Forall P (joinWith sep parts).
Proof.
  intros Hsep. induction 1 as [|p rest Hp Hrest IH]; [constructor|].
  destruct rest as [|q rest]; [exact Hp|].
  change (joinWith sep (p :: q :: rest))
    with (p ++ sep :: joinWith sep (q :: rest)).
  apply Forall_app. split; [exact Hp|]. constructor; [exact Hsep | exact IH].
Qed.

Lemma endsVisible_app (pre s : jsstring) :
  endsVisible s = true -> endsVisible (pre ++ s) = true.
Proof.
  unfold endsVisible. rewrite rev_app_distr.
  destruct (rev s) as [|c r]; [discriminate|]. now cbn [app].
Qed.

Lemma endsVisible_inv (s : jsstring) :
  endsVisible s = true ->
  exists pre c, s = pre ++ [c] /\ isSpace c = false.
Proof.
  unfold endsVisible. destruct (rev s) as [|c r] eqn:Hrev; [discriminate|].
  intros Hc. apply negb_true_iff in Hc. exists (rev r), c. split; [|exact Hc].
  rewrite <- (rev_involutive s), Hrev. reflexivity.
Qed.

Lemma dropWhileEnd_visible (s : jsstring) :
  endsVisible s = true -> dropWhileEnd isSpace s = s.
Proof.
  intros Hs. apply endsVisible_inv in Hs as (pre & c & -> & Hc).
  unfold dropWhileEnd. rewrite rev_app_distr. cbn [rev app dropWhile].
  rewrite Hc. cbn [rev]. now rewrite rev_involutive.
Qed.

Lemma dropWhile_visible (s : jsstring) :
  endsVisible s = true -> endsVisible (dropWhile isSpace s) = true.
Proof.
  intros Hs. apply endsVisible_inv in Hs as (pre & c & -> & Hc).
  induction pre as [|x pre IH]; cbn [app dropWhile].
  - rewrite Hc. unfold endsVisible. cbn [rev app]. now rewrite Hc.
  - destruct (isSpace x); [exact IH|].
    apply (endsVisible_app (x :: pre) [c]).
    unfold endsVisible. cbn [rev app]. now rewrite Hc.
Qed.

Lemma trim_visible (s : jsstring) :
  endsVisible s = true -> endsVisible (trim s) = true.
Proof.
  intros Hs. unfold trim. apply dropWhile_visible in Hs.
  now rewrite dropWhileEnd_visible.
Qed.

Lemma endsVisible_nonempty (s : jsstring) : endsVisible s = true -> s <> [].
Proof. intros Hs ->. discriminate Hs. Qed.

Lemma collapseSpaces_visible (s : jsstring) (c : jschar) :
  isSpace c = false ->
  forall b, collapseSpaces b (s ++ [c]) = collapseSpaces b s ++ [c].
Proof.
  intros Hc. induction s as [|x s IH]; intros b; cbn [app collapseSpaces].
  - now rewrite Hc.
  - destruct (isSpace x); [destruct b|]; now rewrite IH.
Qed.

Lemma normalizeCell_visible (cell : jsstring) :
  endsVisible cell = true -> endsVisible (normalizeCell cell) = true.
Proof.
  intros Hs. unfold normalizeCell. apply trim_visible.
  apply endsVisible_inv in Hs as (pre & c & -> & Hc).
  rewrite collapseSpaces_visible by exact Hc.
  apply endsVisible_app. unfold endsVisible. cbn [rev app]. now rewrite Hc.
Qed.

Lemma removeFences_plain (s : jsstring) :
  Forall (fun c => c <> 96%N) s -> removeFences s = s.
Proof.
  induction 1 as [|c s Hc _ IH]; [reflexivity|].
  cbn [removeFences]. apply N.eqb_neq in Hc.
  destruct s as [|c2 [|c3 s]]; rewrite ?Hc; cbn [andb]; now rewrite IH.
Qed.

Lemma afterLastLeadingLf_stops (s t : jsstring) (c : jschar) :
  Forall (fun x => x <> 10%N) s -> isSpace c = false ->
  forall pos, afterLastLeadingLf (s ++ c :: t) pos None = None.
Proof.
  intros Hs Hc. induction Hs as [|x s Hx _ IH]; intros pos;
    cbn [app afterLastLeadingLf].
  - now rewrite Hc.
  - destruct (isSpace x); [|reflexivity].
    apply N.eqb_neq in Hx. rewrite Hx. apply IH.
Qed.

Lemma filter_all {A : Type} (p : A -> bool) (l : list A) :
  Forall (fun x => p x = true) l -> filter p l = l.
Proof.
  induction 1 as [|x l Hx _ IH]; [reflexivity|].
  cbn [filter]. now rewrite Hx, IH.
Qed.

Lemma map_fixed {A : Type} (f : A -> A) (l : list A) :
  Forall (fun x => f x = x) l -> List.map f l = l.
Proof.
  induction 1 as [|x l Hx _ IH]; [reflexivity|].
  cbn [List.map]. now rewrite Hx, IH.
Qed.

Lemma plainChar_inv (c : jschar) :
  plainChar c = true ->
  c <> 9%N /\ c <> 10%N /\ c <> 13%N /\ c <> 96%N /\ c <> 160%N /\
  c <> 65292%N.
Proof.
  unfold plainChar. intros H. apply negb_true_iff in H.
  repeat (apply orb_false_iff in H; destruct H as [H ?]).
  repeat match goal with
         | E : (_ =? _)%N = false |- _ => apply N.eqb_neq in E
         end.
  tauto.
Qed.

Lemma plainRow_line_chars (P : jschar -> Prop) (row : list jsstring) :
  P 9%N -> (forall c, plainChar c = true -> P c) ->
  plainRow row -> Forall P (joinWith 9%N row).
Proof.
  intros H9 HP (_ & Hcells & _). apply joinWith_chars; [exact H9|].
  eapply Forall_impl; [|exact Hcells].
  intros cell Hcell. eapply Forall_impl; [|exact Hcell]. exact HP.
Qed.

Lemma plainRow_line_visible (row : list jsstring) :
  plainRow row -> endsVisible (joinWith 9%N row) = true.
Proof.
  intros (Hne & _ & Hlast).
  destruct (joinWith_last 9%N row Hne) as [pre ->].
  now apply endsVisible_app.
Qed.

Lemma plainRows_text_chars (P : jschar -> Prop) (rows : list (list jsstring)) :
  P 9%N -> P 10%N -> (forall c, plainChar c = true -> P c) ->
  Forall plainRow rows -> Forall P (gridText 9%N rows).
Proof.
  intros H9 H10 HP Hrows. unfold gridText.
  apply joinWith_chars; [exact H10|].
  apply Forall_map. eapply Forall_impl; [|exact Hrows].
  intros row Hrow. now apply plainRow_line_chars.
Qed.

Lemma plainRows_text_visible (rows : list (list jsstring)) :
  rows <> [] -> Forall plainRow rows ->
  endsVisible (gridText 9%N rows) = true.
Proof.
  intros Hne Hrows. unfold gridText.
  assert (Hlines : List.map (joinWith 9%N) rows <> [])
    by (destruct rows; [contradiction | discriminate]).
  destruct (joinWith_last 10%N _ Hlines) as [pre ->].
  apply endsVisible_app.
  destruct (exists_last Hne) as (front & row & ->).
  rewrite map_app. cbn [List.map]. rewrite last_last.
  apply plainRow_line_visible.
  apply Forall_app in Hrows as [_ Hrow]. now inversion Hrow.
Qed.

Lemma stripLeadingBlankLines_plain (rows : list (list jsstring)) :
  rows <> [] -> Forall plainRow rows ->
  stripLeadingBlankLines (gridText 9%N rows) = gridText 9%N rows.
Proof.
  intros Hne Hrows. destruct rows as [|row rest]; [contradiction|].
  inversion Hrows as [|? ? Hrow Hrest]; subst.
  assert (Hline := plainRow_line_visible row Hrow).
  apply endsVisible_inv in Hline as (pre & c & Hline & Hc).
  assert (Hpre : Forall (fun x => x <> 10%N) pre).
  { assert (H : Forall (fun x => x <> 10%N) (joinWith 9%N row)).
    { apply plainRow_line_chars; [discriminate| |exact Hrow].
      intros x Hx. apply plainChar_inv in Hx. tauto. }
    rewrite Hline in H. now apply Forall_app in H as [H _]. }
  assert (Htext : exists t, gridText 9%N (row :: rest) = pre ++ c :: t).
  { unfold gridText. cbn [List.map]. rewrite Hline.
    destruct (List.map (joinWith 9%N) rest) as [|l ls].
    - exists []. reflexivity.
    - exists (10%N :: joinWith 10%N (l :: ls)).
      change (joinWith 10%N ((pre ++ [c]) :: l :: ls))
        with ((pre ++ [c]) ++ 10%N :: joinWith 10%N (l :: ls)).
      now rewrite <- app_assoc. }
  destruct Htext as [t Htext]. unfold stripLeadingBlankLines.
  rewrite Htext at 1. now rewrite afterLastLeadingLf_stops.
Qed.

Lemma stripTrailingBlankLines_visible (text : jsstring) :
  endsVisible text = true -> stripTrailingBlankLines text = text.
Proof.
  intros Hs. apply endsVisible_inv in Hs as (pre & c & -> & Hc).
  unfold stripTrailingBlankLines, stripLeadingBlankLines.
  rewrite rev_app_distr. cbn [rev app afterLastLeadingLf]. rewrite Hc.
  rewrite <- (rev_involutive pre) at 2.
  change (c :: rev pre) with ([c] ++ rev pre).
  now rewrite rev_app_distr, rev_involutive.
Qed.

Lemma cleanText_plain (rows : list (list jsstring)) :
  rows <> [] -> Forall plainRow rows ->
  unwrapWith wrappers (trim (gridText 9%N rows)) = None ->
  cleanText (gridText 9%N rows) = gridText 9%N rows.
Proof.
  intros Hne Hrows Hwrap. unfold cleanText, unwrapTextBlock. rewrite Hwrap.
  rewrite stripLeadingBlankLines_plain by assumption.
  rewrite stripTrailingBlankLines_visible
    by now apply plainRows_text_visible.
  assert (Hchars : Forall (fun c => c <> 13%N /\ c <> 96%N /\ c <> 160%N
                                    /\ c <> 65292%N) (gridText 9%N rows)).
  { apply plainRows_text_chars; [repeat split; discriminate ..| |exact Hrows].
    intros c Hc. apply plainChar_inv in Hc. tauto. }
  rewrite (map_fixed (fun c => if (c =? 160)%N then 32%N else c)).
  2:{ eapply Forall_impl; [|exact Hchars]. intros c (_ & _ & H & _).
      apply N.eqb_neq in H. now rewrite H. }
  rewrite (map_fixed (fun c => if (c =? 65292)%N then 44%N else c)).
  2:{ eapply Forall_impl; [|exact Hchars]. intros c (_ & _ & _ & H).
      apply N.eqb_neq in H. now rewrite H. }
  rewrite filter_all.
  2:{ eapply Forall_impl; [|exact Hchars]. intros c (H & _).
      apply N.eqb_neq in H. now rewrite H. }
  apply removeFences_plain.
  eapply Forall_impl; [|exact Hchars]. intros c (_ & H & _). exact H.
Qed.

Lemma textLines_plain (rows : list (list jsstring)) :
  rows <> [] -> Forall plainRow rows ->
  textLines (gridText 9%N rows) = List.map (joinWith 9%N) rows.
Proof.
  intros Hne Hrows. unfold textLines, gridText.
  rewrite splitOn_joinWith.
  2:{ destruct rows; [contradiction | discriminate]. }
  2:{ apply Forall_map. eapply Forall_impl; [|exact Hrows].
      intros row Hrow. apply plainRow_line_chars; [discriminate| |exact Hrow].
      intros x Hx. apply plainChar_inv in Hx. tauto. }
  rewrite map_fixed.
  2:{ apply Forall_map. eapply Forall_impl; [|exact Hrows].
      intros row Hrow. apply dropWhileEnd_visible.
      now apply plainRow_line_visible. }
  apply filter_all. apply Forall_map. eapply Forall_impl; [|exact Hrows].
  intros row Hrow. apply plainRow_line_visible, trim_visible in Hrow.
  apply endsVisible_nonempty in Hrow.
  destruct (trim (joinWith 9%N row)); [contradiction | reflexivity].
Qed.

Lemma tab_row_split (row : list jsstring) :
  plainRow row ->
  List.map normalizeCell (splitOn 9%N (joinWith 9%N row))
  = List.map normalizeCell row /\
  someCellFilled (List.map normalizeCell row) = true.
Proof.
  intros Hrow. pose proof Hrow as (Hne & Hcells & Hlast). split.
  - rewrite splitOn_joinWith; [reflexivity | exact Hne |].
    eapply Forall_impl; [|exact Hcells]. intros cell Hcell.
    eapply Forall_impl; [|exact Hcell].
    intros x Hx. apply plainChar_inv in Hx. tauto.
  - unfold someCellFilled. apply existsb_exists.
    exists (normalizeCell (last row [])). split.
    + apply in_map. destruct (exists_last Hne) as (front & cell & ->).
      rewrite last_last. apply in_or_app. right. now left.
    + apply normalizeCell_visible, endsVisible_nonempty in Hlast.
      destruct (normalizeCell (last row [])); [contradiction | reflexivity].
Qed.

Lemma tab_lines_present (rows : list (list jsstring)) :
  Exists (fun row => 2 <= length row)%nat rows ->
  existsb (includes 9%N) (List.map (joinWith 9%N) rows) = true.
Proof.
  intros Hex. apply Exists_exists in Hex as (row & Hin & Hlen).
  apply existsb_exists. exists (joinWith 9%N row). split; [now apply in_map|].
  destruct row as [|p [|q rest]]; [cbn in Hlen; lia ..|].
  change (joinWith 9%N (p :: q :: rest))
    with (p ++ 9%N :: joinWith 9%N (q :: rest)).
  unfold includes. apply existsb_exists. exists 9%N. split; [|reflexivity].
  apply in_or_app. right. now left.
Qed.

Lemma tab_rows_split (rows : list (list jsstring)) :
  Forall plainRow rows ->
  filter someCellFilled
    (List.map (fun line => List.map normalizeCell (splitOn 9%N line))
              (List.map (joinWith 9%N) rows))
  = List.map (List.map normalizeCell) rows.
Proof.
  induction 1 as [|row rest Hrow _ IH]; [reflexivity|].
  destruct (tab_row_split row Hrow) as [Hsplit Hfilled].
  cbn [List.map filter]. rewrite Hsplit, Hfilled. now rewrite IH.
Qed.

(** Tab-separated text is split back into the cells it was joined from.
    When every row has at least one cell, holds only plain characters (no
    tab, line break, backtick, no-break space or full-width comma) and ends
    with a visible character, some row has two cells or more, and the text
    is not wrapped in quotes, parentheses or a fence, [parseRows] of the
    rows joined with tabs and line feeds returns exactly those rows, each
    cell normalised by [normalizeCell]; no row is dropped or merged. *)
Theorem parseRows_tab_separated (rows : list (list jsstring)) :
  Forall plainRow rows ->
  Exists (fun row => 2 <= length row)%nat rows ->
  unwrapWith wrappers (trim (gridText 9%N rows)) = None ->
  parseRows (gridText 9%N rows) = List.map (List.map normalizeCell) rows.
Proof.
  intros Hrows Hex Hwrap.
  assert (Hne : rows <> []) by (intros ->; inversion Hex).
  unfold parseRows. rewrite cleanText_plain by assumption.
  rewrite textLines_plain by assumption.
  rewrite tab_lines_present by assumption.
  now apply tab_rows_split.
Qed.

Lemma parseRows_tab_separated_witness :
  parseRows (gridText 9%N [[js "a"; js "b c"]; [js "d"]])
  = [[js "a"; js "b c"]; [js "d"]].
Proof.
  apply (parseRows_tab_separated [[js "a"; js "b c"]; [js "d"]]).
  - repeat constructor; discriminate.
  - left. cbn [length]. lia.
  - reflexivity.
Defined.

(** ** A pasted board, there and back *)

Ltac digit_cases d H :=
  assert (d = 0 \/ d = 1 \/ d = 2 \/ d = 3 \/ d = 4 \/ d = 5 \/ d = 6
          \/ d = 7 \/ d = 8 \/ d = 9)%Z as Hcases by lia;
  clear H;
  repeat (destruct Hcases as [-> | Hcases]); [.. | subst d].

Lemma digitCell_facts (d : Z) :
  (0 <= d <= 9)%Z ->
  maybeDigit (digitCell d) = Some d /\
  normalizeCell (digitCell d) = digitCell d /\
  Forall (fun c => plainChar c = true) (digitCell d) /\
  endsVisible (digitCell d) = true.
Proof.
  intros Hd. digit_cases d Hd;
    (split; [vm_compute; reflexivity|];
     split; [vm_compute; reflexivity|];
     split; [repeat constructor | reflexivity]).
Qed.

Lemma digitCells_read (ds : list Z) :
  Forall (fun n => (0 <= n <= 9)%Z) ds ->
  allSome (List.map maybeDigit (List.map digitCell ds)) = Some ds.
Proof.
  induction 1 as [|d ds Hd _ IH]; [reflexivity|].
  cbn [List.map allSome].
  rewrite (proj1 (digitCell_facts d Hd)). now rewrite IH.
Qed.

Lemma digitCells_normal (ds : list Z) :
  Forall (fun n => (0 <= n <= 9)%Z) ds ->
  List.map normalizeCell (List.map digitCell ds) = List.map digitCell ds.
Proof.
  intros Hds. apply map_fixed, Forall_map.
  eapply Forall_impl; [|exact Hds]. intros d Hd.
  apply (digitCell_facts d Hd).
Qed.

Lemma joinWith_head (sep : jschar) (p : jsstring) (rest : list jsstring) :
  exists t, joinWith sep (p :: rest) = p ++ t.
Proof.
  destruct rest as [|q rest].
  - exists []. cbn [joinWith]. now rewrite app_nil_r.
  - now exists (sep :: joinWith sep (q :: rest)).
Qed.

Lemma unwrapWith_digit (d : Z) (r : jsstring) :
  (0 <= d <= 9)%Z -> unwrapWith wrappers (Z.to_N (d + 48) :: r) = None.
Proof.
  intros Hd. digit_cases d Hd; reflexivity.
Qed.

Lemma boardText_unwrapped (hd : list Z) (rows : list (Z * list jsstring)) :
  isValidDigitArray hd = true ->
  unwrapWith wrappers (trim (boardText hd rows)) = None.
Proof.
  intros Hv. apply isValidDigitArray_spec in Hv as (Hlen & _ & Hall).
  destruct hd as [|h0 hd]; [discriminate Hlen|].
  inversion Hall as [|? ? Hh0 _]; subst.
  unfold boardText, gridText. cbn [List.map].
  destruct (joinWith_head 9%N (digitCell h0) (List.map digitCell hd))
    as [t Ht].
  destruct (joinWith_head 10%N
              (joinWith 9%N ([] :: digitCell h0 :: List.map digitCell hd))
              (List.map (joinWith 9%N)
                 (List.map (fun r => digitCell (fst r) :: snd r) rows)))
    as [t' ->].
  change (joinWith 9%N ([] :: digitCell h0 :: List.map digitCell hd))
    with (9%N :: joinWith 9%N (digitCell h0 :: List.map digitCell hd)).
  rewrite Ht. unfold digitCell at 1. cbn [app].
  unfold trim.
  assert (Hvis : isSpace (Z.to_N (h0 + 48)) = false).
  { clear - Hh0. digit_cases h0 Hh0; reflexivity. }
  change (dropWhile isSpace (9%N :: Z.to_N (h0 + 48) :: t ++ t'))
    with (dropWhile isSpace (Z.to_N (h0 + 48) :: t ++ t')).
  replace (dropWhile isSpace (Z.to_N (h0 + 48) :: t ++ t'))
    with (Z.to_N (h0 + 48) :: t ++ t')
    by (cbn [dropWhile]; now rewrite Hvis).
  destruct (dropWhileEnd_keeps_head (A := jschar) isSpace (Z.to_N (h0 + 48))
              (t ++ t') Hvis) as [r Hr].
  unfold jschar in *. rewrite Hr.
  now apply unwrapWith_digit.
Qed.

Lemma boardText_rows_plain (hd : list Z) (rows : list (Z * list jsstring)) :
  isValidDigitArray hd = true ->
  isValidDigitArray (List.map fst rows) = true ->
  Forall (fun r => ownerRowOk (snd r)) rows ->
  Forall plainRow
    (([] :: List.map digitCell hd)
     :: List.map (fun r => digitCell (fst r) :: snd r) rows).
Proof.
  intros Hh Ha Hrows.
  apply isValidDigitArray_spec in Hh as (Hhlen & _ & Hhall).
  apply isValidDigitArray_spec in Ha as (_ & _ & Haall).
  constructor.
  - repeat split; [discriminate | |].
    + constructor; [constructor|]. apply Forall_map.
      eapply Forall_impl; [|exact Hhall]. intros d Hd.
      apply (digitCell_facts d Hd).
    + assert (Hne : hd <> []) by (intros ->; discriminate Hhlen).
      destruct (exists_last Hne) as (front & d & ->).
      rewrite map_app. cbn [List.map].
      change ([] :: List.map digitCell front ++ [digitCell d])
        with (([] :: List.map digitCell front) ++ [digitCell d]).
      rewrite last_last.
      apply Forall_app in Hhall as [_ Hd]. inversion Hd; subst.
      now apply digitCell_facts.
  - apply Forall_map. rewrite Forall_map in Haall.
    rewrite Forall_forall in *. intros r Hin.
    destruct (Hrows r Hin) as (Hlen & Hcells & Hlast).
    repeat split; [discriminate | |].
    + constructor; [|exact Hcells]. now apply digitCell_facts, Haall.
    + destruct (snd r) as [|c cs]; [discriminate Hlen|]. exact Hlast.
Qed.

Lemma owner_rows_collected (rows : list (Z * list jsstring)) :
  Forall (fun n => (0 <= n <= 9)%Z) (List.map fst rows) ->
  Forall (fun r => ownerRowOk (snd r)) rows ->
  let parsed := List.map (List.map normalizeCell)
                  (List.map (fun r => digitCell (fst r) :: snd r) rows) in
  filter (rowQualifies 1) parsed = parsed /\
  List.map (ownerSliceOf 1) parsed
  = List.map (fun r => List.map normalizeOwnerName (snd r)) rows /\
  List.map (awayDigitLeftOf 1) parsed = List.map Some (List.map fst rows).
Proof.
  intros Hd Hrows. induction rows as [|r rows IH]; [repeat split|].
  inversion Hd as [|? ? Hr Hd']; inversion Hrows as [|? ? Hok Hrows']; subst.
  destruct (IH Hd' Hrows') as (IHq & IHo & IHa). clear IH.
  destruct Hok as (Hlen & Hcells & Hlast).
  cbn zeta in *. cbn [List.map filter fst snd].
  assert (Hwin : windowAt 1 (normalizeCell (digitCell (fst r))
                             :: List.map normalizeCell (snd r))
                 = List.map normalizeCell (snd r)).
  { unfold windowAt, slice. cbn [skipn Nat.add Nat.sub].
    apply firstn_all2. rewrite length_map. lia. }
  assert (Hq : rowQualifies 1 (normalizeCell (digitCell (fst r))
                               :: List.map normalizeCell (snd r)) = true).
  { unfold rowQualifies. rewrite Hwin. cbn [length]. rewrite length_map, Hlen.
    cbn [Nat.add Nat.ltb Nat.leb negb andb].
    apply negb_true_iff.
    destruct (forallb _ _) eqn:Hall; [|reflexivity].
    rewrite forallb_forall in Hall.
    assert (Hne : snd r <> []) by (intros E; rewrite E in Hlen; discriminate).
    destruct (exists_last Hne) as (front & cell & E).
    rewrite E, last_last in Hlast.
    apply normalizeCell_visible, endsVisible_nonempty in Hlast.
    assert (Hin : In (normalizeCell cell) (List.map normalizeCell (snd r)))
      by (rewrite E, map_app; apply in_or_app; right; now left).
    apply Hall in Hin.
    destruct (normalizeCell cell); [contradiction | discriminate Hin]. }
  rewrite Hq. repeat split.
  - now rewrite IHq.
  - rewrite IHo. f_equal. unfold ownerSliceOf. rewrite Hwin.
    rewrite map_map. apply map_ext. intros cell.
    apply normalizeOwnerName_of_normalized.
  - rewrite IHa. f_equal. unfold awayDigitLeftOf.
    cbn [Nat.ltb Nat.leb Nat.sub nth].
    destruct (digitCell_facts (fst r) Hr) as (Hm & Hn & _).
    now rewrite Hn.
Qed.

Lemma fillAwayDigits_all (ds : list Z) :
  forall index, fillAwayDigits index (List.map Some ds) = ds.
Proof.
  induction ds as [|d ds IH]; intros index; [reflexivity|].
  cbn [List.map fillAwayDigits]. now rewrite IH.
Qed.

(** A board copied from a spreadsheet is read back as it was laid out.
    Take home digits [hd] and ten rows, each an away digit with ten owner
    cells of plain characters whose last cell ends with a visible
    character; both digit lists hold 0 to 9 once each.  The text with an
    empty top-left cell, the home digits on the first line and one
    tab-separated line per row parses to the board with those home digits,
    those away digits in row order, the owner cells normalised by
    [normalizeOwnerName], and the default team labels. *)
Theorem pasted_board_round_trip (hd : list Z) (rows : list (Z * list jsstring)) :
  isValidDigitArray hd = true ->
  isValidDigitArray (List.map fst rows) = true ->
  Forall (fun r => ownerRowOk (snd r)) rows ->
  parseSquaresFromPastedText (boardText hd rows)
  = Ok {| homeTeam := js "Home Team";
          awayTeam := js "Away Team";
          homeDigits := hd;
          awayDigits := List.map fst rows;
          owners := List.map (fun r => List.map normalizeOwnerName (snd r))
                             rows |}.
Proof.
  intros Hh Ha Hrows.
  pose proof (boardText_rows_plain hd rows Hh Ha Hrows) as Hplain.
  pose proof (boardText_unwrapped hd rows Hh) as Hwrap.
  pose proof Hh as (Hhlen & _ & Hhall)%isValidDigitArray_spec.
  pose proof Ha as (Halen & _ & Haall)%isValidDigitArray_spec.
  rewrite length_map in Halen.
  unfold parseSquaresFromPastedText, boardText in *.
  unfold parseRows.
  rewrite cleanText_plain by (assumption || discriminate).
  rewrite textLines_plain by (assumption || discriminate).
  rewrite tab_lines_present
    by (left; cbn [length]; rewrite length_map; lia).
  rewrite tab_rows_split by exact Hplain.
  cbn [List.map]. rewrite digitCells_normal by exact Hhall.
  change (normalizeCell []) with (@nil jschar).
  set (parsed := List.map (List.map normalizeCell)
                   (List.map (fun r => digitCell (fst r) :: snd r) rows)).
  match goal with
  | |- context [length ?R <? 10] =>
      assert (Hlen : length R = 11%nat)
        by (cbn [length]; unfold parsed; now rewrite !length_map, Halen);
      rewrite Hlen; clear Hlen
  end.
  cbn [Nat.ltb Nat.leb].
  match goal with
  | |- context [findHeader 0 ?R] =>
      assert (Hheader : findHeader 0 R = Some (0%nat, 1%nat, hd))
  end.
  { cbn [findHeader]. unfold extractDigitsFromRow.
    cbn [extractDigitsFrom length]. rewrite length_map, Hhlen.
    cbn [Nat.ltb Nat.leb firstn List.map maybeDigit allSome].
    destruct (List.map digitCell hd) as [|c cs] eqn:Hcells.
    { apply (f_equal (@length _)) in Hcells.
      rewrite length_map, Hhlen in Hcells. discriminate. }
    assert (Hlen' : length (c :: cs) = 10%nat)
      by (rewrite <- Hcells, length_map; exact Hhlen).
    cbn [extractDigitsFrom]. rewrite Hlen'. cbn [Nat.ltb Nat.leb].
    rewrite firstn_all2 by lia.
    rewrite <- Hcells, digitCells_read by exact Hhall.
    now rewrite Hh. }
  rewrite Hheader. cbn [skipn].
  destruct (owner_rows_collected rows Haall Hrows) as (Hq & Ho & Hraw).
  fold parsed in Hq, Ho, Hraw.
  rewrite collectOwners_closed_form by (cbn [length]; lia).
  cbn [app length Nat.sub]. rewrite Hq, Ho, Hraw.
  rewrite !firstn_all2 by (rewrite !length_map; lia).
  rewrite length_map, Halen. cbn [Nat.eqb negb].
  rewrite fillAwayDigits_all, Ha.
  reflexivity.
Qed.

Lemma pasted_board_round_trip_witness :
  parseSquaresFromPastedText
    (boardText [3; 1; 4; 0; 5; 9; 2; 6; 8; 7]%Z
       (List.map (fun a => (a, List.map (fun h => Z.to_N (a + 65) :: digitCell h)
                                   DIGITS))
                 [9; 8; 7; 6; 5; 4; 3; 2; 1; 0]%Z))
  = Ok {| homeTeam := js "Home Team";
          awayTeam := js "Away Team";
          homeDigits := [3; 1; 4; 0; 5; 9; 2; 6; 8; 7]%Z;
          awayDigits := [9; 8; 7; 6; 5; 4; 3; 2; 1; 0]%Z;
          owners :=
            List.map (fun a => List.map (fun h => Z.to_N (a + 65) :: digitCell h)
                                        DIGITS)
                     [9; 8; 7; 6; 5; 4; 3; 2; 1; 0]%Z |}.
Proof.
  apply (pasted_board_round_trip [3; 1; 4; 0; 5; 9; 2; 6; 8; 7]%Z
           (List.map (fun a => (a, List.map (fun h => Z.to_N (a + 65) :: digitCell h)
                                       DIGITS))
                     [9; 8; 7; 6; 5; 4; 3; 2; 1; 0]%Z)).
  - reflexivity.
  - reflexivity.
  - repeat constructor.
Defined.

(** ** Owners and squares of an accepted analysis *)

Lemma jseqb_true (a b : jsstring) : jseqb a b = true <-> a = b.
Proof.
  unfold jseqb. destruct (list_eq_dec N.eq_dec a b); split;
    congruence || discriminate || auto.
Qed.

Lemma jseqb_false (a b : jsstring) : jseqb a b = false <-> a <> b.
Proof.
  unfold jseqb. destruct (list_eq_dec N.eq_dec a b); split;
    congruence || discriminate || auto.
Qed.

Section OwnershipWalk.
Context {num : Type} `{JsNumber num}.

Lemma insertDesc_permutation {A : Type} (key : A -> num) (x : A) (l : list A) :
  Permutation (insertDesc key x l) (x :: l).
Proof.
  induction l as [|y ys IH]; cbn [insertDesc]; [reflexivity|].
  destruct (nltb (ofZ 0) (nsub (key y) (key x))); [|reflexivity].
  rewrite IH. apply perm_swap.
Qed.

Lemma sortDesc_permutation {A : Type} (key : A -> num) (l : list A) :
  Permutation (sortDesc key l) l.
Proof.
  unfold sortDesc. induction l as [|x l IH]; cbn [fold_right]; [reflexivity|].
  rewrite insertDesc_permutation. now apply perm_skip.
Qed.

Lemma ownerTotalsGet_set (m : list (jsstring * @OwnerTotal num))
    (k k' : jsstring) (v : @OwnerTotal num) :
  ownerTotalsGet (ownerTotalsSet m k v) k'
  = if jseqb k k' then Some v else ownerTotalsGet m k'.
Proof.
  induction m as [|[k0 v0] m IH]; cbn [ownerTotalsSet ownerTotalsGet].
  - reflexivity.
  - destruct (jseqb k0 k) eqn:E0; cbn [ownerTotalsGet].
    + apply jseqb_true in E0. subst k0. now destruct (jseqb k k').
    + destruct (jseqb k0 k') eqn:E1; [|exact IH].
      apply jseqb_true in E1. subst k'.
      apply jseqb_false in E0.
      assert (E : jseqb k k0 = false) by (apply jseqb_false; congruence).
      now rewrite E.
Qed.

Lemma ownerTotalsSet_keys (m : list (jsstring * @OwnerTotal num))
    (k : jsstring) (v : @OwnerTotal num) :
  List.map fst (ownerTotalsSet m k v)
  = if existsb (fun k0 => jseqb k0 k) (List.map fst m) then List.map fst m
    else List.map fst m ++ [k].
Proof.
  induction m as [|[k0 v0] m IH]; cbn [ownerTotalsSet List.map existsb fst];
    [reflexivity|].
  destruct (jseqb k0 k) eqn:E0; cbn [orb List.map fst]; [reflexivity|].
  rewrite IH. now destruct (existsb _ _).
Qed.

Lemma ownerTotalsSet_NoDup (m : list (jsstring * @OwnerTotal num))
    (k : jsstring) (v : @OwnerTotal num) :
  NoDup (List.map fst m) -> NoDup (List.map fst (ownerTotalsSet m k v)).
Proof.
  intros Hnd. rewrite ownerTotalsSet_keys.
  destruct (existsb _ _) eqn:E; [exact Hnd|].
  apply NoDup_app; [exact Hnd | repeat constructor; intros [] |].
  intros x Hx [E' | []]. subst x.
  assert (Hex : existsb (fun k0 => jseqb k0 k) (List.map fst m) = true)
    by (apply existsb_exists; exists k; split; [exact Hx | now apply jseqb_true]).
  congruence.
Qed.

Lemma ownerTotalsGet_In (m : list (jsstring * @OwnerTotal num))
    (k : jsstring) (v : @OwnerTotal num) :
  NoDup (List.map fst m) -> In (k, v) m -> ownerTotalsGet m k = Some v.
Proof.
  induction m as [|[k0 v0] m IH]; intros Hnd Hin; [contradiction|].
  cbn [List.map fst] in Hnd. inversion Hnd as [|? ? Hk0 Hnd']; subst.
  cbn [ownerTotalsGet]. destruct Hin as [E | Hin].
  - inversion E; subst.
    assert (E' : jseqb k k = true) by now apply jseqb_true.
    now rewrite E'.
  - destruct (jseqb k0 k) eqn:E0.
    + apply jseqb_true in E0. subst k0. exfalso. apply Hk0.
      now apply (in_map fst) in Hin.
    + now apply IH.
Qed.

Lemma accumulate_bump (m : list (jsstring * @OwnerTotal num)) (k : jsstring)
    (ev : num) :
  exists v, bump (ownerTotalsGet m k) ev = Some v /\
            accumulate m k ev = ownerTotalsSet m k v.
Proof.
  unfold accumulate, bump. destruct (ownerTotalsGet m k); eexists; eauto.
Qed.

Lemma record_NoDup (squares : list (TopSquare num)) :
  forall m, NoDup (List.map fst m) ->
            NoDup (List.map fst (fold_left record squares m)).
Proof.
  induction squares as [|t squares IH]; intros m Hnd; [exact Hnd|].
  cbn [fold_left]. apply IH. unfold record.
  destruct (accumulate_bump m (ts_owner t) (ts_ev t)) as (v & _ & ->).
  now apply ownerTotalsSet_NoDup.
Qed.

Lemma record_get (squares : list (TopSquare num)) (k : jsstring) :
  forall m,
  ownerTotalsGet (fold_left record squares m) k
  = fold_left bump (List.map ts_ev (squaresOf k squares)) (ownerTotalsGet m k).
Proof.
  induction squares as [|t squares IH]; intros m; [reflexivity|].
  cbn [fold_left]. rewrite IH. unfold record.
  destruct (accumulate_bump m (ts_owner t) (ts_ev t)) as (v & Hv & ->).
  rewrite ownerTotalsGet_set. unfold squaresOf. cbn [filter].
  destruct (jseqb (ts_owner t) k) eqn:E; [|reflexivity].
  apply jseqb_true in E. subst k. cbn [List.map fold_left]. now rewrite Hv.
Qed.

Lemma bump_totals (evs : list num) :
  forall current : @OwnerTotal num,
  exists v, fold_left bump evs (Some current) = Some v /\
            ot_numSquares v = (ot_numSquares current + Z.of_nat (length evs))%Z /\
            ot_totalEv v = fold_left nadd evs (ot_totalEv current).
Proof.
  induction evs as [|ev evs IH]; intros current.
  - exists current. cbn [fold_left length]. repeat split. lia.
  - cbn [fold_left bump].
    destruct (IH {| ot_totalEv := nadd (ot_totalEv current) ev;
                    ot_numSquares := ot_numSquares current + 1;
                    ot_bestSquareEv := nmax (ot_bestSquareEv current) ev |})
      as (v & Hv & Hn & Ht).
    exists v. cbn [ot_numSquares ot_totalEv] in Hn, Ht.
    repeat split; [exact Hv | | exact Ht].
    rewrite Hn. cbn [length]. lia.
Qed.

Lemma bump_from_nothing (evs : list num) (v : @OwnerTotal num) :
  fold_left bump evs None = Some v ->
  evs <> [] /\ ot_numSquares v = Z.of_nat (length evs) /\
  ot_totalEv v = sumList evs.
Proof.
  destruct evs as [|ev evs]; [discriminate|]. cbn [fold_left bump].
  destruct (bump_totals evs {| ot_totalEv := nadd (ofZ 0) ev;
                               ot_numSquares := 1; ot_bestSquareEv := ev |})
    as (v' & Hv' & Hn & Ht).
  rewrite Hv'. intros E. inversion E; subst v'.
  cbn [ot_numSquares ot_totalEv] in Hn, Ht.
  repeat split; [discriminate | | exact Ht].
  rewrite Hn. cbn [length]. lia.
Qed.

Lemma record_keys (squares : list (TopSquare num)) (k : jsstring) :
  In k (List.map ts_owner squares) ->
  forall m, In k (List.map fst (fold_left record squares m)).
Proof.
  intros Hin m.
  assert (Hget : ownerTotalsGet (fold_left record squares m) k <> None).
  { rewrite record_get. apply in_map_iff in Hin as (t & <- & Hin).
    assert (Hmine : In t (squaresOf (ts_owner t) squares))
      by (apply filter_In; split; [exact Hin | now apply jseqb_true]).
    destruct (squaresOf (ts_owner t) squares) as [|t0 mine]; [contradiction|].
    cbn [List.map fold_left].
    assert (Hsome : exists c, bump (ownerTotalsGet m (ts_owner t)) (ts_ev t0)
                              = Some c)
      by (unfold bump; destruct (ownerTotalsGet m (ts_owner t)); eauto).
    destruct Hsome as [c ->].
    destruct (bump_totals (List.map ts_ev mine) c) as (v & -> & _).
    discriminate. }
  clear Hin. induction (fold_left record squares m) as [|[k0 v0] l IH];
    [now contradiction Hget|].
  cbn [ownerTotalsGet] in Hget. cbn [List.map fst].
  destruct (jseqb k0 k) eqn:E.
  - left. now apply jseqb_true.
  - right. now apply IH.
Qed.

Lemma walkCell_squareAt (board : SquaresBoard) (ev prob : SquaresGrid num)
    (m : list (jsstring * @OwnerTotal num)) (ts : list (TopSquare num))
    (rc : nat * nat) :
  walkCell board ev prob (m, ts) rc
  = match squareAt board ev prob rc with
    | Some t => (record m t, ts ++ [t])
    | None => (m, ts)
    end.
Proof.
  destruct rc as [row col]. unfold walkCell, squareAt. cbn [fst snd].
  now destruct (trim _).
Qed.

Lemma walk_squares (board : SquaresBoard) (ev prob : SquaresGrid num)
    (cells : list (nat * nat)) :
  forall m ts,
  fold_left (walkCell board ev prob) cells (m, ts)
  = (fold_left record (squaresAmong board ev prob cells) m,
     ts ++ squaresAmong board ev prob cells).
Proof.
  induction cells as [|rc cells IH]; intros m ts.
  - cbn [fold_left squaresAmong flat_map]. now rewrite app_nil_r.
  - cbn [fold_left]. rewrite walkCell_squareAt.
    unfold squaresAmong. cbn [flat_map]. fold (squaresAmong board ev prob cells).
    destruct (squareAt board ev prob rc) as [t|]; rewrite IH.
    + cbn [app fold_left]. now rewrite <- app_assoc.
    + reflexivity.
Qed.

Lemma analysis_walk_inv (board : SquaresBoard) (odds : DraftKingsSquaresOdds num)
    (squarePrice fw qw : num) (a : SquaresAnalysis num) :
  computeSquaresAnalysis board odds squarePrice fw qw = Ok a ->
  let squares := occupiedSquares board (evByDigit a) (combinedProbability a) in
  topSquares a = sortDesc ts_ev squares /\
  ownerStats a = sortDesc totalEv (ownerStatsOf (fold_left record squares [])).
Proof.
  unfold computeSquaresAnalysis.
  destruct (isValidDigitArray (homeDigits board)); [|discriminate].
  destruct (isValidDigitArray (awayDigits board)); [|discriminate].
  cbn [negb].
  destruct (negb _ || existsb _ _); [discriminate|].
  destruct (combinedRawGrid odds fw qw) as [g|e]; [|discriminate]. cbn [bind].
  destruct (nleb _ _); [discriminate|].
  intros Hr. apply Ok_inj in Hr. subst a.
  cbn [topSquares ownerStats evByDigit combinedProbability].
  unfold walkOwnership, occupiedSquares. rewrite walk_squares.
  cbn [fst snd app]. split; reflexivity.
Qed.

End OwnershipWalk.

(** Every owned square of the board is listed once.  In an accepted
    analysis, [topSquares] is a rearrangement of the owned squares of the
    board: one entry for each cell whose owner is not blank, carrying the
    trimmed owner, the cell's two digits and the expected value and
    probability of that digit pair; blank cells give no entry. *)
Theorem topSquares_lists_owned_squares {num : Type} `{JsNumber num}
    (board : SquaresBoard) (odds : DraftKingsSquaresOdds num)
    (squarePrice fw qw : num) (a : SquaresAnalysis num) :
  computeSquaresAnalysis board odds squarePrice fw qw = Ok a ->
  Permutation (topSquares a)
              (occupiedSquares board (evByDigit a) (combinedProbability a)).
Proof.
  intros Ha. apply analysis_walk_inv in Ha as [-> _].
  apply sortDesc_permutation.
Qed.

(** Every owner is listed once, with the totals of that owner's squares.
    In an accepted analysis the names in [ownerStats] are pairwise
    distinct, every owner of a square is among them, and an entry counts
    the squares of its owner ([numSquares], at least one), adds up their
    expected values in visiting order from 0 ([totalEv]) and divides that
    sum by the count ([evPerSquare]). *)
Theorem ownerStats_accounting {num : Type} `{JsNumber num}
    (board : SquaresBoard) (odds : DraftKingsSquaresOdds num)
    (squarePrice fw qw : num) (a : SquaresAnalysis num) :
  computeSquaresAnalysis board odds squarePrice fw qw = Ok a ->
  let squares := occupiedSquares board (evByDigit a) (combinedProbability a) in
  NoDup (List.map owner (ownerStats a)) /\
  (forall t, In t squares -> In (ts_owner t) (List.map owner (ownerStats a))) /\
  (forall s, In s (ownerStats a) ->
     let mine := squaresOf (owner s) squares in
     mine <> [] /\
     numSquares s = Z.of_nat (length mine) /\
     totalEv s = sumList (List.map ts_ev mine) /\
     evPerSquare s = ndiv (totalEv s) (ofZ (numSquares s))).
Proof.
  intros Ha squares. apply analysis_walk_inv in Ha as [_ Hstats].
  fold squares in Hstats. rewrite Hstats. clear Hstats.
  set (m := fold_left record squares []).
  assert (Hnd : NoDup (List.map fst m))
    by (apply record_NoDup; constructor).
  assert (Hnames : List.map owner (ownerStatsOf m) = List.map fst m).
  { unfold ownerStatsOf. rewrite map_map. reflexivity. }
  pose proof (sortDesc_permutation totalEv (ownerStatsOf m)) as Hperm.
  split; [|split].
  - apply (Permutation_NoDup (l := List.map fst m)); [|exact Hnd].
    rewrite <- Hnames. symmetry. now apply Permutation_map.
  - intros t Ht.
    apply (Permutation_in (l := List.map fst m)).
    + rewrite <- Hnames. symmetry. now apply Permutation_map.
    + apply record_keys. now apply in_map.
  - intros s Hs. apply (Permutation_in _ Hperm) in Hs.
    unfold ownerStatsOf in Hs. apply in_map_iff in Hs as ([k v] & <- & Hin).
    cbn [owner numSquares totalEv evPerSquare fst snd].
    apply (ownerTotalsGet_In _ _ _ Hnd) in Hin.
    unfold m in Hin. rewrite record_get in Hin. cbn [ownerTotalsGet] in Hin.
    apply bump_from_nothing in Hin as (Hne & Hn & Ht).
    rewrite length_map in Hn.
    repeat split; [|exact Hn | exact Ht].
    intros E. apply Hne. now rewrite E.
Qed.

Lemma sample_analysis_binary64 :
  exists a : SquaresAnalysis float,
    computeSquaresAnalysis sampleBoard (uniformOdds (-110))
                           3%float 0.8%float 0.2%float = Ok a.
Proof.
  vm_compute. eexists. reflexivity.
Qed.

Lemma topSquares_lists_owned_squares_witness :
  exists a : SquaresAnalysis float,
    computeSquaresAnalysis sampleBoard (uniformOdds (-110))
                           3%float 0.8%float 0.2%float = Ok a /\
    Permutation (topSquares a)
                (occupiedSquares sampleBoard (evByDigit a)
                                 (combinedProbability a)).
Proof.
  destruct sample_analysis_binary64 as [a Ha]. exists a. split; [exact Ha|].
  exact (topSquares_lists_owned_squares sampleBoard (uniformOdds (-110))
           3%float 0.8%float 0.2%float a Ha).
Defined.

Lemma ownerStats_accounting_witness :
  exists a : SquaresAnalysis float,
    computeSquaresAnalysis sampleBoard (uniformOdds (-110))
                           3%float 0.8%float 0.2%float = Ok a /\
    NoDup (List.map owner (ownerStats a)) /\
    (forall t,
       In t (occupiedSquares sampleBoard (evByDigit a) (combinedProbability a)) ->
       In (ts_owner t) (List.map owner (ownerStats a))) /\
    (forall s, In s (ownerStats a) ->
       let mine := squaresOf (owner s)
                     (occupiedSquares sampleBoard (evByDigit a)
                                      (combinedProbability a)) in
       mine <> [] /\
       numSquares s = Z.of_nat (length mine) /\
       totalEv s = sumList (List.map ts_ev mine) /\
       evPerSquare s = ndiv (totalEv s) (ofZ (numSquares s))).
Proof.
  destruct sample_analysis_binary64 as [a Ha]. exists a. split; [exact Ha|].
  exact (ownerStats_accounting sampleBoard (uniformOdds (-110))
           3%float 0.8%float 0.2%float a Ha).
Defined.

(** ** The board grid *)

Lemma flat_map_pointwise_permutation {A B : Type} (f g : A -> list B)
    (l : list A) :
  (forall a, Permutation (f a) (g a)) ->
  Permutation (flat_map f l) (flat_map g l).
Proof.
  intros Hfg. induction l as [|a l IH]; cbn [flat_map]; [reflexivity|].
  now apply Permutation_app.
Qed.

Lemma grid_relabel_permutation {A B C : Type} (F : A -> B -> C)
    (rows rows' : list A) (cols cols' : list B) :
  Permutation rows rows' -> Permutation cols cols' ->
  Permutation (concat (List.map (fun a => List.map (F a) cols) rows))
              (concat (List.map (fun a => List.map (F a) cols') rows')).
Proof.
  intros Hr Hc. rewrite <- !flat_map_concat_map.
  transitivity (flat_map (fun a => List.map (F a) cols') rows).
  - apply flat_map_pointwise_permutation. intros a. now apply Permutation_map.
  - now apply Permutation_flat_map.
Qed.

(** The board grid shows every digit pair once.  In an accepted analysis
    [evByDigit] and [boardEv] are 10 by 10, the entry of [boardEv] at a row
    and a column is the entry of [evByDigit] for the away digit of that row
    and the home digit of that column, and so the hundred entries of
    [boardEv] are the hundred entries of [evByDigit] in another order. *)
Theorem boardEv_relabels_surface {num : Type} `{JsNumber num}
    (board : SquaresBoard) (odds : DraftKingsSquaresOdds num)
    (squarePrice fw qw : num) (a : SquaresAnalysis num) :
  computeSquaresAnalysis board odds squarePrice fw qw = Ok a ->
  tenByTen (evByDigit a) /\
  tenByTen (boardEv a) /\
  (forall row col, (row < 10)%nat -> (col < 10)%nat ->
     nth col (nth row (boardEv a) []) (ofZ 0)
     = gridAt (evByDigit a) (nth row (awayDigits board) 0%Z)
                            (nth col (homeDigits board) 0%Z)) /\
  Permutation (concat (boardEv a)) (concat (evByDigit a)).
Proof.
  intros Ha.
  apply analysis_Ok_inv in Ha
    as (g & Hg & _ & Hh & Haw & _ & _ & Hprob & Hev & Hboard & _).
  pose proof (combinedRawGrid_tenByTen _ _ _ _ Hg) as Hg10.
  assert (He10 : tenByTen (evByDigit a))
    by (rewrite Hev, Hprob; now do 2 apply tenByTen_map).
  pose proof (proj1 (isValidDigitArray_spec _) Hh) as (Hhlen & _ & _).
  pose proof (proj1 (isValidDigitArray_spec _) Haw) as (Halen & _ & _).
  split; [exact He10|]. split; [|split].
  - rewrite Hboard. split.
    + now rewrite length_map.
    + apply Forall_map, Forall_forall. intros aw _. now rewrite length_map.
  - intros row col Hrow Hcol. rewrite Hboard.
    rewrite (nth_indep _ []
               (List.map (fun h => gridAt (evByDigit a) 0%Z h)
                         (homeDigits board)))
      by (rewrite length_map; lia).
    rewrite (map_nth (fun aw => List.map (fun h => gridAt (evByDigit a) aw h)
                                         (homeDigits board))).
    set (aw := nth row (awayDigits board) 0%Z).
    rewrite (nth_indep _ (ofZ 0) (gridAt (evByDigit a) aw 0%Z))
      by (rewrite length_map; lia).
    now rewrite (map_nth (fun h => gridAt (evByDigit a) aw h)).
  - rewrite Hboard.
    apply (Permutation_trans
             (l' := concat (List.map (fun aw => List.map (gridAt (evByDigit a) aw)
                                                         DIGITS) DIGITS))).
    + apply (grid_relabel_permutation (gridAt (evByDigit a)));
        now apply valid_digits_permutation.
    + change (fun aw => List.map (gridAt (evByDigit a) aw) DIGITS)
        with (fun aw => List.map (fun h => gridAt (evByDigit a) aw h) DIGITS).
      now rewrite (gridAt_all (evByDigit a) He10).
Qed.

Lemma boardEv_relabels_surface_witness :
  exists a : SquaresAnalysis float,
    computeSquaresAnalysis sampleBoard (uniformOdds (-110))
                           3%float 0.8%float 0.2%float = Ok a /\
    tenByTen (boardEv a) /\
    Permutation (concat (boardEv a)) (concat (evByDigit a)).
Proof.
  destruct sample_analysis_binary64 as [a Ha]. exists a. split; [exact Ha|].
  destruct (boardEv_relabels_surface sampleBoard (uniformOdds (-110))
              3%float 0.8%float 0.2%float a Ha) as (_ & Hb & _ & Hp).
  split; [exact Hb | exact Hp].
Defined.

(* ================================================================== *)
(** * The extracted board *)

Lemma parseRows_filled (text : jsstring) :
  Forall (fun row => someCellFilled row = true) (parseRows text).
Proof.
  assert (Hf : forall rows : list (list jsstring),
             Forall (fun row => someCellFilled row = true)
                    (filter someCellFilled rows)).
  { intros rows. apply Forall_forall. intros row Hin.
    now apply filter_In in Hin. }
  unfold parseRows.
  destruct (existsb _ _); [apply Hf|].
  destruct (_ && _); [apply Hf|].
  unfold mergeRaggedRows.
  destruct (fold_left _ _ _) as [merged pending]. apply Hf.
Qed.

(** C8: [parseSquaresFromPastedText] fails with UnderfilledPastedInput
    whenever [parseRows] yields fewer than ten rows, none of which is blank;
    nothing about a header enters the condition, the test being the first
    statement after the rows are split. *)
Theorem underfilled_input_rejected (text : jsstring) :
  (length (parseRows text) < 10)%nat ->
  parseSquaresFromPastedText text = Err UnderfilledPastedInput /\
  Forall (fun row => someCellFilled row = true) (parseRows text).
Proof.
  intros Hlt. split; [|apply parseRows_filled].
  unfold parseSquaresFromPastedText.
  now rewrite (proj2 (Nat.ltb_lt _ _) Hlt).
Qed.

(** A header row on its own: the header is there to be found, and the text
    is rejected all the same. *)
Lemma underfilled_input_rejected_witness :
  extractDigitsFromRow (List.map digitCell DIGITS) = Some (0%nat, DIGITS) /\
  parseRows (gridText 9%N [List.map digitCell DIGITS])
  = [List.map digitCell DIGITS] /\
  parseSquaresFromPastedText (gridText 9%N [List.map digitCell DIGITS])
  = Err UnderfilledPastedInput.
Proof.
  split; [reflexivity|]. split; [vm_compute; reflexivity|].
  apply (underfilled_input_rejected (gridText 9%N [List.map digitCell DIGITS])).
  vm_compute. lia.
Defined.

(** C10: a board that [parseSquaresFromPastedText] returns has an ownership
    grid of exactly ten rows of exactly ten cells, and
    [computeSquaresAnalysis] never answers it with the digit-axis error or
    the board-shape error, whatever the odds, the price and the weights. *)
Theorem extracted_board_passes_board_checks {num : Type} `{JsNumber num}
    (text : jsstring) (b : SquaresBoard) :
  parseSquaresFromPastedText text = Ok b ->
  length (owners b) = 10%nat /\
  Forall (fun row => length row = 10%nat) (owners b) /\
  forall (odds : DraftKingsSquaresOdds num)
         (squarePrice finalResultWeight anyQuarterWeight : num),
    (forall which,
       computeSquaresAnalysis b odds squarePrice finalResultWeight
                              anyQuarterWeight
       <> Err (MalformedDigitAxis which)) /\
    computeSquaresAnalysis b odds squarePrice finalResultWeight
                           anyQuarterWeight
    <> Err MalformedBoardShape.
Proof.
  intros Hb.
  destruct (parse_cases text)
    as [[_ He] | [(_ & _ & He) | (_ & Hq & b' & Hb' & Ho & Hhome & Haway)]];
    try congruence.
  rewrite Hb in Hb'. apply Ok_inj in Hb'. subst b'.
  assert (Hh : isValidDigitArray (homeDigits b) = true)
    by (rewrite Hhome; apply headerDigitsOf_valid).
  assert (Ha : isValidDigitArray (awayDigits b) = true)
    by (rewrite Haway; apply awayDigits_choice_valid).
  assert (Hs : tenByTen (owners b))
    by (rewrite Ho; apply qualifying_rows_tenByTen;
        [apply qualifyingRows_qualify | exact Hq]).
  split; [apply Hs|]. split; [apply Hs|].
  intros odds squarePrice fw qw.
  unfold computeSquaresAnalysis. rewrite Hh, Ha; cbn [negb].
  rewrite (proj2 (shape_check_spec _) Hs).
  destruct (combinedRawGrid odds fw qw) as [g|e] eqn:Hg; cbn [bind].
  - destruct (nleb _ _); split; try intros which; discriminate.
  - destruct (combinedRawGrid_Err odds fw qw e Hg)
      as [-> | (a & h & _ & _ & ->)];
      split; try intros which; discriminate.
Qed.

Lemma extracted_board_passes_board_checks_witness :
  exists b, parseSquaresFromPastedText scenarioC = Ok b /\
    length (owners b) = 10%nat /\
    Forall (fun row => length row = 10%nat) (owners b) /\
    forall (odds : DraftKingsSquaresOdds float)
           (squarePrice finalResultWeight anyQuarterWeight : float),
      (forall which,
         computeSquaresAnalysis b odds squarePrice finalResultWeight
                                anyQuarterWeight
         <> Err (MalformedDigitAxis which)) /\
      computeSquaresAnalysis b odds squarePrice finalResultWeight
                             anyQuarterWeight
      <> Err MalformedBoardShape.
Proof.
  exists scenarioCBoard. split; [exact scenarioC_board|].
  exact (extracted_board_passes_board_checks scenarioC scenarioCBoard
           scenarioC_board).
Defined.



(* ================================================================== *)
(** * Ragged rows *)

Lemma chunksFrom_short {A : Type} (n : nat) (row rest : list A) :
  forall cur, (length cur + length row < n)%nat ->
  chunksFrom n cur (row ++ rest) = chunksFrom n (cur ++ row) rest.
Proof.
  induction row as [|x xs IH]; intros cur Hlen.
  - now rewrite app_nil_r.
  - cbn [app chunksFrom length] in *.
    replace (length (cur ++ [x]) =? n)%nat with false
      by (symmetry; apply Nat.eqb_neq; rewrite length_app; cbn [length]; lia).
    rewrite IH by (rewrite length_app; cbn [length]; lia).
    now rewrite <- app_assoc.
Qed.

Lemma chunksFrom_reach {A : Type} (n : nat) (row rest : list A) :
  forall cur, (length cur < n)%nat -> (n <= length cur + length row)%nat ->
  chunksFrom n cur (row ++ rest)
  = firstn n (cur ++ row) :: chunksFrom n [] (skipn n (cur ++ row) ++ rest).
Proof.
  induction row as [|x xs IH]; intros cur Hlt Hge.
  - cbn [length] in Hge. lia.
  - cbn [app chunksFrom].
    destruct (length (cur ++ [x]) =? n)%nat eqn:Hn.
    + apply Nat.eqb_eq in Hn.
      replace (cur ++ x :: xs) with ((cur ++ [x]) ++ xs)
        by (now rewrite <- app_assoc).
      subst n.
      rewrite firstn_app, skipn_app, Nat.sub_diag, firstn_all, skipn_all.
      cbn [firstn skipn app]. now rewrite app_nil_r.
    + apply Nat.eqb_neq in Hn. rewrite length_app in Hn. cbn [length] in *.
      rewrite IH by (rewrite ?length_app; cbn [length]; lia).
      now rewrite <- app_assoc.
Qed.

Lemma mergeStep_ragged (target : nat) (acc : list (list jsstring))
    (pend : option (list jsstring)) (row : list jsstring) :
  (length (pendingCells pend) < target)%nat -> (length row < target)%nat ->
  exists emitted pend',
    mergeStep target (acc, pend) row = (acc ++ emitted, pend') /\
    (length (pendingCells pend') < target)%nat /\
    forall rest,
      chunksFrom target (pendingCells pend) (row ++ rest)
      = emitted ++ chunksFrom target (pendingCells pend') rest.
Proof.
  intros Hp Hrow. unfold mergeStep.
  replace (length row =? target)%nat with false
    by (symmetry; apply Nat.eqb_neq; lia).
  assert (Hstate :
    (let '(mergedRows1, pending1) :=
       match pend with
       | None => (acc, row)
       | Some p =>
           if (length p <? target)%nat && (length row <? target)%nat
           then (acc, p ++ row) else (acc ++ [p], row)
       end in
     if (target <=? length pending1)%nat then
       (mergedRows1 ++ [firstn target pending1],
        if (target <? length pending1)%nat
        then Some (skipn target pending1) else None)
     else (mergedRows1, Some pending1))
    = (if (target <=? length (pendingCells pend ++ row))%nat then
         (acc ++ [firstn target (pendingCells pend ++ row)],
          if (target <? length (pendingCells pend ++ row))%nat
          then Some (skipn target (pendingCells pend ++ row)) else None)
       else (acc, Some (pendingCells pend ++ row)))).
  { destruct pend as [p|]; cbn [pendingCells app] in *; [|reflexivity].
    replace (length p <? target)%nat with true
      by (symmetry; apply Nat.ltb_lt; lia).
    replace (length row <? target)%nat with true
      by (symmetry; apply Nat.ltb_lt; lia).
    reflexivity. }
  rewrite Hstate. clear Hstate.
  set (buf := pendingCells pend ++ row).
  assert (Hbuf : length buf = (length (pendingCells pend) + length row)%nat)
    by (unfold buf; apply length_app).
  destruct (target <=? length buf)%nat eqn:Hreach.
  - apply Nat.leb_le in Hreach.
    destruct (target <? length buf)%nat eqn:Hover.
    + apply Nat.ltb_lt in Hover.
      exists [firstn target buf], (Some (skipn target buf)).
      cbn [pendingCells]. split; [reflexivity|].
      split; [rewrite length_skipn; lia|].
      intros rest. rewrite chunksFrom_reach by lia. fold buf.
      cbn [app]. f_equal.
      rewrite (chunksFrom_short target (skipn target buf) rest [])
        by (cbn [length]; rewrite length_skipn; lia).
      reflexivity.
    + apply Nat.ltb_ge in Hover.
      exists [firstn target buf], None.
      cbn [pendingCells length]. split; [reflexivity|].
      split; [lia|].
      intros rest. rewrite chunksFrom_reach by lia. fold buf.
      rewrite skipn_all2 by lia. reflexivity.
  - apply Nat.leb_gt in Hreach.
    exists [], (Some buf). cbn [pendingCells].
    split; [now rewrite app_nil_r|]. split; [lia|].
    intros rest. rewrite chunksFrom_short by lia. reflexivity.
Qed.

Lemma mergeFold_run (target : nat) (run : list (list jsstring)) :
  Forall (fun row => (length row < target)%nat) run ->
  forall acc pend,
  (length (pendingCells pend) < target)%nat ->
  exists emitted pend',
    fold_left (mergeStep target) run (acc, pend) = (acc ++ emitted, pend') /\
    (length (pendingCells pend') < target)%nat /\
    forall rest,
      chunksFrom target (pendingCells pend) (concat run ++ rest)
      = emitted ++ chunksFrom target (pendingCells pend') rest.
Proof.
  induction 1 as [|row run Hrow Hrun IH]; intros acc pend Hp.
  - exists [], pend. cbn [fold_left concat app].
    split; [now rewrite app_nil_r|]. split; [exact Hp | reflexivity].
  - cbn [fold_left concat].
    destruct (mergeStep_ragged target acc pend row Hp Hrow)
      as (e1 & p1 & Hstep & Hp1 & Hc1).
    rewrite Hstep.
    destruct (IH (acc ++ e1) p1 Hp1) as (e2 & p2 & Hfold & Hp2 & Hc2).
    exists (e1 ++ e2), p2. split; [now rewrite Hfold, app_assoc|].
    split; [exact Hp2|].
    intros rest. now rewrite <- app_assoc, Hc1, Hc2, app_assoc.
Qed.

Lemma mergeFold_block (target : nat) (run : list (list jsstring))
    (full : list jsstring) (acc : list (list jsstring))
    (pend : option (list jsstring)) :
  (0 < target)%nat ->
  Forall (fun row => (length row < target)%nat) run ->
  length full = target -> pendingCells pend = [] ->
  exists acc',
    fold_left (mergeStep target) (run ++ [full]) (acc, pend) = (acc', None) /\
    filter someCellFilled acc'
    = filter someCellFilled acc
      ++ filter someCellFilled (chunks target (concat run) ++ [full]).
Proof.
  intros Hpos Hrun Hfull Hpend.
  destruct (mergeFold_run target run Hrun acc pend)
    as (emitted & pend' & Hfold & Hp' & Hchunks);
    [rewrite Hpend; exact Hpos|].
  specialize (Hchunks []). rewrite Hpend, app_nil_r in Hchunks.
  unfold chunks. rewrite Hchunks.
  rewrite fold_left_app, Hfold. cbn [fold_left]. unfold mergeStep.
  rewrite (proj2 (Nat.eqb_eq _ _) Hfull).
  destruct pend' as [[|c p]|]; cbn [pendingCells chunksFrom];
    eexists; (split; [reflexivity|]);
    rewrite ?filter_app, ?app_nil_r; cbn [filter someCellFilled existsb];
    rewrite ?app_nil_r, <- ?app_assoc; reflexivity.
Qed.

Lemma mergeFold_blocks (target : nat)
    (blocks : list (list (list jsstring) * list jsstring)) :
  (0 < target)%nat ->
  Forall (fun b => Forall (fun row => (length row < target)%nat) (fst b) /\
                   length (snd b) = target) blocks ->
  forall acc pend, pendingCells pend = [] ->
  exists acc' pend',
    fold_left (mergeStep target) (flat_map (fun b => fst b ++ [snd b]) blocks)
              (acc, pend) = (acc', pend') /\
    pendingCells pend' = [] /\
    filter someCellFilled acc'
    = filter someCellFilled acc
      ++ filter someCellFilled
           (flat_map (fun b => chunks target (concat (fst b)) ++ [snd b])
                     blocks).
Proof.
  intros Hpos. induction 1 as [|[run full] blocks [Hrun Hfull] _ IH];
    intros acc pend Hpend.
  - exists acc, pend. cbn [flat_map fold_left filter].
    now rewrite app_nil_r.
  - cbn [flat_map fst snd] in *. rewrite fold_left_app.
    destruct (mergeFold_block target run full acc pend Hpos Hrun Hfull Hpend)
      as (acc1 & Hfold1 & Hacc1).
    rewrite Hfold1.
    destruct (IH acc1 None eq_refl) as (acc2 & pend2 & Hfold2 & Hp2 & Hacc2).
    exists acc2, pend2. split; [exact Hfold2|]. split; [exact Hp2|].
    rewrite Hacc2, Hacc1, (filter_app _ (_ ++ [full])). now rewrite app_assoc.
Qed.

Lemma targetColumnsOf_attained (csvRows : list (list jsstring)) :
  targetColumnsOf csvRows = 1%nat
  \/ exists row, In row csvRows /\ length row = targetColumnsOf csvRows.
Proof.
  unfold targetColumnsOf.
  assert (Hgen : forall (l : list (list jsstring)) (a : nat),
             fold_left Nat.max (List.map (@length jsstring) l) a = a
             \/ exists row, In row l /\
                  length row = fold_left Nat.max (List.map (@length jsstring) l) a).
  { induction l as [|row l IH]; intros a; cbn [List.map fold_left].
    - now left.
    - destruct (IH (Nat.max a (length row))) as [Heq | (r & Hin & Hr)].
      + rewrite Heq. destruct (Nat.max_spec a (length row)) as [[_ ->] | [_ ->]].
        * right. exists row. split; [now left | reflexivity].
        * now left.
      + right. exists r. split; [now right | exact Hr]. }
  apply Hgen.
Qed.

Lemma raggedSplit_exists (target : nat) (rows : list (list jsstring)) :
  Forall (fun row => (length row <= target)%nat) rows ->
  exists blocks lastRun, raggedSplit target rows blocks lastRun.
Proof.
  induction 1 as [|row rows Hrow _ (blocks & lastRun & Heq & Hblocks & Hlast)].
  - exists [], []. repeat split; constructor.
  - destruct (Nat.eq_dec (length row) target) as [Hfull | Hshort].
    + exists (([], row) :: blocks), lastRun. unfold raggedSplit, runsRows in *.
      cbn [flat_map fst snd app]. rewrite Heq. repeat split; auto.
    + destruct blocks as [|[run full] blocks].
      * exists [], (row :: lastRun). unfold raggedSplit, runsRows in *.
        cbn [flat_map app] in *. rewrite Heq. repeat split; auto.
        constructor; [lia | exact Hlast].
      * exists ((row :: run, full) :: blocks), lastRun.
        unfold raggedSplit, runsRows in *.
        cbn [flat_map fst snd app] in *. rewrite Heq.
        inversion Hblocks as [|? ? Hb Hrest]; subst.
        destruct Hb as [Hrun Hfull]. cbn [fst snd] in *.
        repeat split; auto. constructor; [|exact Hrest]. cbn [fst snd].
        split; [constructor; [lia | exact Hrun] | exact Hfull].
Qed.

(** What [chunks] does: nothing is lost, every row but the last is full. *)
Lemma chunksFrom_rows {A : Type} (n : nat) (l : list A) :
  forall cur, (length cur < n)%nat ->
  concat (chunksFrom n cur l) = cur ++ l /\
  exists fullRows rest,
    chunksFrom n cur l = fullRows ++ match rest with [] => [] | _ => [rest] end /\
    Forall (fun row => length row = n) fullRows /\ (length rest < n)%nat.
Proof.
  induction l as [|x xs IH]; intros cur Hcur; cbn [chunksFrom].
  - split.
    + destruct cur; cbn [concat app]; now rewrite ?app_nil_r.
    + exists [], cur. cbn [app]. repeat split; auto.
  - destruct (length (cur ++ [x]) =? n)%nat eqn:Hn.
    + apply Nat.eqb_eq in Hn.
      destruct (IH [] ltac:(cbn [length]; lia)) as (Hcat & fullRows & rest & Heq & Hfull & Hrest).
      split.
      * cbn [concat]. rewrite Hcat. cbn [app]. now rewrite <- app_assoc.
      * exists ((cur ++ [x]) :: fullRows), rest. rewrite Heq.
        repeat split; auto.
    + apply Nat.eqb_neq in Hn.
      assert (Hlt : (length (cur ++ [x]) < n)%nat)
        by (rewrite length_app in *; cbn [length] in *; lia).
      destruct (IH (cur ++ [x]) Hlt) as (Hcat & Hrows).
      split; [|exact Hrows].
      rewrite Hcat. now rewrite <- app_assoc.
Qed.

(** C3, as the code reassembles rows.  The loop runs on comma- or
    semicolon-separated rows only, and its width [target] is the largest
    cell count of the split rows (at least 1), not the most frequent one.
    A row below that width is ragged.  Seeing the rows as runs of ragged
    rows, each closed by a full-width row, and a last run: the cells of
    every run are laid out [target] to a row - a row is flushed as soon as
    the buffer holds [target] cells, cells beyond stay in the buffer -,
    what is left of a run is flushed as it is in front of the full-width
    row that closes it or at the end, full-width rows are kept, and rows
    with no filled cell are dropped. *)
Theorem ragged_rows_reassembled (csvRows : list (list jsstring)) :
  let target := targetColumnsOf csvRows in
  ((1 <= target)%nat /\
   Forall (fun row => (length row <= target)%nat) csvRows /\
   (target = 1%nat \/ exists row, In row csvRows /\ length row = target)) /\
  (exists blocks lastRun, raggedSplit target csvRows blocks lastRun) /\
  (forall blocks lastRun,
     raggedSplit target csvRows blocks lastRun ->
     mergeRaggedRows csvRows
     = filter someCellFilled (reassembled target blocks lastRun)) /\
  (forall cells : list jsstring,
     concat (chunks target cells) = cells /\
     exists fullRows rest,
       chunks target cells
       = fullRows ++ match rest with [] => [] | _ => [rest] end /\
       Forall (fun row => length row = target) fullRows /\
       (length rest < target)%nat) /\
  (forall text : jsstring,
     let lines := textLines (cleanText text) in
     let delimiter :=
       if (countLinesWith 59%N lines <=? countLinesWith 44%N lines)%nat
       then 44%N else 59%N in
     existsb (includes 9%N) lines = false ->
     ((countLinesWith 44%N lines =? 0)%nat
      && (countLinesWith 59%N lines =? 0)%nat) = false ->
     csvRows
     = filter someCellFilled
         (List.map (fun line =>
                      List.map normalizeCell (parseCsvLine line delimiter))
                   lines) ->
     parseRows text = mergeRaggedRows csvRows).
Proof.
  intros target.
  assert (Hpos : (1 <= target)%nat)
    by (unfold target, targetColumnsOf; apply (proj1 (fold_max_ge _ 1))).
  assert (Hle : Forall (fun row => (length row <= target)%nat) csvRows).
  { apply Forall_forall. intros row Hin. now apply targetColumnsOf_bound. }
  split; [split; [exact Hpos | split; [exact Hle | apply targetColumnsOf_attained]]|].
  split; [now apply raggedSplit_exists|].
  split; [|split].
  - intros blocks lastRun (Heq & Hblocks & Hlast).
    unfold mergeRaggedRows. change (targetColumnsOf csvRows) with target.
    clearbody target. rewrite Heq. unfold runsRows.
    rewrite fold_left_app.
    destruct (mergeFold_blocks target blocks Hpos Hblocks [] None eq_refl)
      as (acc1 & pend1 & Hfold1 & Hp1 & Hacc1).
    rewrite Hfold1.
    destruct (mergeFold_run target lastRun Hlast acc1 pend1)
      as (emitted & pend2 & Hfold2 & Hp2 & Hchunks);
      [rewrite Hp1; exact Hpos|].
    rewrite Hfold2.
    specialize (Hchunks []). rewrite Hp1, app_nil_r in Hchunks.
    unfold reassembled, chunks. rewrite Hchunks.
    cbn [filter] in Hacc1. cbn [app] in Hacc1.
    destruct pend2 as [[|c p]|]; cbn [pendingCells chunksFrom];
      [ cbn [someCellFilled existsb]
      | destruct (someCellFilled (c :: p)) eqn:Hcp
      | ];
      rewrite ?filter_app, ?Hacc1; cbn [filter]; rewrite ?Hcp, ?app_nil_r;
      rewrite <- ?app_assoc; reflexivity.
  - intros cells. apply (chunksFrom_rows target cells []). cbn [length]. lia.
  - intros text lines delimiter Htab Hcsv ->.
    unfold parseRows. fold lines. rewrite Htab, Hcsv. reflexivity.
Qed.

(** Three comma-separated rows of 2, 2 and 3 cells: the most frequent width
    is 2, yet the two rows of that width are taken apart and rebuilt at
    width 3.  The same rows separated by tabs are left as they are. *)
Lemma ragged_rows_modal_counterexample :
  let rows := List.map (List.map js)
                [["a"; "b"]; ["c"; "d"]; ["e"; "f"; "g"]]%string in
  widthCount 2 rows = 2%nat /\ widthCount 3 rows = 1%nat /\
  targetColumnsOf rows = 3%nat /\
  parseRows (gridText 44%N rows)
  = List.map (List.map js) [["a"; "b"; "c"]; ["d"]; ["e"; "f"; "g"]]%string /\
  parseRows (gridText 9%N rows) = rows.
Proof. vm_compute. repeat split. Qed.

(* ================================================================== *)
(** * A pasted grid read back *)









(* ================================================================== *)
(** * Identical quotations everywhere, in binary64 *)















